(** * go-textparser: the token scanner, embedded and verified

    The scanner of package [textparser] reads UTF-8 text through a
    [bufio.Reader] and cuts it into typed tokens, tracking byte offset,
    line and column.  This file embeds the scanner function by function
    (explicit state passing over the [TokenScanner] struct) and proves the
    properties stated about it.

    Conventions.
    - A Go [int] is a [Z]: every counter of the scanner is bounded by the
      length of the input, so no wrap-around is reachable.
    - A [rune] is a [Z]; the input is a [list byte]; the [Text] of a token
      is kept as the sequence of runes that [runes_to_string] writes (the Go
      string is its UTF-8 encoding, [string_len] is its byte length).
    - A Go [for] loop becomes a [Fixpoint] on a fuel bound computed from the
      bytes left in the reader; [ErrFuel] marks an exhausted bound and is
      proved unreachable. *)

From Stdlib Require Import Strings.String Strings.Ascii Strings.Byte.
From Stdlib Require Import ZArith List Bool Lia.
Import Corelib.Init.Datatypes.
Import ListNotations.
Open Scope Z_scope.

Definition rune := Z.

(* ------------------------------------------------------------------ *)
(** ** Package unicode/utf8 (Go standard library) *)

Module utf8.

Definition RuneError : rune := 0xFFFD.

Definition b2z (b : byte) : Z := Z.of_N (Byte.to_N b).

Definition locb : Z := 0x80.
Definition hicb : Z := 0xBF.
Definition maskx : Z := 0x3F.
Definition mask2 : Z := 0x1F.
Definition mask3 : Z := 0x0F.
Definition mask4 : Z := 0x07.

(** What the table [first] of the Go decoder says about a leading byte:
    plain ASCII, invalid, or the head of a sequence of [sz] bytes whose
    second byte must lie in [lo..hi]. *)
Inductive lead : Type :=
| LeadASCII
| LeadInvalid
| LeadSeq (sz : nat) (lo hi : Z).

Definition first (p0 : Z) : lead :=
  if p0 <? 0x80 then LeadASCII
  else if p0 <? 0xC2 then LeadInvalid
  else if p0 <? 0xE0 then LeadSeq 2 locb hicb
  else if p0 =? 0xE0 then LeadSeq 3 0xA0 hicb
  else if p0 <? 0xED then LeadSeq 3 locb hicb
  else if p0 =? 0xED then LeadSeq 3 locb 0x9F
  else if p0 <? 0xF0 then LeadSeq 3 locb hicb
  else if p0 =? 0xF0 then LeadSeq 4 0x90 hicb
  else if p0 <? 0xF4 then LeadSeq 4 locb hicb
  else if p0 =? 0xF4 then LeadSeq 4 locb 0x8F
  else LeadInvalid.

Definition cont (b : Z) : bool := (locb <=? b) && (b <=? hicb).

(** [utf8.DecodeRune]: the first rune of [p] and its width in bytes;
    [(RuneError, 0)] on empty input, [(RuneError, 1)] on a malformed
    sequence. *)
Definition DecodeRune (p : list byte) : rune * nat :=
  match p with
  | [] => (RuneError, 0%nat)
  | c0 :: p1 =>
    let p0 := b2z c0 in
    match first p0 with
    | LeadASCII => (p0, 1%nat)
    | LeadInvalid => (RuneError, 1%nat)
    | LeadSeq sz lo hi =>
      if (length p <? sz)%nat then (RuneError, 1%nat) else
      match p1 with
      | [] => (RuneError, 1%nat)
      | c1 :: p2 =>
        let b1 := b2z c1 in
        if (b1 <? lo) || (hi <? b1) then (RuneError, 1%nat)
        else if (sz <=? 2)%nat then
          (Z.lor (Z.shiftl (Z.land p0 mask2) 6) (Z.land b1 maskx), 2%nat)
        else
        match p2 with
        | [] => (RuneError, 1%nat)
        | c2 :: p3 =>
          let b2 := b2z c2 in
          if negb (cont b2) then (RuneError, 1%nat)
          else if (sz <=? 3)%nat then
            (Z.lor (Z.lor (Z.shiftl (Z.land p0 mask3) 12)
                          (Z.shiftl (Z.land b1 maskx) 6))
                   (Z.land b2 maskx), 3%nat)
          else
          match p3 with
          | [] => (RuneError, 1%nat)
          | c3 :: _ =>
            let b3 := b2z c3 in
            if negb (cont b3) then (RuneError, 1%nat)
            else
              (Z.lor (Z.lor (Z.lor (Z.shiftl (Z.land p0 mask4) 18)
                                   (Z.shiftl (Z.land b1 maskx) 12))
                            (Z.shiftl (Z.land b2 maskx) 6))
                     (Z.land b3 maskx), 4%nat)
          end
        end
      end
    end
  end.

(** Number of bytes [strings.Builder.WriteRune] appends for [r]: the
    width of its encoding, a rune that cannot be encoded being written as
    [RuneError] (three bytes). *)
Definition WriteRune_len (r : rune) : Z :=
  if r <? 0 then 3
  else if r <=? 0x7F then 1
  else if r <=? 0x7FF then 2
  else if (0xD800 <=? r) && (r <=? 0xDFFF) then 3
  else if r <=? 0xFFFF then 3
  else if r <=? 0x10FFFF then 4
  else 3.

End utf8.

(* ------------------------------------------------------------------ *)
(** ** Package unicode (Go standard library)

    The predicates of package [unicode] answer for the Latin-1 block from
    the table [properties], written out below, and for every other rune from
    range tables that are not part of this repository: those are taken as a
    parameter, one predicate per table. *)

Module unicode.

Definition MaxLatin1 : rune := 0xFF.

Record tables : Type := {
  Letter : rune -> bool;
  Digit : rune -> bool;
  Punct : rune -> bool;
  Symbol : rune -> bool;
  Mark : rune -> bool;
  White_Space : rune -> bool
}.

Definition isLatin1 (r : rune) : bool := (0 <=? r) && (r <=? MaxLatin1).

Definition between (lo hi r : rune) : bool := (lo <=? r) && (r <=? hi).

Definition latin1_letter (r : rune) : bool :=
  between 0x41 0x5A r || between 0x61 0x7A r
  || (r =? 0xAA) || (r =? 0xB5) || (r =? 0xBA)
  || between 0xC0 0xD6 r || between 0xD8 0xF6 r || between 0xF8 0xFF r.

Definition latin1_punct (r : rune) : bool :=
  between 0x21 0x23 r || between 0x25 0x2A r || between 0x2C 0x2F r
  || between 0x3A 0x3B r || between 0x3F 0x40 r || between 0x5B 0x5D r
  || (r =? 0x5F) || (r =? 0x7B) || (r =? 0x7D)
  || (r =? 0xA1) || (r =? 0xA7) || (r =? 0xAB)
  || between 0xB6 0xB7 r || (r =? 0xBB) || (r =? 0xBF).

Definition latin1_symbol (r : rune) : bool :=
  (r =? 0x24) || (r =? 0x2B) || between 0x3C 0x3E r
  || (r =? 0x5E) || (r =? 0x60) || (r =? 0x7C) || (r =? 0x7E)
  || between 0xA2 0xA6 r || between 0xA8 0xA9 r || (r =? 0xAC)
  || between 0xAE 0xB1 r || (r =? 0xB4) || (r =? 0xB8)
  || (r =? 0xD7) || (r =? 0xF7).

Definition latin1_space (r : rune) : bool :=
  between 0x09 0x0D r || (r =? 0x20) || (r =? 0x85) || (r =? 0xA0).

Section WithTables.
Variable U : tables.

Definition IsLetter (r : rune) : bool :=
  if isLatin1 r then latin1_letter r else Letter U r.

Definition IsDigit (r : rune) : bool :=
  if isLatin1 r then between 0x30 0x39 r else Digit U r.

Definition IsPunct (r : rune) : bool :=
  if isLatin1 r then latin1_punct r else Punct U r.

Definition IsSymbol (r : rune) : bool :=
  if isLatin1 r then latin1_symbol r else Symbol U r.

(** There is no mark character in Latin-1. *)
Definition IsMark (r : rune) : bool :=
  if isLatin1 r then false else Mark U r.

Definition IsSpace (r : rune) : bool :=
  if isLatin1 r then latin1_space r else White_Space U r.
End WithTables.

(** A table set that knows no rune beyond Latin-1. *)
Definition latin1_only : tables :=
  {| Letter := fun _ => false; Digit := fun _ => false;
     Punct := fun _ => false; Symbol := fun _ => false;
     Mark := fun _ => false; White_Space := fun _ => false |}.

End unicode.

(* ------------------------------------------------------------------ *)
(** ** Errors *)

Record Position : Type := {
  Filename : string;  (* Filename, if any. *)
  Offset : Z;         (* Byte offset (starting at 0). *)
  Line : Z;           (* Line number (starting at 1). *)
  Column : Z          (* Column number (in characters, starting at 1). *)
}.

(** The error values the scanner handles.  [ErrUnterminated] is the error
    built by [fmt.Errorf] in [get_quoted]: its message renders the position
    and the closing quote.  [ErrFuel] is no Go error (see the header). *)
Inductive error : Type :=
| EOF                                              (* io.EOF *)
| ErrInvalidUnreadRune                             (* bufio.ErrInvalidUnreadRune *)
| ErrInvalidUTF8                                   (* "invalid utf-8 sequence" *)
| ErrUnterminated (at_pos : Position) (closing : rune)
| ErrFuel.

Definition is_EOF (e : error) : bool :=
  match e with EOF => true | _ => false end.

(* ------------------------------------------------------------------ *)
(** ** bufio.Reader over an in-memory source

    The reader is the whole input, the offset [rd] of the next unread byte
    and the width of the last rune read ([None] for Go's [-1]).  The refill
    of the internal buffer is not observable and is left out. *)

Module bufio.

Record Reader : Type := {
  buf : list byte;
  rd : nat;
  lastRuneSize : option nat
}.

Definition NewReader (input : list byte) : Reader :=
  {| buf := input; rd := 0; lastRuneSize := None |}.

Definition unreadBytes (b : Reader) : list byte := skipn (rd b) (buf b).

(** [ReadRune]: [None] stands for the error [io.EOF]. *)
Definition ReadRune (b : Reader) : option (rune * nat) * Reader :=
  match unreadBytes b with
  | [] => (None, {| buf := buf b; rd := rd b; lastRuneSize := None |})
  | p =>
    let '(r, size) := utf8.DecodeRune p in
    (Some (r, size),
     {| buf := buf b; rd := (rd b + size)%nat; lastRuneSize := Some size |})
  end.

Definition UnreadRune (b : Reader) : option error * Reader :=
  match lastRuneSize b with
  | None => (Some ErrInvalidUnreadRune, b)
  | Some n =>
    if (rd b <? n)%nat then (Some ErrInvalidUnreadRune, b)
    else (None, {| buf := buf b; rd := (rd b - n)%nat; lastRuneSize := None |})
  end.

(** [Peek n]: the next [n] bytes without advancing; fewer with [io.EOF]
    when the input ends first.  It invalidates [UnreadRune]. *)
Definition Peek (n : nat) (b : Reader) : list byte * option error * Reader :=
  let p := firstn n (unreadBytes b) in
  (p, if (length p <? n)%nat then Some EOF else None,
   {| buf := buf b; rd := rd b; lastRuneSize := None |}).

(** Bytes not yet consumed. *)
Definition remaining (b : Reader) : nat := (length (buf b) - rd b)%nat.

End bufio.

(* ------------------------------------------------------------------ *)
(** ** Data model of package textparser *)

Inductive TokenType : Type :=
| TokenTypeWhitespace
| TokenTypeIdent
| TokenTypeString
| TokenTypeComment
| TokenTypeInt
| TokenTypeFloat
| TokenTypeSymbol.

Record Token : Type := {
  Text : list rune;    (* The text of the token. *)
  NumBytes : Z;        (* Number of bytes in the token. *)
  NumChars : Z;        (* Number of characters/runes in the token. *)
  FirstRune : rune;    (* First rune in the token. *)
  Type_ : TokenType    (* The type of token. *)
}.

(** Byte length of the Go string held in [Text]. *)
Definition string_len (text : list rune) : Z :=
  fold_right (fun r n => utf8.WriteRune_len r + n) 0 text.

(** The predicate type of [get_general].  In the engine of this snapshot a
    [predicate_func] sees the candidate rune only; the predicates of
    classes.go also receive [i], the index of the rune in the token being
    built, and [runes], the runes accepted so far.  The call site in
    [get_general] passes both; a predicate of the older form ignores them
    ([lift]). *)
Definition predicate_func : Type := rune -> Z -> list rune -> bool.

Definition lift (p : rune -> bool) : predicate_func := fun ch _ _ => p ch.

(** The fields of the scanner that no scanning function assigns: the
    caller sets them through [Init], [SetEOL] or by assignment. *)
Record Config : Type := {
  eol : rune;
  SkipWhitespace : bool;     (* Indicator to skip whitespace tokens. *)
  SkipComments : bool;       (* Indicator to skip comment tokens. *)
  IsIdentRune : rune -> Z -> bool;
  IsSpaceRune : predicate_func;
  IsQuoteRune : rune -> bool * rune;
  IsEscapeRune : rune -> bool;
  IsSymbolRune : predicate_func;
  IsPunctRune : rune -> bool;
  IsDigitRune : rune -> bool
}.

Record TokenScanner : Type := {
  cfg : Config;
  reader : bufio.Reader;
  pos : Position;
  last_err : option error;
  last_byte_len : Z;
  last_line_addition : Z;
  last_col : Z;
  LastToken : option Token
}.

Definition with_reader (ts : TokenScanner) (r : bufio.Reader) : TokenScanner :=
  {| cfg := cfg ts; reader := r; pos := pos ts; last_err := last_err ts;
     last_byte_len := last_byte_len ts;
     last_line_addition := last_line_addition ts; last_col := last_col ts;
     LastToken := LastToken ts |}.

Definition with_pos (ts : TokenScanner) (p : Position) : TokenScanner :=
  {| cfg := cfg ts; reader := reader ts; pos := p; last_err := last_err ts;
     last_byte_len := last_byte_len ts;
     last_line_addition := last_line_addition ts; last_col := last_col ts;
     LastToken := LastToken ts |}.

Definition with_last_err (ts : TokenScanner) (e : option error) : TokenScanner :=
  {| cfg := cfg ts; reader := reader ts; pos := pos ts; last_err := e;
     last_byte_len := last_byte_len ts;
     last_line_addition := last_line_addition ts; last_col := last_col ts;
     LastToken := LastToken ts |}.

Definition with_last_byte_len (ts : TokenScanner) (n : Z) : TokenScanner :=
  {| cfg := cfg ts; reader := reader ts; pos := pos ts; last_err := last_err ts;
     last_byte_len := n;
     last_line_addition := last_line_addition ts; last_col := last_col ts;
     LastToken := LastToken ts |}.

Definition with_last_line_addition (ts : TokenScanner) (n : Z) : TokenScanner :=
  {| cfg := cfg ts; reader := reader ts; pos := pos ts; last_err := last_err ts;
     last_byte_len := last_byte_len ts;
     last_line_addition := n; last_col := last_col ts;
     LastToken := LastToken ts |}.

Definition with_last_col (ts : TokenScanner) (n : Z) : TokenScanner :=
  {| cfg := cfg ts; reader := reader ts; pos := pos ts; last_err := last_err ts;
     last_byte_len := last_byte_len ts;
     last_line_addition := last_line_addition ts; last_col := n;
     LastToken := LastToken ts |}.

Definition with_LastToken (ts : TokenScanner) (t : option Token) : TokenScanner :=
  {| cfg := cfg ts; reader := reader ts; pos := pos ts; last_err := last_err ts;
     last_byte_len := last_byte_len ts;
     last_line_addition := last_line_addition ts; last_col := last_col ts;
     LastToken := t |}.

Definition with_cfg (ts : TokenScanner) (c : Config) : TokenScanner :=
  {| cfg := c; reader := reader ts; pos := pos ts; last_err := last_err ts;
     last_byte_len := last_byte_len ts;
     last_line_addition := last_line_addition ts; last_col := last_col ts;
     LastToken := LastToken ts |}.

(* ------------------------------------------------------------------ *)
(** ** classes.go: the default predicates *)

Module classes.

(** [IsEscapeRune]: true if the character is a reverse solidus. *)
Definition IsEscapeRune (ch : rune) : bool := ch =? 0x5C.

(** [IsQuoteRune]: single quotes, double quotes and back ticks. *)
Definition IsQuoteRune (ch : rune) : bool * rune :=
  if ch =? 0x0022 then (true, 0x0022)
  else if ch =? 0x0027 then (true, 0x0027)
  else if ch =? 0x0060 then (true, 0x0060)
  else (false, 0).

Definition IsQuoteRuneFancy (ch : rune) : bool * rune :=
  if ch =? 0x0022 then (true, 0x0022)
  else if ch =? 0x0027 then (true, 0x0027)
  else if ch =? 0x0060 then (true, 0x0060)
  else if ch =? 0x201C then (true, 0x201D)
  else if ch =? 0x2018 then (true, 0x2019)
  else if ch =? 0x2039 then (true, 0x203A)
  else if ch =? 0x00AB then (true, 0x00BB)
  else (false, 0).

Section WithTables.
Variable U : unicode.tables.

(** [IsSymbolRune(ch, i, runes)] of classes.go: one rune per token. *)
Definition IsSymbolRune : predicate_func := fun ch i runes =>
  if 0 <? i then false
  else if fst (IsQuoteRune ch) then false
  else if unicode.IsSymbol U ch then true
  else if unicode.IsPunct U ch then true
  else false.

(** [IsSymbolRune(ch)] of the older classes.go: no index, so the symbol
    classifier runs on as long as symbol runes follow. *)
Definition IsSymbolRune_v1 (ch : rune) : bool :=
  if fst (IsQuoteRune ch) then false
  else if unicode.IsSymbol U ch then true
  else if unicode.IsPunct U ch then true
  else false.

Definition IsIdentRune (ch : rune) (i : Z) : bool :=
  if unicode.IsLetter U ch then true
  else if ch =? 0x5F then true
  else if unicode.IsPunct U ch then false
  else if (0 <? i) && unicode.IsDigit U ch then true
  else if unicode.IsMark U ch then true
  else false.

Definition IsSpaceRune : predicate_func := fun ch i runes =>
  if unicode.IsSpace U ch then true else false.

Definition IsDigitRune (ch : rune) : bool := unicode.IsDigit U ch.

End WithTables.
End classes.

(* ------------------------------------------------------------------ *)
(** ** The scanner: rune level *)

Definition remaining (ts : TokenScanner) : nat := bufio.remaining (reader ts).

(** Result of [get_one_rune]: Go's triple [(ch, size, err)]. *)
Inductive read_result : Type :=
| Got (ch : rune) (size : Z)
| ReadErr (e : error).

Definition get_one_rune (ts : TokenScanner) : read_result * TokenScanner :=
  match bufio.ReadRune (reader ts) with
  | (None, r) => (ReadErr EOF, with_last_err (with_reader ts r) (Some EOF))
  | (Some (ch, size), r) => (Got ch (Z.of_nat size), with_reader ts r)
  end.

Definition unread_rune (ts : TokenScanner) : option error * TokenScanner :=
  let '(e, r) := bufio.UnreadRune (reader ts) in (e, with_reader ts r).

(** The bookkeeping every classifier does for an accepted rune:
    [if ch == ts.eol { ts.last_line_addition++; ts.last_col = 1 }
     else { ts.last_col++ }]. *)
Definition count_rune (ts : TokenScanner) (ch : rune) : TokenScanner :=
  if ch =? eol (cfg ts) then
    with_last_col (with_last_line_addition ts (last_line_addition ts + 1)) 1
  else with_last_col ts (last_col ts + 1).

Fixpoint get_n_runes_loop (n : nat) (ts : TokenScanner) (chars : list rune)
  (total_size : Z) : list rune * Z * option error * TokenScanner :=
  match n with
  | O => (chars, total_size, None, ts)
  | S n' =>
    match bufio.ReadRune (reader ts) with
    | (None, r) =>
      (chars, total_size, Some EOF,
       with_last_err (with_reader ts r) (Some EOF))
    | (Some (ch, size), r) =>
      let ts := with_reader ts r in
      let ts := with_last_byte_len ts (last_byte_len ts + Z.of_nat size) in
      let ts := with_last_col ts (last_col ts + 1) in
      let ts :=
        if ch =? eol (cfg ts) then
          with_last_col
            (with_last_line_addition ts (last_line_addition ts + 1)) 1
        else ts in
      get_n_runes_loop n' ts (chars ++ [ch]) (total_size + Z.of_nat size)
    end
  end.

Definition get_n_runes (n : nat) (ts : TokenScanner)
  : list rune * Z * option error * TokenScanner :=
  get_n_runes_loop n ts [] 0.

Fixpoint peek_multirune_loop (k : nat) (p : list byte) (runes : list rune)
  : list rune * option error :=
  match k with
  | O => (runes, None)
  | S k' =>
    let '(ch, size) := utf8.DecodeRune p in
    if (size =? 0)%nat then ([], Some EOF)
    else if ch =? utf8.RuneError then (runes, Some ErrInvalidUTF8)
    else peek_multirune_loop k' (skipn size p) (runes ++ [ch])
  end.

Definition peek_multirune (num_runes : nat) (ts : TokenScanner)
  : list rune * option error * TokenScanner :=
  let '(p, err, r) := bufio.Peek (4 * num_runes) (reader ts) in
  let ts := with_reader ts r in
  let stop :=
    match err with
    | Some e => negb (is_EOF e && (0 <? length p)%nat)
    | None => false
    end in
  if stop then ([], err, ts)
  else let '(runes, e) := peek_multirune_loop num_runes p [] in (runes, e, ts).

Definition check_next_rune_char_n (ch : rune) (n : nat) (ts : TokenScanner)
  : bool * TokenScanner :=
  let '(runes, err, ts) := peek_multirune n ts in
  match err with
  | Some _ => (false, ts)
  | None =>
    if (length runes <? n)%nat then (false, ts)
    else (nth (n - 1) runes 0 =? ch, ts)
  end.

Definition check_next_rune_class_n (check : rune -> bool) (n : nat)
  (ts : TokenScanner) : bool * TokenScanner :=
  let '(runes, err, ts) := peek_multirune n ts in
  match err with
  | Some _ => (false, ts)
  | None =>
    if (length runes <? n)%nat then (false, ts)
    else (check (nth (n - 1) runes 0), ts)
  end.

Definition runes_to_string (args : list (list rune)) : list rune :=
  concat args.

(* ------------------------------------------------------------------ *)
(** ** The scanner: classifiers *)

(** A classifier returns Go's pair of a token pointer and an error. *)
Definition classified : Type := option Token * option error * TokenScanner.

(** How a [for] loop is left: by [break], or by [return nil, err]. *)
Inductive loop_exit : Type :=
| Break
| Return (err : option error).

Definition Position_ (ts : TokenScanner) : Position := pos ts.

Definition update_pos (ts : TokenScanner) : TokenScanner :=
  let p := pos ts in
  (* Add the byte length of the last token. *)
  let p := {| Filename := Filename p; Offset := Offset p + last_byte_len ts;
              Line := Line p; Column := Column p |} in
  let ts := with_last_byte_len ts 0 in
  (* Add any additional lines parsed in the last token. *)
  let p := {| Filename := Filename p; Offset := Offset p;
              Line := Line p + last_line_addition ts; Column := Column p |} in
  let ts := with_last_line_addition ts 0 in
  (* Set to the last column count. *)
  let p := {| Filename := Filename p; Offset := Offset p;
              Line := Line p; Column := last_col ts |} in
  with_pos ts p.

Fixpoint get_ident_loop (fuel : nat) (i : Z) (ts : TokenScanner)
  (runes : list rune) (total_size : Z)
  : loop_exit * list rune * Z * TokenScanner :=
  match fuel with
  | O => (Return (Some ErrFuel), runes, total_size, ts)
  | S fuel' =>
    match get_one_rune ts with
    | (ReadErr err, ts) =>
      if is_EOF err && (0 <? length runes)%nat
      then (Break, runes, total_size, ts)
      else (Return (Some err), runes, total_size, ts)
    | (Got ch size, ts) =>
      if IsIdentRune (cfg ts) ch i then
        get_ident_loop fuel' (i + 1) (count_rune ts ch) (runes ++ [ch])
                       (total_size + size)
      else
        match unread_rune ts with
        | (Some _, ts) => (Return None, runes, total_size, ts)
        | (None, ts) => (Break, runes, total_size, ts)
        end
    end
  end.

Definition get_ident (ts : TokenScanner) : classified :=
  match get_ident_loop (S (remaining ts)) 0 ts [] 0 with
  | (Return err, _, _, ts) => (None, err, ts)
  | (Break, runes, total_size, ts) =>
    if (length runes =? 0)%nat then (None, None, ts)
    else
      let text := runes_to_string [runes] in
      let token := {| Text := text; NumBytes := total_size;
                      NumChars := Z.of_nat (length runes);
                      FirstRune := nth 0 runes 0; Type_ := TokenTypeIdent |} in
      let ts := with_last_byte_len ts total_size in
      let ts := with_LastToken ts (Some token) in
      (Some token, None, ts)
  end.

Fixpoint read_until_loop (fuel : nat) (end_ch : rune) (ts : TokenScanner)
  (runes : list rune) : loop_exit * list rune * TokenScanner :=
  match fuel with
  | O => (Return (Some ErrFuel), runes, ts)
  | S fuel' =>
    match get_one_rune ts with
    | (ReadErr err, ts) =>
      (* Special case for EOF when we're looking for an end-of-line *)
      if is_EOF err && (end_ch =? eol (cfg ts))
      then (Break, runes, ts)
      else (Return (Some err), runes, ts)
    | (Got ch size, ts) =>
      let ts := with_last_byte_len ts (last_byte_len ts + size) in
      let ts := count_rune ts ch in
      let runes := runes ++ [ch] in
      if ch =? end_ch then (Break, runes, ts)
      else read_until_loop fuel' end_ch ts runes
    end
  end.

Definition read_until (end_ch : rune) (ts : TokenScanner)
  : list rune * option error * TokenScanner :=
  match read_until_loop (S (remaining ts)) end_ch ts [] with
  | (Return err, _, ts) => ([], err, ts)
  | (Break, runes, ts) => (runes, None, ts)
  end.

(** The loop of the block form of [get_comment]: up to and including the
    next star, then one more rune; done when that rune is a slash. *)
Fixpoint get_comment_block_loop (fuel : nat) (ts : TokenScanner)
  (all_runes : list rune) : loop_exit * list rune * TokenScanner :=
  match fuel with
  | O => (Return (Some ErrFuel), all_runes, ts)
  | S fuel' =>
    match read_until 0x2A ts with
    | (_, Some err, ts) => (Return (Some err), all_runes, ts)
    | (runes, None, ts) =>
      let all_runes := all_runes ++ runes in
      match get_one_rune ts with
      | (ReadErr err, ts) => (Return (Some err), all_runes, ts)
      | (Got ch _, ts) =>
        let all_runes := all_runes ++ [ch] in
        if negb (ch =? 0x2F) then
          (* keep going *)
          get_comment_block_loop fuel' ts all_runes
        else (Break, all_runes, ts)
      end
    end
  end.

Definition comment_token (ts : TokenScanner) (all_runes : list rune)
  : classified :=
  if (0 <? length all_runes)%nat then
    let token := {| Text := runes_to_string [all_runes];
                    NumBytes := last_byte_len ts;
                    NumChars := Z.of_nat (length all_runes);
                    FirstRune := 0x2F; Type_ := TokenTypeComment |} in
    let ts := with_LastToken ts (Some token) in
    (Some token, None, ts)
  else (None, None, ts).

Definition get_comment (ts : TokenScanner) : classified :=
  match get_one_rune ts with
  | (ReadErr err, ts) => (None, Some err, ts)
  | (Got ch _, ts) =>
    if ch =? 0x2F then
      match unread_rune ts with
      | (Some err, ts) => (None, Some err, ts)
      | (None, ts) =>
        let '(is_line, ts) := check_next_rune_char_n 0x2F 2 ts in
        if is_line then
          (* This is a line comment. *)
          match get_n_runes 2 ts with
          | (_, _, Some err, ts) => (None, Some err, ts)
          | (chars, _, None, ts) =>
            let all_runes := chars in
            match read_until (eol (cfg ts)) ts with
            | (chars, Some err, ts) =>
              if negb (is_EOF err) then (None, Some err, ts)
              else comment_token ts (all_runes ++ chars)
            | (chars, None, ts) => comment_token ts (all_runes ++ chars)
            end
          end
        else
          let '(is_block, ts) := check_next_rune_char_n 0x2A 2 ts in
          if is_block then
            (* This is a multi-line comment. *)
            match get_n_runes 2 ts with
            | (_, _, Some err, ts) => (None, Some err, ts)
            | (chars, _, None, ts) =>
              match get_comment_block_loop (S (remaining ts)) ts chars with
              | (Return err, _, ts) => (None, err, ts)
              | (Break, all_runes, ts) => comment_token ts all_runes
              end
            end
          else comment_token ts []
      end
    else
      match unread_rune ts with
      | (Some err, ts) => (None, Some err, ts)
      | (None, ts) => (None, None, ts)
      end
  end.

(** The loop of [get_quoted]: read up to the closing rune; when the rune
    before it is an escape rune, drop the escape rune and go on. *)
Fixpoint get_quoted_loop (fuel : nat) (closing_char : rune)
  (ts : TokenScanner) (all_runes : list rune)
  : loop_exit * list rune * TokenScanner :=
  match fuel with
  | O => (Return (Some ErrFuel), all_runes, ts)
  | S fuel' =>
    match read_until closing_char ts with
    | (_, Some _, ts) =>
      (Return (Some (ErrUnterminated (Position_ ts) closing_char)),
       all_runes, ts)
    | (runes, None, ts) =>
      if (1 <? length runes)%nat then
        let i := (length runes - 1)%nat in (* last element *)
        if IsEscapeRune (cfg ts) (nth (i - 1) runes 0) then
          (* Overwrite the escape character with the last character and
             truncate. *)
          let runes := firstn (i - 1) runes ++ [nth i runes 0] in
          get_quoted_loop fuel' closing_char ts (all_runes ++ runes)
        else (Break, all_runes ++ runes, ts)
      else (Break, all_runes ++ runes, ts)
    end
  end.

Definition get_quoted (ts : TokenScanner) : classified :=
  match get_one_rune ts with
  | (ReadErr err, ts) => (None, Some err, ts)
  | (Got ch size, ts) =>
    let '(ok, closing_char) := IsQuoteRune (cfg ts) ch in
    if negb ok then
      match unread_rune ts with
      | (Some err, ts) => (None, Some err, ts)
      | (None, ts) => (None, None, ts)
      end
    else
      let ts := with_last_byte_len ts (last_byte_len ts + size) in
      match get_quoted_loop (S (remaining ts)) closing_char ts [] with
      | (Return err, _, ts) => (None, err, ts)
      | (Break, all_runes, ts) =>
        let text := runes_to_string [[ch]; all_runes] in
        let token := {| Text := text; NumBytes := last_byte_len ts;
                        NumChars := Z.of_nat (length all_runes) + 1;
                        FirstRune := ch; Type_ := TokenTypeString |} in
        let ts := with_LastToken ts (Some token) in
        (Some token, None, ts)
      end
  end.

(** Modelled from the spec: the two extra arguments of the call to
    [rune_check], the index of the candidate rune and the runes accepted so
    far (specification 4.8 and the signatures of classes.go); the engine
    at hand calls [rune_check(ch)].  Everything else is the loop of
    get_general as written: read a rune, consult the exceptions and the
    predicate, count the rune or put it back. *)
Fixpoint get_general_loop (fuel : nat) (rune_check : predicate_func)
  (exceptions : list (rune -> bool)) (ts : TokenScanner)
  (runes : list rune) (total_size : Z)
  : loop_exit * list rune * Z * TokenScanner :=
  match fuel with
  | O => (Return (Some ErrFuel), runes, total_size, ts)
  | S fuel' =>
    match get_one_rune ts with
    | (ReadErr err, ts) =>
      if is_EOF err && (0 <? length runes)%nat
      then (Break, runes, total_size, ts)
      else (Return (Some err), runes, total_size, ts)
    | (Got ch size, ts) =>
      let is_exception := existsb (fun e => e ch) exceptions in
      if negb is_exception && rune_check ch (Z.of_nat (length runes)) runes
      then
        get_general_loop fuel' rune_check exceptions (count_rune ts ch)
                         (runes ++ [ch]) (total_size + size)
      else
        match unread_rune ts with
        | (Some err, ts) => (Return (Some err), runes, total_size, ts)
        | (None, ts) => (Break, runes, total_size, ts)
        end
    end
  end.

Definition get_general (token_type : TokenType) (rune_check : predicate_func)
  (exceptions : list (rune -> bool)) (ts : TokenScanner) : classified :=
  match get_general_loop (S (remaining ts)) rune_check exceptions ts [] 0 with
  | (Return err, _, _, ts) => (None, err, ts)
  | (Break, runes, total_size, ts) =>
    if (length runes =? 0)%nat then (None, None, ts)
    else
      let text := runes_to_string [runes] in
      let token := {| Text := text; NumBytes := total_size;
                      NumChars := Z.of_nat (length runes);
                      FirstRune := nth 0 runes 0; Type_ := token_type |} in
      let ts := with_last_byte_len ts total_size in
      let ts := with_LastToken ts (Some token) in
      (Some token, None, ts)
  end.

Definition get_symbol (ts : TokenScanner) : classified :=
  let quote_func := fun ch => if fst (IsQuoteRune (cfg ts) ch) then true else false in
  get_general TokenTypeSymbol (IsSymbolRune (cfg ts)) [quote_func] ts.

Definition get_whitespace (ts : TokenScanner) : classified :=
  get_general TokenTypeWhitespace (IsSpaceRune (cfg ts)) [] ts.

Fixpoint get_number_loop (fuel : nat) (ts : TokenScanner) (runes : list rune)
  (total_size : Z) (found_digits found_decimal is_float : bool)
  : loop_exit * list rune * Z * bool * TokenScanner :=
  match fuel with
  | O => (Return (Some ErrFuel), runes, total_size, is_float, ts)
  | S fuel' =>
    match get_one_rune ts with
    | (ReadErr err, ts) =>
      if is_EOF err && (0 <? length runes)%nat
      then (Break, runes, total_size, is_float, ts)
      else (Return (Some err), runes, total_size, is_float, ts)
    | (Got ch size, ts) =>
      if (ch =? 0x2E) && found_digits && negb found_decimal then
        (* Unread the period, then peek two runes ahead to see if it is
           followed by a digit. *)
        match unread_rune ts with
        | (Some err, ts) => (Return (Some err), runes, total_size, is_float, ts)
        | (None, ts) =>
          let '(ok, ts) := check_next_rune_class_n (IsDigitRune (cfg ts)) 2 ts in
          if ok then
            let total_size := total_size + size in
            let ts := with_last_col ts (last_col ts + 1) in
            let runes := runes ++ [ch] in
            (* Read the period back in and continue on. *)
            match get_one_rune ts with
            | (ReadErr err, ts) =>
              if is_EOF err && (0 <? length runes)%nat
              then (Break, runes, total_size, true, ts)
              else (Return (Some err), runes, total_size, true, ts)
            | (Got _ _, ts) =>
              get_number_loop fuel' ts runes total_size found_digits true true
            end
          else (Break, runes, total_size, is_float, ts)
        end
      else if (ch =? 0x2D) && negb found_digits then
        match unread_rune ts with
        | (Some err, ts) => (Return (Some err), runes, total_size, is_float, ts)
        | (None, ts) =>
          (* Check if there is a digit after the minus sign. *)
          let '(ok, ts) := check_next_rune_class_n (IsDigitRune (cfg ts)) 2 ts in
          if ok then
            let total_size := total_size + size in
            let ts := with_last_col ts (last_col ts + 1) in
            let runes := runes ++ [ch] in
            (* Read back in the minus sign and continue *)
            match get_one_rune ts with
            | (ReadErr err, ts) =>
              if is_EOF err && (0 <? length runes)%nat
              then (Break, runes, total_size, is_float, ts)
              else (Return (Some err), runes, total_size, is_float, ts)
            | (Got _ _, ts) =>
              get_number_loop fuel' ts runes total_size found_digits
                              found_decimal is_float
            end
          else (Break, runes, total_size, is_float, ts)
        end
      else if IsDigitRune (cfg ts) ch then
        get_number_loop fuel' (count_rune ts ch) (runes ++ [ch])
                        (total_size + size) true found_decimal is_float
      else
        match unread_rune ts with
        | (Some err, ts) => (Return (Some err), runes, total_size, is_float, ts)
        | (None, ts) => (Break, runes, total_size, is_float, ts)
        end
    end
  end.

Definition get_number (ts : TokenScanner) : classified :=
  match get_number_loop (S (remaining ts)) ts [] 0 false false false with
  | (Return err, _, _, _, ts) => (None, err, ts)
  | (Break, runes, total_size, is_float, ts) =>
    if (length runes =? 0)%nat then (None, None, ts)
    else
      let text := runes_to_string [runes] in
      let token_type := if is_float then TokenTypeFloat else TokenTypeInt in
      let token := {| Text := text; NumBytes := total_size;
                      NumChars := Z.of_nat (length runes);
                      FirstRune := nth 0 runes 0; Type_ := token_type |} in
      let ts := with_last_byte_len ts total_size in
      let ts := with_LastToken ts (Some token) in
      (Some token, None, ts)
  end.

(* ------------------------------------------------------------------ *)
(** ** The scanner: dispatch *)

(** The body of [Scan]'s loop after [update_pos], from the comment
    classifier on (whitespace is tried by [Scan_loop] itself, which needs
    the recursive call for [continue]).  [inl] is a [return] with its value
    and the local [err]; [inr] is a [continue]. *)
Definition Scan_rest (ts : TokenScanner)
  : (bool * option error * TokenScanner) + TokenScanner :=
  match get_comment ts with
  | (Some _, err, ts) =>
    if SkipComments (cfg ts) then inr ts else inl (true, err, ts)
  | (None, Some err, ts) => inl (false, Some err, ts)
  | (None, None, ts) =>
  match get_quoted ts with
  | (Some _, err, ts) => inl (true, err, ts)
  | (None, Some err, ts) => inl (false, Some err, ts)
  | (None, None, ts) =>
  match get_ident ts with
  | (Some _, err, ts) => inl (true, err, ts)
  | (None, Some err, ts) => inl (false, Some err, ts)
  | (None, None, ts) =>
  match get_number ts with
  | (Some _, err, ts) => inl (true, err, ts)
  | (None, Some err, ts) => inl (false, Some err, ts)
  | (None, None, ts) =>
  match get_symbol ts with
  | (Some _, err, ts) => inl (true, err, ts)
  | (None, Some err, ts) => inl (false, Some err, ts)
  | (None, None, ts) => inl (false, None, ts)   (* done = true *)
  end end end end end.

Fixpoint Scan_loop (fuel : nat) (ts : TokenScanner)
  : bool * option error * TokenScanner :=
  match fuel with
  | O => (false, Some ErrFuel, ts)
  | S fuel' =>
    let ts := update_pos ts in
    match get_whitespace ts with
    | (Some _, err, ts) =>
      if SkipWhitespace (cfg ts) then Scan_loop fuel' ts
      else (true, err, ts)
    | (None, Some err, ts) => (false, Some err, ts)
    | (None, None, ts) =>
      match Scan_rest ts with
      | inl r => r
      | inr ts => Scan_loop fuel' ts
      end
    end
  end.

(** [Scan]: the deferred function stores the local [err] in [last_err]. *)
Definition Scan (ts : TokenScanner) : bool * TokenScanner :=
  let '(found, err, ts) := Scan_loop (S (remaining ts)) ts in
  (found, with_last_err ts err).

Definition Err (ts : TokenScanner) : option error := last_err ts.

Definition Token_ (ts : TokenScanner) : option Token := LastToken ts.

Definition TokenText (ts : TokenScanner) : list rune :=
  match LastToken ts with
  | None => []
  | Some t => Text t
  end.

Definition SetEOL (ts : TokenScanner) (c : rune) : TokenScanner :=
  let k := cfg ts in
  with_cfg ts
    {| eol := c; SkipWhitespace := SkipWhitespace k;
       SkipComments := SkipComments k; IsIdentRune := IsIdentRune k;
       IsSpaceRune := IsSpaceRune k; IsQuoteRune := IsQuoteRune k;
       IsEscapeRune := IsEscapeRune k; IsSymbolRune := IsSymbolRune k;
       IsPunctRune := IsPunctRune k; IsDigitRune := IsDigitRune k |}.

Definition SetFilename (ts : TokenScanner) (name : string) : TokenScanner :=
  let p := pos ts in
  with_pos ts {| Filename := name; Offset := Offset p; Line := Line p;
                 Column := Column p |}.

(** The configuration [Init] installs. *)
Definition default_config (U : unicode.tables) : Config :=
  {| eol := 0x0A;
     SkipWhitespace := true;
     SkipComments := true;
     IsIdentRune := classes.IsIdentRune U;
     IsSpaceRune := classes.IsSpaceRune U;
     IsQuoteRune := classes.IsQuoteRune;
     IsEscapeRune := classes.IsEscapeRune;
     IsSymbolRune := classes.IsSymbolRune U;
     IsPunctRune := unicode.IsPunct U;
     IsDigitRune := classes.IsDigitRune U |}.

(** [Init] assigns every field but [last_err] and [LastToken]. *)
Definition Init (U : unicode.tables) (ts : TokenScanner) (input : list byte)
  : TokenScanner :=
  {| cfg := default_config U;
     reader := bufio.NewReader input;
     pos := {| Filename := EmptyString; Offset := 0; Line := 1; Column := 1 |};
     last_err := last_err ts;
     last_byte_len := 0;
     last_line_addition := 0;
     last_col := 1;
     LastToken := LastToken ts |}.

(** [new(TokenScanner)]: Go's zero value.  Its predicates are nil in Go;
    [Init] replaces them before any is called. *)
Definition zero_TokenScanner : TokenScanner :=
  {| cfg := {| eol := 0; SkipWhitespace := false; SkipComments := false;
               IsIdentRune := fun _ _ => false;
               IsSpaceRune := fun _ _ _ => false;
               IsQuoteRune := fun _ => (false, 0);
               IsEscapeRune := fun _ => false;
               IsSymbolRune := fun _ _ _ => false;
               IsPunctRune := fun _ => false;
               IsDigitRune := fun _ => false |};
     reader := bufio.NewReader [];
     pos := {| Filename := EmptyString; Offset := 0; Line := 0; Column := 0 |};
     last_err := None; last_byte_len := 0; last_line_addition := 0;
     last_col := 0; LastToken := None |}.

Definition NewScannerBytes (U : unicode.tables) (b : list byte) : TokenScanner :=
  Init U zero_TokenScanner b.

Definition NewScannerString (U : unicode.tables) (s : string) : TokenScanner :=
  NewScannerBytes U (list_byte_of_string s).

(* ------------------------------------------------------------------ *)
(** ** Driving the scanner

    The caller's loop [for p.Scan() { ... p.Token() ... p.Position() ... }]
    run for at most [n] steps: the scanner as the caller sees it after each
    successful step, and the scanner left by the step that returned false
    ([None] when all [n] steps succeeded). *)

Fixpoint scan_states (n : nat) (ts : TokenScanner)
  : list TokenScanner * option TokenScanner :=
  match n with
  | O => ([], None)
  | S n' =>
    match Scan ts with
    | (true, ts1) =>
      let '(l, r) := scan_states n' ts1 in (ts1 :: l, r)
    | (false, ts1) => ([], Some ts1)
    end
  end.

(** The runes of an ASCII string, for writing expected token texts. *)
Definition runes_of (s : string) : list rune :=
  map utf8.b2z (list_byte_of_string s).

(** What the caller reads off the scanner after a step. *)
Definition texts (l : list TokenScanner) : list (list rune) :=
  map TokenText l.

Definition kinds (l : list TokenScanner) : list (option TokenType) :=
  map (fun ts => option_map Type_ (LastToken ts)) l.



(* ------------------------------------------------------------------ *)
(** ** Vocabulary of the specifications *)

(** Offset of the next unread byte, the whole input, the bytes ahead. *)
Definition rdpos (ts : TokenScanner) : nat := bufio.rd (reader ts).
Definition input (ts : TokenScanner) : list byte := bufio.buf (reader ts).
Definition unread (ts : TokenScanner) : list byte :=
  bufio.unreadBytes (reader ts).

(** The scanner [ts] with its reader at offset [r]. *)
Definition at_rd (ts : TokenScanner) (r : nat) (l : option nat)
  : TokenScanner :=
  with_reader ts
    {| bufio.buf := input ts; bufio.rd := r; bufio.lastRuneSize := l |}.

(** What no classifier touches except through a produced token. *)
Definition keeps (ts ts' : TokenScanner) : Prop :=
  cfg ts' = cfg ts /\ pos ts' = pos ts /\ input ts' = input ts /\
  LastToken ts' = LastToken ts.

(** The line and column staged for the next [update_pos]. *)
Definition same_line_col (ts ts' : TokenScanner) : Prop :=
  last_line_addition ts' = last_line_addition ts /\
  last_col ts' = last_col ts.

(** The runes [ReadRune] delivers from the bytes [p], in order. *)
Fixpoint decode_fuel (fuel : nat) (p : list byte) : list rune :=
  match fuel with
  | O => []
  | S fuel' =>
    match p with
    | [] => []
    | _ :: _ =>
      let '(ch, n) := utf8.DecodeRune p in
      ch :: decode_fuel fuel' (skipn n p)
    end
  end.

Definition decode_all (p : list byte) : list rune :=
  decode_fuel (length p) p.

(** The runes a loop of [get_general] accepted after [pre]: none is an
    exception and each passed [rune_check] at its index. *)
Fixpoint accepted (rune_check : predicate_func)
  (exceptions : list (rune -> bool)) (pre acc : list rune) : Prop :=
  match acc with
  | [] => True
  | c :: acc' =>
    existsb (fun e => e c) exceptions = false /\
    rune_check c (Z.of_nat (length pre)) pre = true /\
    accepted rune_check exceptions (pre ++ [c]) acc'
  end.

(** What every classifier guarantees about the scanner it returns: a
    token is recorded with its byte length staged and input consumed;
    "not applicable" leaves offset, staged deltas and last token alone; an
    error is reported with the reader at end of input. *)
Definition classifier_post (ts : TokenScanner) (r : classified) : Prop :=
  let '(tok, err, ts') := r in
  cfg ts' = cfg ts /\ pos ts' = pos ts /\ input ts' = input ts /\
  match tok, err with
  | Some t, None =>
    LastToken ts' = Some t /\ last_byte_len ts' = NumBytes t /\
    (rdpos ts < rdpos ts')%nat
  | None, None =>
    rdpos ts' = rdpos ts /\ last_byte_len ts' = last_byte_len ts /\
    same_line_col ts ts' /\ LastToken ts' = LastToken ts
  | None, Some e =>
    unread ts' = [] /\ LastToken ts' = LastToken ts /\ e <> ErrFuel
  | Some _, Some _ => False
  end.

(** What a token built from an accepted run of runes records about its
    text. *)
Definition token_of_runes (t : Token) : Prop :=
  Text t <> [] /\ NumChars t = Z.of_nat (length (Text t)) /\
  FirstRune t = nth 0 (Text t) 0.

(** The quoted-string rule in the words of its description, over the
    runes [rs] that follow the opening quote: an occurrence of the closing
    rune ends the string; an escape rune immediately before an occurrence of
    the closing rune is dropped, that closing rune is kept as content and
    the search goes on; input that ends first is unterminated ([None]).  The
    result is the text after the opening quote, closing rune included, and
    the runes left after the string. *)
Fixpoint quoted_body (esc : rune -> bool) (closing : rune) (rs : list rune)
  : option (list rune * list rune) :=
  match rs with
  | [] => None
  | r :: rs' =>
    if r =? closing then Some ([r], rs')
    else
      match rs' with
      | c :: rs'' =>
        if esc r && (c =? closing) then
          match quoted_body esc closing rs'' with
          | Some (b, rest) => Some (c :: b, rest)
          | None => None
          end
        else
          match quoted_body esc closing rs' with
          | Some (b, rest) => Some (r :: b, rest)
          | None => None
          end
      | [] => None
      end
  end.

(** The text of a number token: an optional minus sign, digits, and
    either nothing more (Int) or a period and digits (Float). *)
Definition number_text (digit : rune -> bool) (text : list rune)
  (ty : TokenType) : Prop :=
  exists sign ds frac,
    text = sign ++ ds ++ frac /\
    (sign = [] \/ sign = [0x2D]) /\
    ds <> [] /\ Forall (fun d => digit d = true) ds /\
    ((frac = [] /\ ty = TokenTypeInt) \/
     (exists ds2, frac = 0x2E :: ds2 /\ ds2 <> [] /\
        Forall (fun d => digit d = true) ds2 /\ ty = TokenTypeFloat)).

(** The next rune the reader delivers is a digit. *)
Definition next_is_digit (digit : rune -> bool) (ts : TokenScanner) : Prop :=
  exists d n,
    unread ts <> [] /\ utf8.DecodeRune (unread ts) = (d, n) /\ digit d = true.

(** The states of the loop of [get_number]: the runes accepted so far
    with the flags [found_digits], [found_decimal] and [is_float]. *)
Inductive number_state (digit : rune -> bool) (ts : TokenScanner)
  : list rune -> bool -> bool -> bool -> Prop :=
| NS_start : number_state digit ts [] false false false
| NS_sign :
    next_is_digit digit ts ->
    number_state digit ts [0x2D] false false false
| NS_int sign ds :
    sign = [] \/ sign = [0x2D] -> ds <> [] ->
    Forall (fun d => digit d = true) ds ->
    number_state digit ts (sign ++ ds) true false false
| NS_dot sign ds :
    sign = [] \/ sign = [0x2D] -> ds <> [] ->
    Forall (fun d => digit d = true) ds ->
    next_is_digit digit ts ->
    number_state digit ts (sign ++ ds ++ [0x2E]) true true true
| NS_frac sign ds ds2 :
    sign = [] \/ sign = [0x2D] -> ds <> [] ->
    Forall (fun d => digit d = true) ds ->
    ds2 <> [] -> Forall (fun d => digit d = true) ds2 ->
    number_state digit ts (sign ++ ds ++ 0x2E :: ds2) true true true.

(** Exit condition shared by the rune loops of [get_ident], [get_general]
    and [get_number]. *)
Definition runes_loop_post (ts : TokenScanner) (runes : list rune) (total : Z)
  (ex : loop_exit) (runes' : list rune) (total' : Z) (ts' : TokenScanner)
  : Prop :=
  keeps ts ts' /\ last_byte_len ts' = last_byte_len ts /\
  match ex with
  | Break =>
    Z.of_nat (rdpos ts') = Z.of_nat (rdpos ts) + (total' - total) /\
    (rdpos ts <= rdpos ts')%nat /\
    exists acc, runes' = runes ++ acc /\
      (acc = [] -> same_line_col ts ts' /\ rdpos ts' = rdpos ts) /\
      (acc <> [] -> (rdpos ts < rdpos ts')%nat)
  | Return (Some e) => e = EOF /\ unread ts' = [] /\ runes = []
  | Return None => False
  end.

(** [Scan_loop] with a log: the whitespace and comment tokens it
    discards on its way, in order.  The second component is [Scan_loop]
    itself ([Scan_loop_log_snd]). *)
Fixpoint Scan_loop_log (fuel : nat) (ts : TokenScanner)
  : list Token * (bool * option error * TokenScanner) :=
  match fuel with
  | O => ([], (false, Some ErrFuel, ts))
  | S fuel' =>
    let ts := update_pos ts in
    match get_whitespace ts with
    | (Some t, err, ts) =>
      if SkipWhitespace (cfg ts) then
        let '(l, r) := Scan_loop_log fuel' ts in (t :: l, r)
      else ([], (true, err, ts))
    | (None, Some err, ts) => ([], (false, Some err, ts))
    | (None, None, ts) =>
      match Scan_rest ts with
      | inl r => ([], r)
      | inr ts =>
        let '(l, r) := Scan_loop_log fuel' ts in
        (match LastToken ts with Some t => t :: l | None => l end, r)
      end
    end
  end.

(** The tokens one call of [Scan] discards. *)
Definition skipped (ts : TokenScanner) : list Token :=
  fst (Scan_loop_log (S (remaining ts)) ts).

Definition sum_bytes (l : list Token) : Z :=
  fold_right (fun t n => NumBytes t + n) 0 l.

(** A token was produced: recorded as the last token, its byte length
    staged, input consumed. *)
Definition produced (ts ts' : TokenScanner) : Prop :=
  cfg ts' = cfg ts /\ pos ts' = pos ts /\ input ts' = input ts /\
  exists t, LastToken ts' = Some t /\ last_byte_len ts' = NumBytes t /\
            (rdpos ts < rdpos ts')%nat.

(** A classifier did not apply. *)
Definition untouched (ts ts' : TokenScanner) : Prop :=
  cfg ts' = cfg ts /\ pos ts' = pos ts /\ input ts' = input ts /\
  rdpos ts' = rdpos ts /\ last_byte_len ts' = last_byte_len ts /\
  same_line_col ts ts' /\ LastToken ts' = LastToken ts.

(** A classifier failed. *)
Definition failed (ts ts' : TokenScanner) (e : error) : Prop :=
  cfg ts' = cfg ts /\ pos ts' = pos ts /\ input ts' = input ts /\
  unread ts' = [] /\ LastToken ts' = LastToken ts /\ e <> ErrFuel.

(** [n] further calls of [Scan], whatever they return. *)
Fixpoint rescan (n : nat) (ts : TokenScanner) : TokenScanner :=
  match n with
  | O => ts
  | S n' => rescan n' (snd (Scan ts))
  end.

(** The caller's loop with its accounts: the tokens surfaced and the
    tokens discarded, over at most [n] steps. *)
Fixpoint scan_account (n : nat) (ts : TokenScanner)
  : list Token * list Token * option TokenScanner :=
  match n with
  | O => ([], [], None)
  | S n' =>
    let discarded := skipped ts in
    match Scan ts with
    | (true, ts1) =>
      let '(s, d, r) := scan_account n' ts1 in
      (match LastToken ts1 with Some t => t :: s | None => s end,
       discarded ++ d, r)
    | (false, ts1) => ([], discarded, Some ts1)
    end
  end.




(* ------------------------------------------------------------------ *)
(** ** Token pushback *)







(** ASCII strings with quotes in them. *)
Definition dq : string := String (ascii_of_nat 34) EmptyString.
Definition nl : string := String (ascii_of_nat 10) EmptyString.

(** The six classifiers, in the order [Scan] tries them. *)
Definition classifiers : list (TokenScanner -> classified) :=
  [get_whitespace; get_comment; get_quoted; get_ident; get_number;
   get_symbol].

(** [ts] with the symbol predicate replaced, as a caller does by
    assigning the field. *)
Definition with_IsSymbolRune (ts : TokenScanner) (p : predicate_func)
  : TokenScanner :=
  let k := cfg ts in
  with_cfg ts
    {| eol := eol k; SkipWhitespace := SkipWhitespace k;
       SkipComments := SkipComments k; IsIdentRune := IsIdentRune k;
       IsSpaceRune := IsSpaceRune k; IsQuoteRune := IsQuoteRune k;
       IsEscapeRune := IsEscapeRune k; IsSymbolRune := p;
       IsPunctRune := IsPunctRune k; IsDigitRune := IsDigitRune k |}.

(** The C4 example of the tests: [foo = ] followed by a double-quoted
    string with two escaped double quotes in it, and the text expected for
    its String token. *)
Definition quoted_example_string : string :=
  dq ++ "foo \" ++ dq ++ "some stuff\" ++ dq ++ " bar" ++ dq.

Definition quoted_example : string := "foo = " ++ quoted_example_string.

Definition quoted_example_text : string :=
  dq ++ "foo " ++ dq ++ "some stuff" ++ dq ++ " bar" ++ dq.

(* ------------------------------------------------------------------ *)
(** ** Conditions at the exits of the loops *)

Inductive get_one_rune_case (ts : TokenScanner) : read_result * TokenScanner -> Prop :=
| GotRune ch n :
    unread ts <> [] ->
    utf8.DecodeRune (unread ts) = (ch, n) -> (1 <= n)%nat ->
    (rdpos ts + n <= length (input ts))%nat ->
    get_one_rune_case ts (Got ch (Z.of_nat n), at_rd ts (rdpos ts + n) (Some n))
| GotEOF :
    unread ts = [] ->
    get_one_rune_case ts
      (ReadErr EOF, with_last_err (at_rd ts (rdpos ts) None) (Some EOF)).

Definition get_general_loop_post (check : predicate_func)
  (exc : list (rune -> bool)) (ts : TokenScanner) (runes : list rune)
  (total : Z) (r : loop_exit * list rune * Z * TokenScanner) : Prop :=
  let '(ex, runes', total', ts') := r in
  keeps ts ts' /\ last_byte_len ts' = last_byte_len ts /\
  match ex with
  | Break =>
    Z.of_nat (rdpos ts') = Z.of_nat (rdpos ts) + (total' - total) /\
    exists acc, runes' = runes ++ acc /\ accepted check exc runes acc /\
      (acc = [] -> same_line_col ts ts' /\ rdpos ts' = rdpos ts) /\
      (acc <> [] -> (rdpos ts < rdpos ts')%nat) /\
      (rdpos ts <= rdpos ts')%nat
  | Return (Some e) => e = EOF /\ unread ts' = [] /\ runes = []
  | Return None => False
  end.

Definition read_until_loop_post (end_ch : rune) (ts : TokenScanner)
  (runes : list rune) (r : loop_exit * list rune * TokenScanner) : Prop :=
  let '(ex, runes', ts') := r in
  keeps ts ts' /\
  Z.of_nat (rdpos ts') - Z.of_nat (rdpos ts)
    = last_byte_len ts' - last_byte_len ts /\
  (rdpos ts <= rdpos ts')%nat /\
  match ex with
  | Break =>
    exists acc, runes' = runes ++ acc /\
      decode_all (unread ts) = acc ++ decode_all (unread ts') /\
      (acc <> [] -> (rdpos ts < rdpos ts')%nat) /\
      ((exists mid, acc = mid ++ [end_ch] /\ ~ In end_ch mid) \/
       (end_ch = eol (cfg ts) /\ unread ts' = [] /\ ~ In end_ch acc))
  | Return (Some e) =>
    e = EOF /\ unread ts' = [] /\ end_ch <> eol (cfg ts) /\
    ~ In end_ch (decode_all (unread ts))
  | Return None => False
  end.

Definition get_quoted_loop_post (closing : rune) (ts : TokenScanner)
  (all_runes : list rune) (r : loop_exit * list rune * TokenScanner) : Prop :=
  let '(ex, all', ts') := r in
  let ahead := quoted_body (IsEscapeRune (cfg ts)) closing
                 (decode_all (unread ts)) in
  keeps ts ts' /\
  Z.of_nat (rdpos ts') - Z.of_nat (rdpos ts)
    = last_byte_len ts' - last_byte_len ts /\
  (rdpos ts <= rdpos ts')%nat /\
  (forall b rest, ahead = Some (b, rest) ->
     ex = Break /\ all' = all_runes ++ b /\ decode_all (unread ts') = rest) /\
  (ahead = None -> closing <> eol (cfg ts) ->
     ex = Return (Some (ErrUnterminated (pos ts) closing))) /\
  match ex with
  | Break => exists acc, all' = all_runes ++ acc
  | Return (Some e) =>
    unread ts' = [] /\ e = ErrUnterminated (pos ts) closing
  | Return None => False
  end.

(** A scanner whose reader sits where [ts]'s does, before the same bytes. *)
Definition same_place (ts ts' : TokenScanner) : Prop :=
  keeps ts ts' /\ rdpos ts' = rdpos ts /\
  last_byte_len ts' = last_byte_len ts.

Definition block_loop_post (ts : TokenScanner) (all_runes : list rune)
  (r : loop_exit * list rune * TokenScanner) : Prop :=
  let '(ex, all', ts') := r in
  keeps ts ts' /\ (rdpos ts <= rdpos ts')%nat /\
  match ex with
  | Break => exists acc, all' = all_runes ++ acc
  | Return (Some e) => e = EOF /\ unread ts' = []
  | Return None => False
  end.

Definition Scan_rest_post (ts : TokenScanner)
  (r : (bool * option error * TokenScanner) + TokenScanner) : Prop :=
  match r with
  | inl (true, None, ts') => produced ts ts'
  | inl (true, Some _, _) => False
  | inl (false, Some e, ts') => failed ts ts' e
  | inl (false, None, ts') => untouched ts ts'
  | inr ts' => produced ts ts'
  end.

Definition Scan_loop_post (ts : TokenScanner) (l : list Token)
  (r : bool * option error * TokenScanner) : Prop :=
  let '(found, err, ts') := r in
  cfg ts' = cfg ts /\ input ts' = input ts /\
  Filename (pos ts') = Filename (pos ts) /\
  Offset (pos ts') = Offset (pos ts) + last_byte_len ts + sum_bytes l /\
  match found, err with
  | true, None =>
    exists t, LastToken ts' = Some t /\ last_byte_len ts' = NumBytes t /\
              (rdpos ts < rdpos ts')%nat
  | true, Some _ => False
  | false, Some e => unread ts' = [] /\ e <> ErrFuel
  | false, None => True
  end.

(* ================================================================== *)
(** * Further functions, and the vocabulary of their properties *)

(* ------------------------------------------------------------------ *)
(** ** Lookahead: peek_rune, the one-rune checks, and what a lookahead answers *)

(** A rune the lookahead accepts: anything but [utf8.RuneError], which is
    what the decoder returns for a malformed byte and also what a
    well-formed U+FFFD decodes to. *)
Definition peekable (r : rune) : bool := negb (r =? utf8.RuneError).

(** The runes of [rs] before the first one that is not [peekable]. *)
Fixpoint peekable_prefix (rs : list rune) : list rune :=
  match rs with
  | [] => []
  | r :: rs' => if peekable r then r :: peekable_prefix rs' else []
  end.

(** What a lookahead of [n] runes answers when the reader would deliver
    the runes [rs]: the next [n] runes; the runes before the first
    unacceptable one among them, with the UTF-8 error; end of input when
    fewer than [n] runes are left. *)
Definition lookahead (n : nat) (rs : list rune) : list rune * option error :=
  let next := firstn n rs in
  if forallb peekable next then
    if (length next <? n)%nat then ([], Some EOF) else (next, None)
  else (peekable_prefix next, Some ErrInvalidUTF8).

(** [peek_rune]: the next rune without consuming it.  The body indexes
    [runes[0]] without a length check; [None] stands for the run-time panic
    of an index out of range. *)
Definition peek_rune (ts : TokenScanner)
  : option (rune * option error) * TokenScanner :=
  let '(runes, err, ts) := peek_multirune 1 ts in
  match err with
  | Some e => (Some (0, Some e), ts)
  | None =>
    match runes with
    | [] => (None, ts)
    | r :: _ => (Some (r, None), ts)
    end
  end.

(** [check_next_rune_char]; [None] is the panic of [peek_rune]. *)
Definition check_next_rune_char (ch : rune) (ts : TokenScanner)
  : option bool * TokenScanner :=
  match peek_rune ts with
  | (None, ts) => (None, ts)
  | (Some (_, Some _), ts) => (Some false, ts)
  | (Some (next_ch, None), ts) => (Some (next_ch =? ch), ts)
  end.

(** [check_next_rune_class]; [None] is the panic of [peek_rune]. *)
Definition check_next_rune_class (check : rune -> bool) (ts : TokenScanner)
  : option bool * TokenScanner :=
  match peek_rune ts with
  | (None, ts) => (None, ts)
  | (Some (_, Some _), ts) => (Some false, ts)
  | (Some (next_ch, None), ts) => (Some (check next_ch), ts)
  end.

(** The loop of [peek_multirune] over the runes the reader would
    deliver. *)
Fixpoint peek_runes (k : nat) (rs acc : list rune) : list rune * option error :=
  match k with
  | O => (acc, None)
  | S k' =>
    match rs with
    | [] => ([], Some EOF)
    | r :: rs' =>
      if r =? utf8.RuneError then (acc, Some ErrInvalidUTF8)
      else peek_runes k' rs' (acc ++ [r])
    end
  end.

(* ------------------------------------------------------------------ *)
(** ** Runs of runes *)

(** The runes of [rs] up to and including the first [end_ch], and the
    runes after it; all of [rs] and nothing when [end_ch] does not
    occur. *)
Fixpoint through (end_ch : rune) (rs : list rune) : list rune * list rune :=
  match rs with
  | [] => ([], [])
  | r :: rs' =>
    if r =? end_ch then ([r], rs')
    else let '(a, b) := through end_ch rs' in (r :: a, b)
  end.

(** The longest prefix of [rs] whose runes are no exception and pass
    [rune_check], each at its index in the token, [pre] being the runes
    already accepted. *)
Fixpoint longest_run (rune_check : predicate_func)
  (exceptions : list (rune -> bool)) (pre rs : list rune) : list rune :=
  match rs with
  | [] => []
  | c :: rs' =>
    if negb (existsb (fun e => e c) exceptions)
       && rune_check c (Z.of_nat (length pre)) pre
    then c :: longest_run rune_check exceptions (pre ++ [c]) rs'
    else []
  end.

(** A predicate that looks at the candidate rune only, as the
    one-argument predicates do. *)
Definition index_blind (check : predicate_func) : Prop :=
  forall ch i runes, check ch i runes = check ch 0 [].

(** The line count and the column staged for the next [update_pos]. *)
Definition staged (ts : TokenScanner) : Z * Z :=
  (last_line_addition ts, last_col ts).

(** One rune further: a new line after the end-of-line rune, the next
    column otherwise. *)
Definition advance (eol_ch : rune) (lc : Z * Z) (r : rune) : Z * Z :=
  if r =? eol_ch then (fst lc + 1, 1) else (fst lc, snd lc + 1).

(** Exit condition of the loops of [get_general] and [get_ident], in terms
    of the runes the reader holds. *)
Definition run_exit (check : predicate_func) (exc : list (rune -> bool))
  (ts : TokenScanner) (runes : list rune) (total : Z)
  (r : loop_exit * list rune * Z * TokenScanner) : Prop :=
  let '(ex, runes', total', ts') := r in
  let D := decode_all (unread ts) in
  let L := longest_run check exc runes D in
  (D = [] -> runes = [] -> ex = Return (Some EOF)) /\
  (D <> [] \/ runes <> [] ->
   ex = Break /\ runes' = runes ++ L /\
   decode_all (unread ts') = skipn (length L) D /\
   staged ts' = fold_left (advance (eol (cfg ts))) L (staged ts) /\
   total' - total <= string_len L /\
   (~ In utf8.RuneError L -> total' - total = string_len L)).

(** The longest prefix of [rs] whose runes satisfy [p]. *)
Fixpoint take_while (p : rune -> bool) (rs : list rune) : list rune :=
  match rs with
  | [] => []
  | r :: rs' => if p r then r :: take_while p rs' else []
  end.

(** What [get_general] asks of a rune: no exception holds of it and
    [rune_check] does. *)
Definition passes (rune_check : predicate_func)
  (exceptions : list (rune -> bool)) (c : rune) : bool :=
  negb (existsb (fun e => e c) exceptions) && rune_check c 0 [].

(* ------------------------------------------------------------------ *)
(** ** Dispatch *)

(** Whether the skip flags of [c] let [Scan] hand out a token of type
    [ty]. *)
Definition surfaced (c : Config) (ty : TokenType) : Prop :=
  match ty with
  | TokenTypeWhitespace => SkipWhitespace c = false
  | TokenTypeComment => SkipComments c = false
  | _ => True
  end.

(* ------------------------------------------------------------------ *)
(** ** Comments *)

(** The block-comment rule as the loop of [get_comment] applies it to the
    runes [rs] after the opening slash and star: read up to and including
    the next star, then take one more rune; that rune ends the comment when
    it is a slash, and is otherwise passed over without being looked at as
    a star.  [after_star] tells that the rune before was such a star.  The
    result is the text up to and including the closing slash and the runes
    after it; [None] when the input ends first. *)
Fixpoint block_body (after_star : bool) (rs : list rune)
  : option (list rune * list rune) :=
  match rs with
  | [] => None
  | r :: rs' =>
    if after_star then
      if r =? 0x2F then Some ([r], rs')
      else
        match block_body false rs' with
        | Some (b, rest) => Some (r :: b, rest)
        | None => None
        end
    else
      match block_body (r =? 0x2A) rs' with
      | Some (b, rest) => Some (r :: b, rest)
      | None => None
      end
  end.

(** Whether the runes [rs] open a comment: a slash followed by a slash or
    a star. *)
Definition opens_comment (rs : list rune) : bool :=
  match rs with
  | c1 :: c2 :: _ => (c1 =? 0x2F) && ((c2 =? 0x2F) || (c2 =? 0x2A))
  | _ => false
  end.

(* ------------------------------------------------------------------ *)
(** ** Positions in range *)

(** The counters a classifier works on are in range: nothing negative
    is staged, the staged column is a column, and the reader is inside the
    input. *)
Definition sound (ts : TokenScanner) : Prop :=
  0 <= last_byte_len ts /\ 0 <= last_line_addition ts /\
  1 <= last_col ts /\ (rdpos ts <= length (input ts))%nat.

(** From [ts] to [ts'] the reader went forward over the same input and no
    more bytes were staged than were consumed. *)
Definition grows (ts ts' : TokenScanner) : Prop :=
  pos ts' = pos ts /\ input ts' = input ts /\ cfg ts' = cfg ts /\
  sound ts' /\ (rdpos ts <= rdpos ts')%nat /\
  last_byte_len ts'
    <= last_byte_len ts + (Z.of_nat (rdpos ts') - Z.of_nat (rdpos ts)).

(** The scanner's position is a position in the input: line and column
    count from 1, and the offset, with the bytes staged for it, does not
    run past the bytes consumed. *)
Definition well_positioned (ts : TokenScanner) : Prop :=
  sound ts /\
  1 <= Line (pos ts) /\ 1 <= Column (pos ts) /\ 0 <= Offset (pos ts) /\
  Offset (pos ts) + last_byte_len ts <= Z.of_nat (rdpos ts).

(* ------------------------------------------------------------------ *)
(** ** TokenType.String and the default classes *)

(** [TokenType] is an [int]; the constants are numbered by [iota]. *)
Definition TokenType_int (t : TokenType) : Z :=
  match t with
  | TokenTypeWhitespace => 0
  | TokenTypeIdent => 1
  | TokenTypeString => 2
  | TokenTypeComment => 3
  | TokenTypeInt => 4
  | TokenTypeFloat => 5
  | TokenTypeSymbol => 6
  end.

Definition TokenType_names : list string :=
  ["Whitespace"; "Ident"; "String"; "Comment"; "Int"; "Float"; "Symbol"]%string.

(** [TokenType.String], on any value of the underlying [int]: the method
    checks the upper bound only, and indexing the array of names with a
    negative value panics ([None]). *)
Definition TokenType_String (t : Z) : option string :=
  if Z.of_nat (length TokenType_names) - 1 <? t then Some EmptyString
  else if t <? 0 then None
  else nth_error TokenType_names (Z.to_nat t).

(** The runes of the Latin-1 block. *)
Definition latin1_runes : list rune := map Z.of_nat (seq 0 256).

(** How many of the default classes claim [ch] as the first rune of a
    token: whitespace, quote, identifier, digit. *)
Definition head_classes (U : unicode.tables) (ch : rune) : list bool :=
  [classes.IsSpaceRune U ch 0 []; fst (classes.IsQuoteRune ch);
   classes.IsIdentRune U ch 0; classes.IsDigitRune U ch].

(** At most one of the booleans holds. *)
Definition at_most_one (l : list bool) : bool :=
  (length (filter (fun b => b) l) <=? 1)%nat.

(* ------------------------------------------------------------------ *)
(** ** Numbers *)

(** The lookahead of [get_number] over the runes [rs] after the period or
    minus sign at hand: the next rune is one a lookahead delivers (not
    U+FFFD) and a digit. *)
Definition digit_ahead (digit : rune -> bool) (rs : list rune) : bool :=
  match rs with
  | d :: _ => peekable d && digit d
  | [] => false
  end.

(** The loop of [get_number] over the runes [rs] the reader holds, with
    its flags [found_digits], [found_decimal] and [is_float]: the runes it
    accepts and the final [is_float].  A period after digits, and a minus
    sign before any digit, are accepted when a digit follows; the period
    once only. *)
Fixpoint number_run (digit : rune -> bool) (fd fdec isf : bool)
  (rs : list rune) : list rune * bool :=
  match rs with
  | [] => ([], isf)
  | ch :: rs' =>
    if (ch =? 0x2E) && fd && negb fdec then
      if peekable ch && digit_ahead digit rs' then
        let '(l, f) := number_run digit fd true true rs' in (ch :: l, f)
      else ([], isf)
    else if (ch =? 0x2D) && negb fd then
      if peekable ch && digit_ahead digit rs' then
        let '(l, f) := number_run digit fd fdec isf rs' in (ch :: l, f)
      else ([], isf)
    else if digit ch then
      let '(l, f) := number_run digit true fdec isf rs' in (ch :: l, f)
    else ([], isf)
  end.

(** The number at the head of [rs], in closed form: a minus sign if a
    digit follows it, the longest run of digits, and a period with the
    longest run of digits after it if a digit follows the period; nothing
    when there is no digit to begin with. *)
Definition number_prefix (digit : rune -> bool) (rs : list rune)
  : list rune :=
  let signed :=
    match rs with
    | c :: rs' => (c =? 0x2D) && digit_ahead digit rs'
    | [] => false
    end in
  let body := if signed then tl rs else rs in
  let ds := take_while digit body in
  let after := skipn (length ds) body in
  let frac :=
    match after with
    | c :: after' =>
      if (c =? 0x2E) && digit_ahead digit after'
      then c :: take_while digit after' else []
    | [] => []
    end in
  match ds with
  | [] => []
  | _ :: _ => (if signed then [0x2D] else []) ++ ds ++ frac
  end.

(** Exit condition of the loop of [get_number]. *)
Definition number_exit (ts : TokenScanner) (runes : list rune) (total : Z)
  (fd fdec isf : bool)
  (r : loop_exit * list rune * Z * bool * TokenScanner) : Prop :=
  let '(ex, runes', total', isf', ts') := r in
  let D := decode_all (unread ts) in
  let L := fst (number_run (IsDigitRune (cfg ts)) fd fdec isf D) in
  (D = [] -> runes = [] -> ex = Return (Some EOF)) /\
  (D <> [] \/ runes <> [] ->
   ex = Break /\ runes' = runes ++ L /\
   isf' = snd (number_run (IsDigitRune (cfg ts)) fd fdec isf D) /\
   decode_all (unread ts') = skipn (length L) D /\
   total' - total <= string_len L /\
   (~ In utf8.RuneError L -> total' - total = string_len L)).

(* ------------------------------------------------------------------ *)
(** ** Tokens and the input they consume *)

(** The runes a list of tokens spells, in order. *)
Definition spelled (l : list Token) : list rune := concat (map Text l).

(** A classifier that hands out a token has consumed exactly its text. *)
Definition spells_token (ts : TokenScanner) (r : classified) : Prop :=
  forall t, fst (fst r) = Some t ->
  decode_all (unread ts) = Text t ++ decode_all (unread (snd r)).

(** [ts] with the two skip flags set as a caller does by assigning the
    fields [SkipWhitespace] and [SkipComments]. *)
Definition with_skip (ts : TokenScanner) (whitespace comments : bool)
  : TokenScanner :=
  let k := cfg ts in
  with_cfg ts
    {| eol := eol k; SkipWhitespace := whitespace;
       SkipComments := comments; IsIdentRune := IsIdentRune k;
       IsSpaceRune := IsSpaceRune k; IsQuoteRune := IsQuoteRune k;
       IsEscapeRune := IsEscapeRune k; IsSymbolRune := IsSymbolRune k;
       IsPunctRune := IsPunctRune k; IsDigitRune := IsDigitRune k |}.

(* ================================================================== *)
(** * Properties *)

(* ------------------------------------------------------------------ *)
(** ** The reader *)

Lemma DecodeRune_size p ch n :
  p <> [] -> utf8.DecodeRune p = (ch, n) -> (1 <= n <= length p)%nat.
Proof.
  intros Hp H. unfold utf8.DecodeRune in H.
  destruct p as [|c0 p1]; [congruence|].
  destruct (utf8.first (utf8.b2z c0)) as [| |sz lo hi].
  - inversion H; simpl; lia.
  - inversion H; simpl; lia.
  - repeat match type of H with
    | (if ?c then _ else _) = _ => destruct c
    | match ?l with [] => _ | _ :: _ => _ end = _ => destruct l
    end; inversion H; simpl; lia.
Qed.

Arguments utf8.DecodeRune : simpl never.

Lemma skipn_nonnil_lt {A} (l : list A) n : skipn n l <> [] -> (n < length l)%nat.
Proof.
  intros H. destruct (Nat.lt_ge_cases n (length l)) as [|Hge]; [assumption|].
  exfalso. apply H. apply skipn_all2. exact Hge.
Qed.

Lemma get_one_rune_spec ts : get_one_rune_case ts (get_one_rune ts).
Proof.
  unfold get_one_rune, bufio.ReadRune.
  destruct (bufio.unreadBytes (reader ts)) as [|c p] eqn:E.
  - apply GotEOF. exact E.
  - destruct (utf8.DecodeRune (c :: p)) as [ch n] eqn:D.
    assert (Hs : (1 <= n <= length (c :: p))%nat)
      by (eapply DecodeRune_size; [discriminate | exact D]).
    apply GotRune.
    + unfold unread. rewrite E. discriminate.
    + unfold unread. rewrite E. exact D.
    + lia.
    + unfold bufio.unreadBytes in E.
      assert (H : length (skipn (bufio.rd (reader ts)) (bufio.buf (reader ts)))
                  = length (c :: p)) by (rewrite E; reflexivity).
      rewrite length_skipn in H. unfold rdpos, input in *. lia.
Qed.

Lemma unread_after_read ts r n :
  unread_rune (at_rd ts (r + n) (Some n)) = (None, at_rd ts r None).
Proof.
  unfold unread_rune, bufio.UnreadRune, at_rd, with_reader, input; simpl.
  assert (E : ((r + n <? n) = false)%nat) by (apply Nat.ltb_ge; lia).
  rewrite E. replace (r + n - n)%nat with r by lia. reflexivity.
Qed.

Lemma unread_at_rd ts r l : unread (at_rd ts r l) = skipn r (input ts).
Proof. reflexivity. Qed.

Lemma unread_skipn ts : unread ts = skipn (rdpos ts) (input ts).
Proof. reflexivity. Qed.

Lemma remaining_at_rd ts r l :
  remaining (at_rd ts r l) = (length (input ts) - r)%nat.
Proof. reflexivity. Qed.

(* ------------------------------------------------------------------ *)
(** ** Frames *)

Lemma keeps_refl ts : keeps ts ts.
Proof. repeat split. Qed.

Lemma keeps_trans a b c : keeps a b -> keeps b c -> keeps a c.
Proof.
  unfold keeps. intros (H1 & H2 & H3 & H4) (G1 & G2 & G3 & G4).
  repeat split; congruence.
Qed.

Lemma keeps_at_rd ts r l : keeps ts (at_rd ts r l).
Proof. repeat split. Qed.

Lemma keeps_count_rune ts ch : keeps ts (count_rune ts ch).
Proof. unfold count_rune. destruct (ch =? eol (cfg ts)); repeat split. Qed.

Lemma rdpos_count_rune ts ch : rdpos (count_rune ts ch) = rdpos ts.
Proof. unfold count_rune. destruct (ch =? eol (cfg ts)); reflexivity. Qed.

Lemma reader_count_rune ts ch : reader (count_rune ts ch) = reader ts.
Proof. unfold count_rune. destruct (ch =? eol (cfg ts)); reflexivity. Qed.

Lemma last_byte_len_count_rune ts ch :
  last_byte_len (count_rune ts ch) = last_byte_len ts.
Proof. unfold count_rune. destruct (ch =? eol (cfg ts)); reflexivity. Qed.

Lemma remaining_count_rune ts ch : remaining (count_rune ts ch) = remaining ts.
Proof. unfold remaining. rewrite reader_count_rune. reflexivity. Qed.

Lemma unread_count_rune ts ch : unread (count_rune ts ch) = unread ts.
Proof. unfold unread. rewrite reader_count_rune. reflexivity. Qed.

Lemma remaining_eq ts : remaining ts = (length (input ts) - rdpos ts)%nat.
Proof. reflexivity. Qed.

Lemma rdpos_at_rd ts r l : rdpos (at_rd ts r l) = r.
Proof. reflexivity. Qed.

Lemma rdpos_with_last_err ts e : rdpos (with_last_err ts e) = rdpos ts.
Proof. reflexivity. Qed.

Lemma keeps_with_last_err ts e : keeps ts (with_last_err ts e).
Proof. repeat split. Qed.

Create HintDb scan.
#[local] Hint Resolve keeps_refl keeps_at_rd keeps_count_rune
  keeps_with_last_err : scan.

(* ------------------------------------------------------------------ *)
(** ** get_general *)

Lemma accepted_app check exc pre a b :
  accepted check exc pre a -> accepted check exc (pre ++ a) b ->
  accepted check exc pre (a ++ b).
Proof.
  revert pre. induction a as [|c a IH]; intros pre Ha Hb; simpl in *.
  - rewrite app_nil_r in Hb. exact Hb.
  - destruct Ha as (H1 & H2 & H3). repeat split; try assumption.
    apply IH; [assumption|]. rewrite <- app_assoc. exact Hb.
Qed.

Lemma get_general_loop_spec check exc fuel :
  forall ts runes total, (remaining ts < fuel)%nat ->
  get_general_loop_post check exc ts runes total
    (get_general_loop fuel check exc ts runes total).
Proof.
  induction fuel as [|fuel IH]; intros ts runes total Hf; [lia|].
  simpl. destruct (get_one_rune_spec ts) as [ch n Hne HD Hn Hle | Heof].
  - destruct (negb (existsb (fun e => e ch) exc)
              && check ch (Z.of_nat (length runes)) runes) eqn:Hacc.
    + apply andb_prop in Hacc. destruct Hacc as [Hexc Hchk].
      apply negb_true_iff in Hexc.
      specialize (IH (count_rune (at_rd ts (rdpos ts + n) (Some n)) ch)
                     (runes ++ [ch]) (total + Z.of_nat n)).
      rewrite remaining_count_rune, remaining_at_rd in IH.
      rewrite remaining_eq in Hf.
      specialize (IH ltac:(lia)).
      destruct (get_general_loop fuel check exc _ _ _) as [[[ex runes'] total'] ts'].
      unfold get_general_loop_post in *.
      destruct IH as (Hk & Hb & IH).
      rewrite last_byte_len_count_rune in Hb.
      split; [|split; [exact Hb|]].
      { eapply keeps_trans; [|exact Hk].
        eapply keeps_trans; [apply keeps_at_rd | apply keeps_count_rune]. }
      destruct ex as [|[e|]].
      * destruct IH as (Hrd & acc & Hr & Ha & _ & _ & Hle').
        rewrite rdpos_count_rune, rdpos_at_rd in Hrd, Hle'.
        split; [lia|].
        exists (ch :: acc). rewrite <- app_assoc in Hr. simpl in Hr.
        split; [exact Hr|]. split; [simpl; auto|].
        split; [discriminate|]. split; [intros _|]; lia.
      * destruct IH as (_ & _ & Hnil). destruct runes; discriminate.
      * exact IH.
    + rewrite unread_after_read. unfold get_general_loop_post.
      split; [apply keeps_at_rd|]. split; [reflexivity|].
      split; [rewrite rdpos_at_rd; lia|].
      exists []. rewrite app_nil_r. repeat split; simpl; auto; congruence.
  - destruct (is_EOF EOF && (0 <? length runes)%nat) eqn:Hl;
      unfold get_general_loop_post.
    + split; [repeat split|]. split; [reflexivity|].
      split; [rewrite rdpos_with_last_err, rdpos_at_rd; lia|].
      exists []. rewrite app_nil_r. repeat split; simpl; auto; congruence.
    + split; [repeat split|]. split; [reflexivity|].
      split; [reflexivity|]. split; [exact Heof|].
      simpl in Hl. destruct runes; [reflexivity|discriminate].
Qed.

Lemma get_general_spec tt check exc ts :
  classifier_post ts (get_general tt check exc ts) /\
  forall t, fst (fst (get_general tt check exc ts)) = Some t ->
    token_of_runes t /\ Type_ t = tt /\
    accepted check exc [] (Text t) /\
    Z.of_nat (rdpos (snd (get_general tt check exc ts)))
      = Z.of_nat (rdpos ts) + NumBytes t.
Proof.
  unfold get_general.
  pose proof (get_general_loop_spec check exc (S (remaining ts)) ts [] 0
                ltac:(lia)) as H.
  destruct (get_general_loop _ check exc ts [] 0) as [[[ex runes] total] ts'].
  unfold get_general_loop_post in H. destruct H as ((K1 & K2 & K3 & K4) & Hb & H).
  destruct ex as [|[e|]].
  - destruct H as (Hrd & acc & Hr & Ha & Hnil & Hcons & Hle). simpl in Hr. subst acc.
    destruct runes as [|c runes]; simpl.
    + split; [|intros t Ht; discriminate].
      destruct (Hnil eq_refl) as [Hlc Hrd']. repeat split; auto; apply Hlc.
    + split.
      * repeat split; auto. apply Hcons. discriminate.
      * intros t Ht. inversion Ht; subst t; clear Ht.
        rewrite app_nil_r.
        split; [unfold token_of_runes; simpl; repeat split; discriminate|].
        split; [reflexivity|]. split; [exact Ha|].
        change (Z.of_nat (rdpos ts') = Z.of_nat (rdpos ts) + total). lia.
  - destruct H as (He & Hu & _). subst e. simpl.
    split; [|intros t Ht; discriminate].
    repeat split; auto. discriminate.
  - destruct H.
Qed.

(* ------------------------------------------------------------------ *)
(** ** The runes ahead *)

Lemma decode_fuel_irrelevant f1 : forall f2 p,
  (length p <= f1)%nat -> (length p <= f2)%nat ->
  decode_fuel f1 p = decode_fuel f2 p.
Proof.
  induction f1 as [|f1 IH]; intros f2 p H1 H2.
  - destruct p; [|simpl in H1; lia]. destruct f2; reflexivity.
  - destruct f2 as [|f2].
    + destruct p; [reflexivity | simpl in H2; lia].
    + destruct p as [|c p]; [reflexivity|]. simpl.
      destruct (utf8.DecodeRune (c :: p)) as [ch n] eqn:D.
      assert (Hs : (1 <= n <= length (c :: p))%nat)
        by (eapply DecodeRune_size; [discriminate | exact D]).
      f_equal. apply IH; rewrite length_skipn; cbn [length] in *; lia.
Qed.

Lemma decode_all_nil : decode_all [] = [].
Proof. reflexivity. Qed.

Lemma decode_all_step p ch n :
  p <> [] -> utf8.DecodeRune p = (ch, n) ->
  decode_all p = ch :: decode_all (skipn n p).
Proof.
  intros Hp D. unfold decode_all at 1.
  destruct p as [|c p]; [congruence|].
  change (length (c :: p)) with (S (length p)). simpl. rewrite D.
  f_equal. unfold decode_all.
  assert (Hs : (1 <= n <= length (c :: p))%nat)
    by (eapply DecodeRune_size; [discriminate | exact D]).
  apply decode_fuel_irrelevant; rewrite ?length_skipn; cbn [length] in *; lia.
Qed.

Lemma unread_advance ts n :
  skipn n (unread ts) = skipn (rdpos ts + n) (input ts).
Proof.
  unfold unread, bufio.unreadBytes, rdpos, input.
  rewrite skipn_skipn. f_equal. lia.
Qed.

Lemma decode_all_at_rd ts ch n l :
  unread ts <> [] -> utf8.DecodeRune (unread ts) = (ch, n) ->
  decode_all (unread ts) = ch :: decode_all (unread (at_rd ts (rdpos ts + n) l)).
Proof.
  intros Hne D. rewrite (decode_all_step _ _ _ Hne D).
  rewrite unread_advance. reflexivity.
Qed.

(* ------------------------------------------------------------------ *)
(** ** read_until *)

Lemma last_byte_len_with ts x ch :
  last_byte_len (count_rune (with_last_byte_len ts x) ch) = x.
Proof. rewrite last_byte_len_count_rune. reflexivity. Qed.

Lemma read_until_loop_spec end_ch fuel :
  forall ts runes, (remaining ts < fuel)%nat ->
  read_until_loop_post end_ch ts runes (read_until_loop fuel end_ch ts runes).
Proof.
  induction fuel as [|fuel IH]; intros ts runes Hf; [lia|].
  simpl. destruct (get_one_rune_spec ts) as [ch n Hne HD Hn Hle | Heof].
  - set (ts1 := count_rune
                  (with_last_byte_len (at_rd ts (rdpos ts + n) (Some n))
                     (last_byte_len (at_rd ts (rdpos ts + n) (Some n)) + Z.of_nat n))
                  ch).
    assert (K1 : keeps ts ts1).
    { unfold ts1. eapply keeps_trans; [|apply keeps_count_rune]. repeat split. }
    assert (R1 : rdpos ts1 = (rdpos ts + n)%nat)
      by (unfold ts1; rewrite rdpos_count_rune; reflexivity).
    assert (B1 : last_byte_len ts1 = last_byte_len ts + Z.of_nat n)
      by (unfold ts1; rewrite last_byte_len_count_rune; reflexivity).
    assert (U1 : unread ts1 = unread (at_rd ts (rdpos ts + n) (Some n)))
      by (unfold ts1; rewrite unread_count_rune; reflexivity).
    assert (D1 : decode_all (unread ts) = ch :: decode_all (unread ts1))
      by (rewrite U1; apply decode_all_at_rd; assumption).
    destruct (ch =? end_ch) eqn:Hc.
    + apply Z.eqb_eq in Hc. subst ch. unfold read_until_loop_post.
      split; [exact K1|]. split; [lia|]. split; [lia|].
      exists [end_ch]. split; [reflexivity|]. split; [exact D1|].
      split; [intros _; lia|].
      left. exists []. split; [reflexivity | intros []].
    + apply Z.eqb_neq in Hc.
      specialize (IH ts1 (runes ++ [ch])).
      assert (Hf1 : (remaining ts1 < fuel)%nat).
      { unfold ts1. rewrite remaining_count_rune.
        change (remaining (with_last_byte_len ?a ?b)) with (remaining a).
        rewrite remaining_at_rd. rewrite remaining_eq in Hf. lia. }
      specialize (IH Hf1).
      destruct (read_until_loop fuel end_ch ts1 (runes ++ [ch])) as [[ex runes'] ts'].
      unfold read_until_loop_post in *.
      destruct IH as (Hk & Hd & Hle' & IH).
      split; [eapply keeps_trans; eassumption|].
      split; [lia|]. split; [lia|].
      assert (Ecfg : cfg ts1 = cfg ts) by apply K1.
      destruct ex as [|[e|]].
      * destruct IH as (acc & Hr & Hdec & _ & Hend).
        exists (ch :: acc). rewrite <- app_assoc in Hr.
        split; [exact Hr|]. split; [rewrite D1, Hdec; reflexivity|].
        split; [intros _; lia|].
        destruct Hend as [(mid & Hm & Hnin) | (He & Hu & Hnin)].
        -- left. exists (ch :: mid). split; [rewrite Hm; reflexivity|].
           intros [H|H]; [congruence | contradiction].
        -- right. rewrite Ecfg in He. split; [exact He|]. split; [exact Hu|].
           intros [H|H]; [congruence | contradiction].
      * destruct IH as (He & Hu & Hne' & Hnin).
        rewrite Ecfg in Hne'. repeat split; auto.
        rewrite D1. intros [H|H]; [congruence | contradiction].
      * exact IH.
  - simpl. destruct (end_ch =? eol (cfg ts)) eqn:He; unfold read_until_loop_post.
    + apply Z.eqb_eq in He.
      split; [repeat split|].
      split; [unfold rdpos; simpl; lia|]. split; [unfold rdpos; simpl; lia|].
      exists []. rewrite app_nil_r. split; [reflexivity|].
      split; [reflexivity|]. split; [congruence|]. right. repeat split; auto.
    + apply Z.eqb_neq in He.
      split; [repeat split|].
      split; [unfold rdpos; simpl; lia|]. split; [unfold rdpos; simpl; lia|].
      repeat split; auto. rewrite Heof. intros [].
Qed.

Lemma read_until_spec end_ch ts :
  let '(runes, err, ts') := read_until end_ch ts in
  keeps ts ts' /\
  Z.of_nat (rdpos ts') - Z.of_nat (rdpos ts)
    = last_byte_len ts' - last_byte_len ts /\
  (rdpos ts <= rdpos ts')%nat /\
  match err with
  | None =>
    decode_all (unread ts) = runes ++ decode_all (unread ts') /\
    (runes <> [] -> (rdpos ts < rdpos ts')%nat) /\
    ((exists mid, runes = mid ++ [end_ch] /\ ~ In end_ch mid) \/
     (end_ch = eol (cfg ts) /\ unread ts' = [] /\ ~ In end_ch runes))
  | Some e =>
    e = EOF /\ unread ts' = [] /\ runes = [] /\ end_ch <> eol (cfg ts) /\
    ~ In end_ch (decode_all (unread ts))
  end.
Proof.
  unfold read_until.
  pose proof (read_until_loop_spec end_ch (S (remaining ts)) ts []
                ltac:(lia)) as H.
  destruct (read_until_loop _ end_ch ts []) as [[ex runes] ts'].
  unfold read_until_loop_post in H. destruct H as (K & Hd & Hle & H).
  destruct ex as [|[e|]].
  - destruct H as (acc & Hr & Hdec & Hlt & Hend). simpl in Hr. subst acc.
    repeat split; auto; apply K.
  - destruct H as (He & Hu & Hne & Hnin). repeat split; auto; apply K.
  - destruct H.
Qed.

(* ------------------------------------------------------------------ *)
(** ** get_quoted *)

Lemma quoted_body_none esc closing rs :
  ~ In closing rs -> quoted_body esc closing rs = None.
Proof.
  remember (length rs) as n eqn:Hn. revert rs Hn.
  induction n as [n IH] using lt_wf_ind. intros rs Hn Hnin.
  destruct rs as [|r rs]; [reflexivity|]. simpl.
  destruct (r =? closing) eqn:E.
  { apply Z.eqb_eq in E. exfalso. apply Hnin. left. exact E. }
  destruct rs as [|c rs]; [reflexivity|].
  destruct (c =? closing) eqn:E2.
  { apply Z.eqb_eq in E2. exfalso. apply Hnin. right. left. exact E2. }
  rewrite andb_false_r.
  rewrite (IH (length (c :: rs))); [reflexivity | subst n; simpl; lia | reflexivity |].
  intros H. apply Hnin. right. exact H.
Qed.

(** One segment of the search: the runes [mid] hold no closing rune and
    are followed by one. *)
Lemma quoted_body_segment esc closing mid rest :
  ~ In closing mid ->
  quoted_body esc closing (mid ++ closing :: rest) =
    match rev mid with
    | [] => Some ([closing], rest)
    | e :: m' =>
      if esc e then
        match quoted_body esc closing rest with
        | Some (b, rest') => Some (rev m' ++ closing :: b, rest')
        | None => None
        end
      else Some (mid ++ [closing], rest)
    end.
Proof.
  remember (length mid) as n eqn:Hn. revert mid Hn.
  induction n as [n IH] using lt_wf_ind. intros mid Hn Hnin.
  destruct mid as [|r mid].
  { simpl. rewrite Z.eqb_refl. reflexivity. }
  assert (Er : (r =? closing) = false).
  { apply Z.eqb_neq. intros E. apply Hnin. left. exact E. }
  destruct mid as [|c mid].
  { simpl. rewrite Er, Z.eqb_refl, andb_true_r. destruct (esc r); reflexivity. }
  assert (Ec : (c =? closing) = false).
  { apply Z.eqb_neq. intros E. apply Hnin. right. left. exact E. }
  change ((r :: c :: mid) ++ closing :: rest)
    with (r :: (c :: mid) ++ closing :: rest).
  assert (IH' := IH (length (c :: mid)) ltac:(subst n; simpl; lia) (c :: mid)
                   eq_refl (fun H => Hnin (or_intror H))).
  cbn [app] in IH'.
  cbn [quoted_body app]. rewrite Er, Ec, andb_false_r.
  cbn [quoted_body app] in IH'. rewrite Ec in IH'. rewrite IH'. clear IH'.
  change (rev (r :: c :: mid)) with (rev (c :: mid) ++ [r]).
  destruct (rev (c :: mid)) as [|e m'] eqn:Erev.
  { exfalso. apply (f_equal (@length _)) in Erev. rewrite length_rev in Erev.
    discriminate. }
  change ((e :: m') ++ [r]) with (e :: m' ++ [r]). cbv iota.
  destruct (esc e).
  - destruct (quoted_body esc closing rest) as [[b rest']|]; [|reflexivity].
    rewrite rev_app_distr. reflexivity.
  - reflexivity.
Qed.

Lemma nth_app_last {A} (l : list A) (x d : A) : nth (length l) (l ++ [x]) d = x.
Proof. induction l; simpl; auto. Qed.

Lemma firstn_app_exact {A} (l r : list A) : firstn (length l) (l ++ r) = l.
Proof. induction l; simpl; [destruct r; reflexivity | f_equal; assumption]. Qed.

Lemma get_quoted_loop_spec closing fuel :
  forall ts all_runes, (remaining ts < fuel)%nat ->
  get_quoted_loop_post closing ts all_runes
    (get_quoted_loop fuel closing ts all_runes).
Proof.
  induction fuel as [|fuel IH]; intros ts all_runes Hf; [lia|].
  simpl. pose proof (read_until_spec closing ts) as H.
  destruct (read_until closing ts) as [[runes err] ts1].
  destruct H as (K & Hd & Hle & H).
  assert (Ecfg : cfg ts1 = cfg ts) by apply K.
  assert (Epos : pos ts1 = pos ts) by apply K.
  destruct err as [e|].
  - destruct H as (He & Hu & Hr & Hne & Hnin). subst e runes.
    unfold get_quoted_loop_post, Position_. rewrite Epos.
    rewrite (quoted_body_none _ _ _ Hnin).
    repeat split; auto; try discriminate; apply K.
  - destruct H as (Hdec & Hlt & Hend).
    destruct Hend as [(mid & Hm & Hnin) | (He & Hu & Hnin)].
    + subst runes. rewrite length_app. cbn [length].
      destruct (rev mid) as [|e m'] eqn:Erev.
      * apply (f_equal (@rev _)) in Erev. rewrite rev_involutive in Erev.
        cbn in Erev. subst mid. cbn [length app Nat.add Nat.ltb Nat.leb].
        unfold get_quoted_loop_post. rewrite Hdec. cbn [app quoted_body].
        rewrite Z.eqb_refl.
        split; [exact K|]. split; [lia|]. split; [lia|].
        split; [intros b rest Hb; inversion Hb; subst; repeat split|].
        split; [discriminate|]. eauto.
      * apply (f_equal (@rev _)) in Erev. rewrite rev_involutive in Erev.
        cbn [rev] in Erev. subst mid.
        assert (L1 : (1 <? length (rev m' ++ [e]) + 1)%nat = true)
          by (apply Nat.ltb_lt; rewrite length_app; simpl; lia).
        rewrite L1.
        replace (length (rev m' ++ [e]) + 1 - 1 - 1)%nat with (length (rev m'))
          by (rewrite length_app; simpl; lia).
        replace (length (rev m' ++ [e]) + 1 - 1)%nat
          with (length (rev m' ++ [e])) by lia.
        rewrite nth_app_last.
        rewrite <- (app_assoc (rev m') [e] [closing]).
        rewrite app_nth2 by lia. rewrite Nat.sub_diag. cbn [nth app].
        rewrite firstn_app_exact.
        pose proof (quoted_body_segment (IsEscapeRune (cfg ts)) closing
                      (rev m' ++ [e]) (decode_all (unread ts1)) Hnin) as Hseg.
        rewrite rev_app_distr, rev_involutive in Hseg. cbn [rev app] in Hseg.
        rewrite <- app_assoc in Hdec. cbn [app] in Hdec.
        rewrite Ecfg.
        destruct (IsEscapeRune (cfg ts) e) eqn:Eesc.
        -- assert (Hf1 : (remaining ts1 < fuel)%nat).
           { assert (rdpos ts < rdpos ts1)%nat
               by (apply Hlt; destruct (rev m'); discriminate).
             rewrite !remaining_eq in *.
             destruct K as (_ & _ & Ki & _). rewrite Ki.
             assert (unread ts <> []).
             { intros E. rewrite E in Hdec. cbn in Hdec.
               destruct (rev m'); discriminate. }
             pose proof (skipn_nonnil_lt _ _ H0). unfold rdpos, input in *. lia. }
           specialize (IH ts1 (all_runes ++ rev m' ++ [closing]) Hf1).
           destruct (get_quoted_loop fuel closing ts1 _) as [[ex all'] ts'].
           unfold get_quoted_loop_post in *.
           rewrite Ecfg, Epos in IH.
           destruct IH as (K' & Hd' & Hle' & Hsome & Hnone & Hex).
           rewrite Hdec, Hseg.
           split; [eapply keeps_trans; eassumption|].
           split; [lia|]. split; [lia|].
           split; [|split].
           ++ intros b rest Hb.
              destruct (quoted_body (IsEscapeRune (cfg ts)) closing
                          (decode_all (unread ts1))) as [[b1 rest1]|];
                [|discriminate].
              inversion Hb; subst b rest; clear Hb.
              destruct (Hsome b1 rest1 eq_refl) as (E1 & E2 & E3).
              split; [exact E1|]. split; [|exact E3].
              rewrite E2, <- !app_assoc. reflexivity.
           ++ intros Hn Hne.
              destruct (quoted_body (IsEscapeRune (cfg ts)) closing
                          (decode_all (unread ts1))) as [[b1 rest1]|];
                [discriminate|].
              apply Hnone; auto.
           ++ destruct ex as [|[e'|]]; auto.
              destruct Hex as (acc & Hacc).
              exists ((rev m' ++ [closing]) ++ acc).
              rewrite Hacc, <- !app_assoc. reflexivity.
        -- unfold get_quoted_loop_post. rewrite Hdec, Hseg.
           split; [exact K|]. split; [lia|]. split; [lia|].
           split; [|split].
           ++ intros b rest Hb. inversion Hb; subst; clear Hb.
              repeat split. rewrite <- !app_assoc. reflexivity.
           ++ discriminate.
           ++ eauto.
    + (* the closing rune is the end-of-line rune and the input ended *)
      assert (Hq : quoted_body (IsEscapeRune (cfg ts)) closing
                     (decode_all (unread ts)) = None).
      { apply quoted_body_none. rewrite Hdec, Hu. cbn. rewrite app_nil_r.
        exact Hnin. }
      assert (Hgen : forall ex all' ts',
        keeps ts1 ts' ->
        Z.of_nat (rdpos ts') - Z.of_nat (rdpos ts1)
          = last_byte_len ts' - last_byte_len ts1 ->
        (rdpos ts1 <= rdpos ts')%nat ->
        match ex with
        | Break => exists acc, all' = all_runes ++ acc
        | Return (Some e) =>
          unread ts' = [] /\ e = ErrUnterminated (pos ts) closing
        | Return None => False
        end ->
        get_quoted_loop_post closing ts all_runes (ex, all', ts')).
      { intros ex all' ts' K' Hd' Hle' Hex. unfold get_quoted_loop_post.
        rewrite Hq. split; [eapply keeps_trans; eassumption|].
        split; [lia|]. split; [lia|]. split; [discriminate|].
        split; [intros _ Hc; contradiction|]. exact Hex. }
      destruct (1 <? length runes)%nat eqn:L1.
      * destruct (IsEscapeRune (cfg ts1) _) eqn:Eesc.
        -- assert (Hf1 : (remaining ts1 < fuel)%nat).
           { assert (rdpos ts < rdpos ts1)%nat.
             { apply Hlt. destruct runes; [discriminate L1 | discriminate]. }
             rewrite !remaining_eq in *.
             destruct K as (_ & _ & Ki & _). rewrite Ki.
             assert (unread ts <> []).
             { intros E. rewrite E in Hdec. cbn in Hdec.
               destruct runes; [discriminate L1 | discriminate]. }
             pose proof (skipn_nonnil_lt _ _ H0). unfold rdpos, input in *. lia. }
           specialize (IH ts1 (all_runes ++ firstn (length runes - 1 - 1) runes
                                 ++ [nth (length runes - 1) runes 0]) Hf1).
           destruct (get_quoted_loop fuel closing ts1 _) as [[ex all'] ts'].
           unfold get_quoted_loop_post in IH.
           destruct IH as (K' & Hd' & Hle' & _ & _ & Hex).
           apply Hgen; auto.
           rewrite Epos in Hex.
           destruct ex as [|[e'|]]; auto.
           destruct Hex as (acc & Hacc). rewrite <- app_assoc in Hacc. eauto.
        -- apply Hgen; auto with scan; try lia; eauto.
      * apply Hgen; auto with scan; try lia; eauto.
Qed.

Lemma get_quoted_spec ts :
  let '(tok, err, ts') := get_quoted ts in
  classifier_post ts (tok, err, ts') /\
  (forall t, tok = Some t ->
     Type_ t = TokenTypeString /\ token_of_runes t /\
     NumBytes t - last_byte_len ts
       = Z.of_nat (rdpos ts') - Z.of_nat (rdpos ts)) /\
  (forall ch n closing,
     unread ts <> [] -> utf8.DecodeRune (unread ts) = (ch, n) ->
     IsQuoteRune (cfg ts) ch = (true, closing) ->
     match quoted_body (IsEscapeRune (cfg ts)) closing
             (decode_all (skipn n (unread ts))) with
     | Some (b, rest) =>
       exists t, tok = Some t /\ err = None /\ Text t = ch :: b /\
                 decode_all (unread ts') = rest
     | None =>
       closing <> eol (cfg ts) ->
       tok = None /\ err = Some (ErrUnterminated (pos ts) closing)
     end).
Proof.
  unfold get_quoted.
  destruct (get_one_rune_spec ts) as [ch n Hne HD Hn Hle | Heof].
  - destruct (IsQuoteRune (cfg (at_rd ts (rdpos ts + n) (Some n))) ch)
      as [ok closing] eqn:Q.
    change (cfg (at_rd ts (rdpos ts + n) (Some n))) with (cfg ts) in Q.
    destruct ok; cbn [negb].
    + set (ts0 := with_last_byte_len (at_rd ts (rdpos ts + n) (Some n))
                    (last_byte_len (at_rd ts (rdpos ts + n) (Some n)) + Z.of_nat n)).
      pose proof (get_quoted_loop_spec closing (S (remaining ts0)) ts0 []
                    ltac:(lia)) as H.
      destruct (get_quoted_loop _ closing ts0 []) as [[ex all] ts'].
      unfold get_quoted_loop_post in H.
      change (cfg ts0) with (cfg ts) in H. change (pos ts0) with (pos ts) in H.
      change (rdpos ts0) with (rdpos ts + n)%nat in H.
      change (last_byte_len ts0) with (last_byte_len ts + Z.of_nat n) in H.
      change (unread ts0) with (unread (at_rd ts (rdpos ts + n) (Some n))) in H.
      rewrite unread_at_rd, <- unread_advance in H.
      destruct H as (K & Hd & Hle' & Hsome & Hnone & Hex).
      destruct K as (K1 & K2 & K3 & K4).
      change (cfg ts0) with (cfg ts) in K1. change (pos ts0) with (pos ts) in K2.
      change (input ts0) with (input ts) in K3.
      change (LastToken ts0) with (LastToken ts) in K4.
      destruct ex as [|[e|]].
      * split; [|split].
        -- cbn. repeat split; auto.
           change (rdpos ts < rdpos ts')%nat. lia.
        -- intros t Ht. inversion Ht; subst t; clear Ht. cbn.
           split; [reflexivity|]. split.
           ++ unfold token_of_runes; cbn. repeat split; [discriminate|].
              rewrite app_nil_r. lia.
           ++ change (last_byte_len ts' - last_byte_len ts
                      = Z.of_nat (rdpos ts') - Z.of_nat (rdpos ts)). lia.
        -- intros ch' n' closing' Hne' HD' Q'.
           rewrite HD in HD'. inversion HD'; subst ch' n'; clear HD'.
           rewrite Q in Q'. inversion Q'; subst closing'; clear Q'.
           destruct (quoted_body _ closing _) as [[b rest]|] eqn:Eq.
           ++ destruct (Hsome b rest eq_refl) as (_ & E2 & E3).
              eexists. split; [reflexivity|]. split; [reflexivity|].
              cbn. rewrite app_nil_r. split; [rewrite E2; reflexivity | exact E3].
           ++ intros Hc. specialize (Hnone eq_refl Hc). discriminate.
      * destruct Hex as (Hu & He). subst e. split; [|split].
        -- cbn. repeat split; auto. discriminate.
        -- intros t Ht. discriminate.
        -- intros ch' n' closing' Hne' HD' Q'.
           rewrite HD in HD'. inversion HD'; subst ch' n'; clear HD'.
           rewrite Q in Q'. inversion Q'; subst closing'; clear Q'.
           destruct (quoted_body _ closing _) as [[b rest]|] eqn:Eq.
           ++ destruct (Hsome b rest eq_refl) as (E1 & _). discriminate.
           ++ intros _. split; reflexivity.
      * destruct Hex.
    + rewrite unread_after_read. split; [|split].
      * cbn. repeat split; auto.
      * intros t Ht. discriminate.
      * intros ch' n' closing' Hne' HD' Q'.
        rewrite HD in HD'. inversion HD'; subst ch' n'; clear HD'.
        rewrite Q in Q'. discriminate.
  - split; [|split].
    + cbn. repeat split; auto. discriminate.
    + intros t Ht. discriminate.
    + intros ch n closing Hne. contradiction.
Qed.

(* ------------------------------------------------------------------ *)
(** ** Lookahead *)

Lemma first_size p0 sz lo hi :
  utf8.first p0 = utf8.LeadSeq sz lo hi -> (2 <= sz <= 4)%nat.
Proof.
  unfold utf8.first.
  repeat match goal with
  | |- (if ?c then _ else _) = _ -> _ => destruct c
  end; intros H; inversion H; lia.
Qed.

Lemma DecodeRune_le4 p ch n : utf8.DecodeRune p = (ch, n) -> (n <= 4)%nat.
Proof.
  unfold utf8.DecodeRune. intros H.
  repeat match type of H with
  | (if ?c then _ else _) = _ => destruct c
  | match ?l with [] => _ | _ :: _ => _ end = _ => destruct l
  | match ?l with utf8.LeadASCII => _ | _ => _ end = _ => destruct l
  end; inversion H; lia.
Qed.

Lemma DecodeRune_zero p ch : utf8.DecodeRune p = (ch, 0%nat) -> p = [].
Proof.
  intros H. destruct p as [|c p]; [reflexivity|].
  assert (Hs : (1 <= 0 <= length (c :: p))%nat)
    by (eapply DecodeRune_size; [discriminate | exact H]).
  lia.
Qed.

(** The decoder looks at four bytes at most. *)
Lemma DecodeRune_firstn k p :
  (4 <= k)%nat -> utf8.DecodeRune (firstn k p) = utf8.DecodeRune p.
Proof.
  intros Hk.
  destruct (Nat.le_gt_cases (length p) k) as [Hl|Hl].
  { rewrite firstn_all2 by exact Hl. reflexivity. }
  do 4 (destruct k as [|k]; [lia|]).
  destruct p as [|a [|b [|c [|d p]]]]; cbn [length] in Hl; try lia.
  cbn [firstn]. unfold utf8.DecodeRune.
  destruct (utf8.first (utf8.b2z a)) as [| |sz lo hi] eqn:F; try reflexivity.
  apply first_size in F.
  assert (E1 : (length (a :: b :: c :: d :: firstn k p) <? sz)%nat = false)
    by (apply Nat.ltb_ge; cbn [length]; lia).
  assert (E2 : (length (a :: b :: c :: d :: p) <? sz)%nat = false)
    by (apply Nat.ltb_ge; cbn [length]; lia).
  rewrite E1, E2. reflexivity.
Qed.

Lemma peek_state n ts :
  snd (peek_multirune n ts) = at_rd ts (rdpos ts) None.
Proof.
  unfold peek_multirune, bufio.Peek.
  repeat match goal with
  | |- context [if ?c then _ else _] => destruct c
  | |- context [let '(_, _) := ?x in _] => destruct x
  | |- context [match ?e with Some _ => _ | None => _ end] => destruct e
  end; reflexivity.
Qed.

Lemma check_char_state ch n ts :
  snd (check_next_rune_char_n ch n ts) = at_rd ts (rdpos ts) None.
Proof.
  unfold check_next_rune_char_n.
  pose proof (peek_state n ts) as H.
  destruct (peek_multirune n ts) as [[runes err] ts']. simpl in H. subst ts'.
  destruct err; [reflexivity|]. destruct (_ <? _)%nat; reflexivity.
Qed.

Lemma check_class_state check n ts :
  snd (check_next_rune_class_n check n ts) = at_rd ts (rdpos ts) None.
Proof.
  unfold check_next_rune_class_n.
  pose proof (peek_state n ts) as H.
  destruct (peek_multirune n ts) as [[runes err] ts']. simpl in H. subst ts'.
  destruct err; [reflexivity|]. destruct (_ <? _)%nat; reflexivity.
Qed.

Lemma peek_loop_2 p runes :
  peek_multirune_loop 2 p [] = (runes, None) ->
  exists c1 n1 d n2,
    p <> [] /\ utf8.DecodeRune p = (c1, n1) /\
    skipn n1 p <> [] /\ utf8.DecodeRune (skipn n1 p) = (d, n2) /\
    runes = [c1; d].
Proof.
  cbn [peek_multirune_loop].
  destruct (utf8.DecodeRune p) as [c1 n1] eqn:D1.
  destruct (n1 =? 0)%nat eqn:Z1; [discriminate|].
  destruct (c1 =? utf8.RuneError); [discriminate|].
  destruct (utf8.DecodeRune (skipn n1 p)) as [d n2] eqn:D2.
  destruct (n2 =? 0)%nat eqn:Z2; [discriminate|].
  destruct (d =? utf8.RuneError); [discriminate|].
  intros H. inversion H; subst runes; clear H.
  apply Nat.eqb_neq in Z1, Z2.
  exists c1, n1, d, n2. repeat split; auto.
  - intros E. subst p. cbv in D1. inversion D1. lia.
  - intros E. rewrite E in D2. cbv in D2. inversion D2. lia.
Qed.

Lemma firstn_nonnil {A} k (l : list A) : firstn k l <> [] -> l <> [].
Proof. intros H E. subst l. rewrite firstn_nil in H. congruence. Qed.

(** A successful two-rune lookahead names the second rune the reader will
    deliver. *)
Lemma peek_2_ahead ts runes :
  fst (peek_multirune 2 ts) = (runes, None) ->
  exists c1 n1 d n2,
    unread ts <> [] /\ utf8.DecodeRune (unread ts) = (c1, n1) /\
    skipn n1 (unread ts) <> [] /\
    utf8.DecodeRune (skipn n1 (unread ts)) = (d, n2) /\ runes = [c1; d].
Proof.
  unfold peek_multirune, bufio.Peek. fold (unread ts). cbn [Nat.mul Nat.add].
  set (p := firstn 8 (unread ts)).
  assert (Hp : forall runes' e, peek_multirune_loop 2 p [] = (runes', e) ->
                 (runes', e) = (runes, None) ->
    exists c1 n1 d n2,
      unread ts <> [] /\ utf8.DecodeRune (unread ts) = (c1, n1) /\
      skipn n1 (unread ts) <> [] /\
      utf8.DecodeRune (skipn n1 (unread ts)) = (d, n2) /\ runes = [c1; d]).
  { intros runes' e Hl E. inversion E; subst runes' e; clear E.
    destruct (peek_loop_2 p runes Hl) as (c1 & n1 & d & n2 & P1 & D1 & P2 & D2 & Er).
    unfold p in *.
    rewrite DecodeRune_firstn in D1 by lia.
    pose proof (DecodeRune_le4 _ _ _ D1) as Hn1.
    rewrite skipn_firstn_comm in P2, D2.
    rewrite DecodeRune_firstn in D2 by lia.
    exists c1, n1, d, n2. repeat split; auto.
    - eapply firstn_nonnil; eassumption.
    - eapply firstn_nonnil; eassumption. }
  destruct ((length p <? 8)%nat).
  - destruct (negb (is_EOF EOF && (0 <? length p)%nat)).
    + cbn. discriminate.
    + destruct (peek_multirune_loop 2 p []) as [runes' e] eqn:Hl. cbn.
      apply Hp. reflexivity.
  - destruct (peek_multirune_loop 2 p []) as [runes' e] eqn:Hl. cbn.
    apply Hp. reflexivity.
Qed.

Lemma check_class_2 check ts :
  fst (check_next_rune_class_n check 2 ts) = true ->
  exists c1 n1 d n2,
    unread ts <> [] /\ utf8.DecodeRune (unread ts) = (c1, n1) /\
    skipn n1 (unread ts) <> [] /\
    utf8.DecodeRune (skipn n1 (unread ts)) = (d, n2) /\ check d = true.
Proof.
  unfold check_next_rune_class_n.
  pose proof (peek_2_ahead ts) as H.
  destruct (peek_multirune 2 ts) as [[runes err] ts'].
  destruct err; [cbn; discriminate|].
  destruct (H runes eq_refl) as (c1 & n1 & d & n2 & P1 & D1 & P2 & D2 & Er).
  subst runes. cbn. intros Hc. exists c1, n1, d, n2. repeat split; auto.
Qed.

Lemma check_char_2 ch ts :
  fst (check_next_rune_char_n ch 2 ts) = true ->
  exists c1 n1 n2,
    unread ts <> [] /\ utf8.DecodeRune (unread ts) = (c1, n1) /\
    skipn n1 (unread ts) <> [] /\
    utf8.DecodeRune (skipn n1 (unread ts)) = (ch, n2).
Proof.
  unfold check_next_rune_char_n.
  pose proof (peek_2_ahead ts) as H.
  destruct (peek_multirune 2 ts) as [[runes err] ts'].
  destruct err; [cbn; discriminate|].
  destruct (H runes eq_refl) as (c1 & n1 & d & n2 & P1 & D1 & P2 & D2 & Er).
  subst runes. cbn. intros Hc. apply Z.eqb_eq in Hc. subst d.
  exists c1, n1, n2. repeat split; auto.
Qed.

(* ------------------------------------------------------------------ *)
(** ** get_ident *)

Lemma get_ident_loop_spec fuel :
  forall i ts runes total, (remaining ts < fuel)%nat ->
  let '(ex, runes', total', ts') := get_ident_loop fuel i ts runes total in
  runes_loop_post ts runes total ex runes' total' ts'.
Proof.
  induction fuel as [|fuel IH]; intros i ts runes total Hf; [lia|].
  simpl. destruct (get_one_rune_spec ts) as [ch n Hne HD Hn Hle | Heof].
  - change (cfg (at_rd ts (rdpos ts + n) (Some n))) with (cfg ts).
    destruct (IsIdentRune (cfg ts) ch i) eqn:Hacc.
    + specialize (IH (i + 1) (count_rune (at_rd ts (rdpos ts + n) (Some n)) ch)
                     (runes ++ [ch]) (total + Z.of_nat n)).
      rewrite remaining_count_rune, remaining_at_rd in IH.
      rewrite remaining_eq in Hf.
      specialize (IH ltac:(lia)).
      destruct (get_ident_loop fuel _ _ _ _) as [[[ex runes'] total'] ts'].
      unfold runes_loop_post in *.
      destruct IH as (Hk & Hb & IH).
      rewrite last_byte_len_count_rune in Hb.
      split; [|split; [exact Hb|]].
      { eapply keeps_trans; [|exact Hk].
        eapply keeps_trans; [apply keeps_at_rd | apply keeps_count_rune]. }
      destruct ex as [|[e|]].
      * destruct IH as (Hrd & Hle' & acc & Hr & _ & _).
        rewrite rdpos_count_rune, rdpos_at_rd in Hrd, Hle'.
        split; [lia|]. split; [lia|].
        exists (ch :: acc). rewrite <- app_assoc in Hr. simpl in Hr.
        split; [exact Hr|]. split; [discriminate|]. intros _; lia.
      * destruct IH as (_ & _ & Hnil). destruct runes; discriminate.
      * exact IH.
    + rewrite unread_after_read. unfold runes_loop_post.
      split; [apply keeps_at_rd|]. split; [reflexivity|].
      split; [rewrite rdpos_at_rd; lia|]. split; [rewrite rdpos_at_rd; lia|].
      exists []. rewrite app_nil_r. repeat split; simpl; auto; congruence.
  - destruct (is_EOF EOF && (0 <? length runes)%nat) eqn:Hl;
      unfold runes_loop_post.
    + split; [repeat split|]. split; [reflexivity|].
      split; [rewrite rdpos_with_last_err, rdpos_at_rd; lia|].
      split; [rewrite rdpos_with_last_err, rdpos_at_rd; lia|].
      exists []. rewrite app_nil_r. repeat split; simpl; auto; congruence.
    + split; [repeat split|]. split; [reflexivity|].
      split; [reflexivity|]. split; [exact Heof|].
      simpl in Hl. destruct runes; [reflexivity|discriminate].
Qed.

(** From the exit of a rune loop to the classifier's result. *)
Lemma runes_loop_classified ts ex runes total ts' tt :
  runes_loop_post ts [] 0 ex runes total ts' ->
  let r : classified :=
    match ex with
    | Return err => (None, err, ts')
    | Break =>
      if (length runes =? 0)%nat then (None, None, ts')
      else
        let token := {| Text := runes_to_string [runes]; NumBytes := total;
                        NumChars := Z.of_nat (length runes);
                        FirstRune := nth 0 runes 0; Type_ := tt |} in
        (Some token, None,
         with_LastToken (with_last_byte_len ts' total) (Some token))
    end in
  classifier_post ts r /\
  forall t, fst (fst r) = Some t ->
    token_of_runes t /\ Type_ t = tt /\ Text t = runes /\
    Z.of_nat (rdpos (snd r)) = Z.of_nat (rdpos ts) + NumBytes t.
Proof.
  unfold runes_loop_post. intros ((K1 & K2 & K3 & K4) & Hb & H).
  destruct ex as [|[e|]].
  - destruct H as (Hrd & Hle & acc & Hr & Hnil & Hcons). simpl in Hr. subst acc.
    destruct runes as [|c runes]; cbn [length Nat.eqb].
    + split; [|intros t Ht; discriminate].
      destruct (Hnil eq_refl) as [Hlc Hrd']. repeat split; auto; apply Hlc.
    + split.
      * repeat split; auto. apply Hcons. discriminate.
      * intros t Ht. inversion Ht; subst t; clear Ht.
        unfold runes_to_string. cbn [concat]. rewrite app_nil_r.
        split; [unfold token_of_runes; simpl; repeat split; discriminate|].
        split; [reflexivity|]. split; [reflexivity|].
        change (Z.of_nat (rdpos ts') = Z.of_nat (rdpos ts) + total). lia.
  - destruct H as (He & Hu & _). subst e.
    split; [|intros t Ht; discriminate].
    repeat split; auto. discriminate.
  - destruct H.
Qed.

Lemma get_ident_spec ts :
  classifier_post ts (get_ident ts) /\
  forall t, fst (fst (get_ident ts)) = Some t ->
    token_of_runes t /\ Type_ t = TokenTypeIdent /\
    Z.of_nat (rdpos (snd (get_ident ts))) = Z.of_nat (rdpos ts) + NumBytes t.
Proof.
  unfold get_ident.
  pose proof (get_ident_loop_spec (S (remaining ts)) 0 ts [] 0 ltac:(lia)) as H.
  destruct (get_ident_loop _ 0 ts [] 0) as [[[ex runes] total] ts'].
  pose proof (runes_loop_classified ts ex runes total ts' TokenTypeIdent H) as G.
  cbv zeta in G. destruct ex; destruct G as [G1 G2]; (split; [exact G1|]);
    intros t Ht; destruct (G2 t Ht) as (A & B & C & D); auto.
Qed.

(* ------------------------------------------------------------------ *)
(** ** get_number *)

Lemma number_state_moved digit ts ts' runes fd fdec isf :
  unread ts' = unread ts ->
  number_state digit ts runes fd fdec isf ->
  number_state digit ts' runes fd fdec isf.
Proof.
  intros E H. destruct H; try (constructor; assumption).
  - apply NS_sign. unfold next_is_digit in *. rewrite E. assumption.
  - apply NS_dot; auto. unfold next_is_digit in *. rewrite E. assumption.
Qed.

Lemma same_place_unread ts ts' : same_place ts ts' -> unread ts' = unread ts.
Proof.
  intros ((_ & _ & Hi & _) & Hr & _).
  rewrite !unread_skipn. congruence.
Qed.

Lemma same_place_remaining ts ts' :
  same_place ts ts' -> remaining ts' = remaining ts.
Proof.
  intros ((_ & _ & Hi & _) & Hr & _).
  rewrite !remaining_eq. congruence.
Qed.

(** Reading again what was read, unread and peeked at. *)
Lemma reread ts ts2 ch n :
  unread ts <> [] -> utf8.DecodeRune (unread ts) = (ch, n) ->
  same_place ts ts2 ->
  get_one_rune ts2 = (Got ch (Z.of_nat n), at_rd ts2 (rdpos ts + n) (Some n)).
Proof.
  intros Hne HD Hs. pose proof (same_place_unread _ _ Hs) as Hu.
  destruct Hs as (_ & Hr & _).
  destruct (get_one_rune_spec ts2) as [ch' n' Hne' HD' Hn' Hle' | Heof].
  - rewrite Hu, HD in HD'. inversion HD'; subst. rewrite Hr. reflexivity.
  - rewrite Hu in Heof. contradiction.
Qed.

Lemma number_state_done digit ts runes fd fdec isf :
  number_state digit ts runes fd fdec isf -> ~ next_is_digit digit ts ->
  runes = [] \/
  number_text digit runes (if isf then TokenTypeFloat else TokenTypeInt).
Proof.
  intros H Hn. destruct H.
  - left. reflexivity.
  - contradiction.
  - right. exists sign, ds, []. rewrite app_nil_r. repeat split; auto.
  - contradiction.
  - right. exists sign, ds, (0x2E :: ds2). repeat split; auto.
    right. exists ds2. repeat split; auto.
Qed.

Lemma number_state_digit digit ts ts' runes fd fdec isf d :
  digit d = true ->
  number_state digit ts runes fd fdec isf ->
  number_state digit ts' (runes ++ [d]) true fdec isf.
Proof.
  intros Hd H. destruct H.
  - apply (NS_int digit ts' [] [d]); auto. discriminate.
  - apply (NS_int digit ts' [0x2D] [d]); auto. discriminate.
  - rewrite <- app_assoc. apply NS_int; auto.
    + destruct ds; discriminate.
    + apply Forall_app. split; auto.
  - rewrite <- !app_assoc. cbn [app]. apply NS_frac; auto. discriminate.
  - rewrite <- !app_assoc. cbn [app].
    change (0x2E :: ds2 ++ [d]) with (0x2E :: (ds2 ++ [d])).
    apply NS_frac; auto.
    + destruct ds2; discriminate.
    + apply Forall_app. split; auto.
Qed.

Lemma get_number_loop_spec fuel :
  forall ts runes total fd fdec isf, (remaining ts < fuel)%nat ->
  let digit := IsDigitRune (cfg ts) in
  let '(ex, runes', total', isf', ts') :=
    get_number_loop fuel ts runes total fd fdec isf in
  runes_loop_post ts runes total ex runes' total' ts' /\
  (digit 0x2E = false -> digit 0x2D = false ->
   number_state digit ts runes fd fdec isf -> ex = Break ->
   runes' = [] \/
   number_text digit runes' (if isf' then TokenTypeFloat else TokenTypeInt)).
Proof.
  induction fuel as [|fuel IH]; intros ts runes total fd fdec isf Hf digit;
    [lia|].
  cbn [get_number_loop].
  destruct (get_one_rune_spec ts) as [ch n Hne HD Hn Hle | Heof].
  - (* the state after unread and lookahead *)
    assert (Hnext : forall ts2 runes2 total2 fd2 fdec2 isf2,
      same_place ts ts2 ->
      runes2 = runes ++ [ch] -> total2 = total + Z.of_nat n ->
      (digit 0x2E = false -> digit 0x2D = false ->
       number_state digit ts runes fd fdec isf ->
       number_state digit (at_rd ts2 (rdpos ts + n) (Some n))
                    runes2 fd2 fdec2 isf2) ->
      let '(ex, runes', total', isf', ts') :=
        get_number_loop fuel (at_rd ts2 (rdpos ts + n) (Some n))
                        runes2 total2 fd2 fdec2 isf2 in
      runes_loop_post ts runes total ex runes' total' ts' /\
      (digit 0x2E = false -> digit 0x2D = false ->
       number_state digit ts runes fd fdec isf -> ex = Break ->
       runes' = [] \/
       number_text digit runes'
         (if isf' then TokenTypeFloat else TokenTypeInt))).
    { intros ts2 runes2 total2 fd2 fdec2 isf2 Hs Hr2 Ht2 Hst. subst runes2 total2.
      pose proof Hs as ((K1 & K2 & K3 & K4) & Hrd2 & Hb2).
      specialize (IH (at_rd ts2 (rdpos ts + n) (Some n)) (runes ++ [ch])
                     (total + Z.of_nat n) fd2 fdec2 isf2).
      rewrite remaining_at_rd, K3 in IH. rewrite remaining_eq in Hf.
      specialize (IH ltac:(lia)). cbv zeta in IH.
      change (cfg (at_rd ts2 (rdpos ts + n) (Some n))) with (cfg ts2) in IH.
      rewrite K1 in IH. fold digit in IH.
      destruct (get_number_loop fuel _ _ _ _ _ _)
        as [[[[ex runes'] total'] isf'] ts'].
      destruct IH as (IHp & IHs). split.
      - unfold runes_loop_post in *. destruct IHp as (Hk & Hb & IHp).
        split. { eapply keeps_trans; [|exact Hk].
                 eapply keeps_trans; [split; eauto | apply keeps_at_rd]. }
        split. { rewrite Hb. exact Hb2. }
        destruct ex as [|[e|]].
        + destruct IHp as (Hrd & Hle' & acc & Hr & _ & _).
          rewrite rdpos_at_rd in Hrd, Hle'.
          split; [lia|]. split; [lia|].
          exists (ch :: acc). rewrite <- app_assoc in Hr. simpl in Hr.
          split; [exact Hr|]. split; [discriminate|]. intros _; lia.
        + destruct IHp as (_ & _ & Hnil). destruct runes; discriminate.
        + exact IHp.
      - intros H1 H2 H3 H4. apply IHs; auto. }
    assert (Hnd : digit ch = false -> ~ next_is_digit digit ts).
    { intros Hd (d & m & _ & HD' & Hd'). rewrite HD in HD'.
      inversion HD'; subst. congruence. }
    assert (Hstop : forall ts2, same_place ts ts2 -> same_line_col ts ts2 ->
      (digit 0x2E = false -> digit 0x2D = false -> digit ch = false) ->
      runes_loop_post ts runes total Break runes total ts2 /\
      (digit 0x2E = false -> digit 0x2D = false ->
       number_state digit ts runes fd fdec isf -> Break = Break ->
       runes = [] \/
       number_text digit runes (if isf then TokenTypeFloat else TokenTypeInt))).
    { intros ts2 (K & Hrd2 & Hb2) Hlc Hch. split.
      - unfold runes_loop_post. split; [exact K|]. split; [exact Hb2|].
        split; [lia|]. split; [lia|].
        exists []. rewrite app_nil_r. repeat split; auto; try apply Hlc.
        congruence.
      - intros H1 H2 H3 _. eapply number_state_done; eauto. }
    assert (Sp0 : same_place ts (at_rd ts (rdpos ts) None))
      by (repeat split).
    assert (Sl0 : same_line_col ts (at_rd ts (rdpos ts) None))
      by (repeat split).
    assert (Hpeek : forall ok ts2,
      check_next_rune_class_n (IsDigitRune (cfg (at_rd ts (rdpos ts) None))) 2
        (at_rd ts (rdpos ts) None) = (ok, ts2) ->
      ts2 = at_rd ts (rdpos ts) None /\
      (ok = true -> next_is_digit digit
                      (at_rd (with_last_col ts2 (last_col ts2 + 1))
                             (rdpos ts + n) (Some n)))).
    { intros ok ts2 Hc.
      pose proof (check_class_state (IsDigitRune (cfg (at_rd ts (rdpos ts) None)))
                    2 (at_rd ts (rdpos ts) None)) as Hst.
      pose proof (check_class_2 (IsDigitRune (cfg (at_rd ts (rdpos ts) None)))
                    (at_rd ts (rdpos ts) None)) as Hd.
      rewrite Hc in Hst, Hd. cbn [fst snd] in Hst, Hd.
      split; [exact Hst|]. intros Hok.
      destruct (Hd Hok) as (c1 & n1 & d & n2 & P1 & D1 & P2 & D2 & Hdd).
      change (unread (at_rd ts (rdpos ts) None)) with (unread ts) in *.
      rewrite HD in D1. inversion D1; subst c1 n1; clear D1.
      exists d, n2. subst ts2.
      change (unread (at_rd _ (rdpos ts + n) (Some n)))
        with (skipn (rdpos ts + n) (input ts)).
      rewrite <- unread_advance. repeat split; auto. }
    destruct ((ch =? 0x2E) && fd && negb fdec) eqn:CA.
    { apply andb_prop in CA. destruct CA as [CA Hfdec].
      apply andb_prop in CA. destruct CA as [Hch Hfd].
      apply Z.eqb_eq in Hch. apply negb_true_iff in Hfdec. subst fd fdec.
      rewrite unread_after_read.
      destruct (check_next_rune_class_n _ 2 (at_rd ts (rdpos ts) None))
        as [ok ts2] eqn:Hc.
      destruct (Hpeek ok ts2 eq_refl) as (Ets2 & Hnx).
      destruct ok.
      - rewrite (reread ts (with_last_col ts2 (last_col ts2 + 1)) ch n Hne HD)
          by (subst ts2; repeat split).
        apply Hnext; auto.
        + subst ts2; repeat split.
        + intros H1 H2 H3. inversion H3; subst.
          rewrite <- app_assoc. apply NS_dot; auto.
      - subst ts2. apply Hstop; auto. intros H1 _. subst ch. exact H1. }
    destruct ((ch =? 0x2D) && negb fd) eqn:CB.
    { apply andb_prop in CB. destruct CB as [Hch Hfd].
      apply Z.eqb_eq in Hch. apply negb_true_iff in Hfd. subst fd.
      rewrite unread_after_read.
      destruct (check_next_rune_class_n _ 2 (at_rd ts (rdpos ts) None))
        as [ok ts2] eqn:Hc.
      destruct (Hpeek ok ts2 eq_refl) as (Ets2 & Hnx).
      destruct ok.
      - rewrite (reread ts (with_last_col ts2 (last_col ts2 + 1)) ch n Hne HD)
          by (subst ts2; repeat split).
        apply Hnext; auto.
        + subst ts2; repeat split.
        + intros H1 H2 H3. inversion H3; subst.
          * apply NS_sign; auto.
          * exfalso. apply (Hnd H2). assumption.
      - subst ts2. apply Hstop; auto. intros _ H2. subst ch. exact H2. }
    change (cfg (at_rd ts (rdpos ts + n) (Some n))) with (cfg ts).
    fold digit.
    destruct (digit ch) eqn:Hd.
    { pose proof (Hnext (count_rune (at_rd ts (rdpos ts) None) ch)
                    (runes ++ [ch]) (total + Z.of_nat n) true fdec isf) as G.
      assert (Ecr : at_rd (count_rune (at_rd ts (rdpos ts) None) ch)
                      (rdpos ts + n) (Some n)
                    = count_rune (at_rd ts (rdpos ts + n) (Some n)) ch).
      { unfold count_rune. cbn [cfg at_rd with_reader].
        destruct (ch =? eol (cfg ts)); reflexivity. }
      rewrite Ecr in G. apply G; auto.
      - split; [eapply keeps_trans; [apply keeps_at_rd | apply keeps_count_rune]|].
        split; [rewrite rdpos_count_rune; reflexivity|].
        rewrite last_byte_len_count_rune. reflexivity.
      - intros H1 H2 H3. eapply number_state_digit; eauto. }
    rewrite unread_after_read. apply Hstop; auto.
  - cbn [is_EOF andb].
    destruct ((0 <? length runes)%nat) eqn:Hl.
    + split.
      * unfold runes_loop_post. split; [repeat split|]. split; [reflexivity|].
        split; [rewrite rdpos_with_last_err, rdpos_at_rd; lia|].
        split; [rewrite rdpos_with_last_err, rdpos_at_rd; lia|].
        exists []. rewrite app_nil_r. repeat split; simpl; auto; congruence.
      * intros H1 H2 H3 _. eapply number_state_done; eauto.
        intros (d & m & Hne & _). contradiction.
    + split.
      * unfold runes_loop_post. split; [repeat split|]. split; [reflexivity|].
        split; [reflexivity|]. split; [exact Heof|].
        destruct runes; [reflexivity|discriminate].
      * intros _ _ _ H. discriminate.
Qed.

Lemma get_number_spec ts :
  classifier_post ts (get_number ts) /\
  forall t, fst (fst (get_number ts)) = Some t ->
    token_of_runes t /\
    Z.of_nat (rdpos (snd (get_number ts))) = Z.of_nat (rdpos ts) + NumBytes t /\
    (IsDigitRune (cfg ts) 0x2E = false -> IsDigitRune (cfg ts) 0x2D = false ->
     number_text (IsDigitRune (cfg ts)) (Text t) (Type_ t)).
Proof.
  unfold get_number.
  pose proof (get_number_loop_spec (S (remaining ts)) ts [] 0 false false false
                ltac:(lia)) as H.
  cbv zeta in H.
  destruct (get_number_loop _ ts [] 0 false false false)
    as [[[[ex runes] total] isf] ts'].
  destruct H as (Hp & Hs).
  pose proof (runes_loop_classified ts ex runes total ts'
                (if isf then TokenTypeFloat else TokenTypeInt) Hp) as G.
  cbv zeta in G. destruct ex as [|e].
  - destruct G as [G1 G2]. split; [exact G1|].
    intros t Ht. destruct (G2 t Ht) as (A & B & C & D).
    split; [exact A|]. split; [exact D|].
    intros H1 H2.
    destruct (Hs H1 H2 (NS_start _ _) eq_refl) as [E|E].
    + destruct A as (A & _). rewrite C in A. contradiction.
    + rewrite C, B. exact E.
  - destruct G as [G1 G2]. split; [exact G1|]. intros t Ht. discriminate.
Qed.

(* ------------------------------------------------------------------ *)
(** ** get_comment *)

Lemma ReadRune_cases ts :
  (exists ch n,
     unread ts <> [] /\ utf8.DecodeRune (unread ts) = (ch, n) /\
     (1 <= n)%nat /\ (rdpos ts + n <= length (input ts))%nat /\
     bufio.ReadRune (reader ts)
       = (Some (ch, n),
          {| bufio.buf := input ts; bufio.rd := (rdpos ts + n)%nat;
             bufio.lastRuneSize := Some n |})) \/
  (unread ts = [] /\
   bufio.ReadRune (reader ts)
     = (None, {| bufio.buf := input ts; bufio.rd := rdpos ts;
                 bufio.lastRuneSize := None |})).
Proof.
  unfold bufio.ReadRune. fold (unread ts).
  destruct (unread ts) as [|c p] eqn:E.
  - right. split; reflexivity.
  - left. destruct (utf8.DecodeRune (c :: p)) as [ch n] eqn:D.
    assert (Hs : (1 <= n <= length (c :: p))%nat)
      by (eapply DecodeRune_size; [discriminate | exact D]).
    exists ch, n. split; [discriminate|]. split; [reflexivity|].
    split; [lia|]. split; [|reflexivity].
    rewrite unread_skipn in E.
    assert (H : length (skipn (rdpos ts) (input ts)) = length (c :: p))
      by (rewrite E; reflexivity).
    rewrite length_skipn in H. lia.
Qed.

Lemma get_n_runes_loop_spec k :
  forall ts chars total,
  let '(chars', total', err, ts') := get_n_runes_loop k ts chars total in
  keeps ts ts' /\ (rdpos ts <= rdpos ts')%nat /\
  match err with
  | None =>
    exists acc, chars' = chars ++ acc /\ length acc = k /\
      ((1 <= k)%nat ->
       unread ts <> [] /\ (rdpos ts < rdpos ts')%nat /\
       nth 0 acc 0 = fst (utf8.DecodeRune (unread ts)))
  | Some e => e = EOF /\ unread ts' = []
  end.
Proof.
  induction k as [|k IH]; intros ts chars total.
  - cbn. split; [apply keeps_refl|]. split; [lia|].
    exists []. rewrite app_nil_r. repeat split; lia.
  - cbn [get_n_runes_loop].
    destruct (ReadRune_cases ts) as [(ch & n & Hne & HD & Hn & Hle & E) | (Heof & E)];
      rewrite E.
    + match goal with
      | |- context [get_n_runes_loop k ?t ?c ?s] =>
        specialize (IH t c s); set (ts1 := t) in *
      end.
      assert (K1 : keeps ts ts1).
      { unfold ts1. cbn [cfg with_last_col with_last_byte_len with_reader].
        destruct (ch =? eol (cfg ts)); repeat split. }
      assert (R1 : rdpos ts1 = (rdpos ts + n)%nat).
      { unfold ts1. cbn [cfg with_last_col with_last_byte_len with_reader].
        destruct (ch =? eol (cfg ts)); reflexivity. }
      destruct (get_n_runes_loop k ts1 _ _) as [[[chars' total'] err] ts'].
      destruct IH as (K & Hle' & IH).
      split; [eapply keeps_trans; eassumption|]. split; [lia|].
      destruct err as [e|]; [exact IH|].
      destruct IH as (acc & Hc & Hl & _).
      exists (ch :: acc). rewrite <- app_assoc in Hc.
      split; [exact Hc|]. split; [cbn; lia|].
      intros _. split; [exact Hne|]. split; [lia|]. rewrite HD. reflexivity.
    + split; [repeat split|]. split; [cbn; lia|]. split; [reflexivity|].
      exact Heof.
Qed.

Lemma get_comment_block_loop_spec fuel :
  forall ts all_runes, (remaining ts < fuel)%nat ->
  block_loop_post ts all_runes (get_comment_block_loop fuel ts all_runes).
Proof.
  induction fuel as [|fuel IH]; intros ts all_runes Hf; [lia|].
  cbn [get_comment_block_loop].
  pose proof (read_until_spec 0x2A ts) as H.
  destruct (read_until 0x2A ts) as [[runes err] ts1].
  destruct H as (K & Hd & Hle & H).
  destruct err as [e|].
  - destruct H as (He & Hu & _). subst e. unfold block_loop_post.
    repeat split; auto; apply K.
  - clear H.
    destruct (get_one_rune_spec ts1) as [ch n Hne HD Hn Hle1 | Heof].
    + destruct (negb (ch =? 0x2F)).
      * specialize (IH (at_rd ts1 (rdpos ts1 + n) (Some n))
                       ((all_runes ++ runes) ++ [ch])).
        rewrite remaining_at_rd in IH. rewrite remaining_eq in Hf.
        destruct K as (K1 & K2 & K3 & K4). rewrite K3 in *.
        specialize (IH ltac:(lia)).
        destruct (get_comment_block_loop fuel _ _) as [[ex all'] ts'].
        unfold block_loop_post in *. destruct IH as (K' & Hle' & IH).
        rewrite rdpos_at_rd in Hle'.
        split. { eapply keeps_trans; [|exact K'].
                 eapply keeps_trans; [split; eauto | apply keeps_at_rd]. }
        split; [lia|].
        destruct ex as [|[e|]]; auto.
        destruct IH as (acc & Ha). exists (runes ++ [ch] ++ acc).
        rewrite Ha, <- !app_assoc. reflexivity.
      * unfold block_loop_post.
        split. { eapply keeps_trans; [exact K | apply keeps_at_rd]. }
        split; [rewrite rdpos_at_rd; lia|].
        exists (runes ++ [ch]). rewrite <- app_assoc. reflexivity.
    + unfold block_loop_post.
      split. { eapply keeps_trans; [exact K | repeat split]. }
      split; [rewrite rdpos_with_last_err, rdpos_at_rd; lia|].
      split; [reflexivity | exact Heof].
Qed.

Lemma comment_token_post ts ts' all_runes :
  keeps ts ts' -> (rdpos ts < rdpos ts')%nat ->
  all_runes <> [] -> nth 0 all_runes 0 = 0x2F ->
  classifier_post ts (comment_token ts' all_runes) /\
  forall t, fst (fst (comment_token ts' all_runes)) = Some t ->
    token_of_runes t /\ Type_ t = TokenTypeComment.
Proof.
  intros (K1 & K2 & K3 & K4) Hlt Hne Hhd. unfold comment_token.
  destruct all_runes as [|c all_runes]; [congruence|]. cbn [length Nat.ltb Nat.leb].
  split.
  - cbn. repeat split; auto.
  - intros t Ht. inversion Ht; subst t; clear Ht.
    unfold token_of_runes, runes_to_string. cbn [concat Text NumChars FirstRune Type_].
    rewrite app_nil_r. repeat split; auto; discriminate.
Qed.

Lemma get_comment_spec ts :
  classifier_post ts (get_comment ts) /\
  forall t, fst (fst (get_comment ts)) = Some t ->
    token_of_runes t /\ Type_ t = TokenTypeComment.
Proof.
  unfold get_comment.
  destruct (get_one_rune_spec ts) as [ch n Hne HD Hn Hle | Heof].
  2:{ split; [|intros t Ht; discriminate].
      cbn. repeat split; auto. discriminate. }
  destruct (ch =? 0x2F) eqn:Hch; rewrite unread_after_read.
  2:{ split; [|intros t Ht; discriminate]. cbn. repeat split; auto. }
  apply Z.eqb_eq in Hch. subst ch.
  set (tsA := at_rd ts (rdpos ts) None).
  assert (KA : keeps ts tsA) by apply keeps_at_rd.
  assert (UA : unread tsA = unread ts) by reflexivity.
  assert (RA : rdpos tsA = rdpos ts) by reflexivity.
  (* what both comment forms share: the two runes read by get_n_runes *)
  assert (Hn2 : forall chars total err ts1,
    get_n_runes 2 tsA = (chars, total, err, ts1) ->
    keeps ts ts1 /\
    match err with
    | None => (rdpos ts < rdpos ts1)%nat /\ chars <> [] /\ nth 0 chars 0 = 0x2F
    | Some e => e = EOF /\ unread ts1 = []
    end).
  { intros chars total err ts1 E. unfold get_n_runes in E.
    pose proof (get_n_runes_loop_spec 2 tsA [] 0) as H. rewrite E in H.
    destruct H as (K & Hle' & H).
    split; [exact (keeps_trans _ _ _ KA K)|].
    destruct err as [e|]; [exact H|].
    destruct H as (acc & Hc & Hl & H). cbn [app] in Hc. subst acc.
    destruct (H ltac:(lia)) as (_ & Hlt & Hhd).
    rewrite UA, HD in Hhd. cbn [fst] in Hhd. rewrite RA in Hlt.
    split; [exact Hlt|]. split; [destruct chars; [discriminate Hl | discriminate] | exact Hhd]. }
  destruct (check_next_rune_char_n 0x2F 2 tsA) as [is_line tsB] eqn:EB.
  pose proof (check_char_state 0x2F 2 tsA) as HB. rewrite EB in HB.
  cbn [snd] in HB. change (at_rd tsA (rdpos tsA) None) with tsA in HB. subst tsB.
  destruct is_line.
  - destruct (get_n_runes 2 tsA) as [[[chars total] err] ts1] eqn:E1.
    destruct (Hn2 _ _ _ _ eq_refl) as (K1 & H1).
    destruct err as [e|].
    { destruct H1 as (He & Hu). subst e.
      split; [|intros t Ht; discriminate].
      cbn. destruct K1 as (? & ? & ? & ?). repeat split; auto. discriminate. }
    destruct H1 as (Hlt & Hcne & Hhd).
    pose proof (read_until_spec (eol (cfg ts1)) ts1) as H.
    destruct (read_until (eol (cfg ts1)) ts1) as [[chars2 err2] ts2].
    destruct H as (K2 & Hd & Hle2 & H).
    assert (Hres : classifier_post ts (comment_token ts2 (chars ++ chars2)) /\
      forall t, fst (fst (comment_token ts2 (chars ++ chars2))) = Some t ->
        token_of_runes t /\ Type_ t = TokenTypeComment).
    { apply comment_token_post.
      - eapply keeps_trans; eassumption.
      - lia.
      - destruct chars; [congruence | discriminate].
      - destruct chars; [congruence | exact Hhd]. }
    destruct err2 as [e|]; [|exact Hres].
    destruct H as (He & _). subst e. cbn [is_EOF negb]. exact Hres.
  - destruct (check_next_rune_char_n 0x2A 2 tsA) as [is_block tsB] eqn:EB2.
    pose proof (check_char_state 0x2A 2 tsA) as HB. rewrite EB2 in HB.
    cbn [snd] in HB. change (at_rd tsA (rdpos tsA) None) with tsA in HB. subst tsB.
    destruct is_block.
    + destruct (get_n_runes 2 tsA) as [[[chars total] err] ts1] eqn:E1.
      destruct (Hn2 _ _ _ _ eq_refl) as (K1 & H1).
      destruct err as [e|].
      { destruct H1 as (He & Hu). subst e.
        split; [|intros t Ht; discriminate].
        cbn. destruct K1 as (? & ? & ? & ?). repeat split; auto. discriminate. }
      destruct H1 as (Hlt & Hcne & Hhd).
      pose proof (get_comment_block_loop_spec (S (remaining ts1)) ts1 chars
                    ltac:(lia)) as H.
      destruct (get_comment_block_loop _ ts1 chars) as [[ex all'] ts2].
      unfold block_loop_post in H. destruct H as (K2 & Hle2 & H).
      destruct ex as [|[e|]].
      * destruct H as (acc & Ha). subst all'.
        apply comment_token_post.
        -- eapply keeps_trans; eassumption.
        -- lia.
        -- destruct chars; [congruence | discriminate].
        -- destruct chars; [congruence | exact Hhd].
      * destruct H as (He & Hu). subst e.
        split; [|intros t Ht; discriminate].
        pose proof (keeps_trans _ _ _ K1 K2) as (? & ? & ? & ?).
        cbn. repeat split; auto. discriminate.
      * destruct H.
    + split; [|intros t Ht; discriminate]. cbn. repeat split; auto.
Qed.

(* ------------------------------------------------------------------ *)
(** ** Scan *)

Lemma classifier_post_cases ts tok err ts' :
  classifier_post ts (tok, err, ts') ->
  (exists t, tok = Some t /\ err = None /\ produced ts ts' /\
             LastToken ts' = Some t) \/
  (tok = None /\ err = None /\ untouched ts ts') \/
  (exists e, tok = None /\ err = Some e /\ failed ts ts' e).
Proof.
  unfold classifier_post, produced, untouched, failed.
  intros (K1 & K2 & K3 & H).
  destruct tok as [t|], err as [e|]; try contradiction.
  - left. destruct H as (A & B & C). exists t. repeat split; eauto.
  - right. right. destruct H as (A & B & C). exists e. repeat split; auto.
  - right. left. destruct H as (A & B & C & D). repeat split; auto; apply C.
Qed.

Lemma untouched_trans a b c : untouched a b -> untouched b c -> untouched a c.
Proof.
  unfold untouched, same_line_col.
  intros (A1 & A2 & A3 & A4 & A5 & (A6 & A7) & A8)
         (B1 & B2 & B3 & B4 & B5 & (B6 & B7) & B8).
  repeat split; congruence.
Qed.

Lemma untouched_produced a b c : untouched a b -> produced b c -> produced a c.
Proof.
  unfold untouched, produced.
  intros (A1 & A2 & A3 & A4 & A5 & _ & A8) (B1 & B2 & B3 & t & B4 & B5 & B6).
  repeat split; try congruence. exists t. repeat split; auto. lia.
Qed.

Lemma untouched_failed a b c e : untouched a b -> failed b c e -> failed a c e.
Proof.
  unfold untouched, failed.
  intros (A1 & A2 & A3 & A4 & A5 & _ & A8) (B1 & B2 & B3 & B4 & B5 & B6).
  repeat split; try congruence.
Qed.

Lemma get_symbol_post ts : classifier_post ts (get_symbol ts).
Proof. unfold get_symbol. apply get_general_spec. Qed.

Lemma get_whitespace_post ts : classifier_post ts (get_whitespace ts).
Proof. unfold get_whitespace. apply get_general_spec. Qed.

Lemma get_quoted_post ts : classifier_post ts (get_quoted ts).
Proof.
  pose proof (get_quoted_spec ts) as H.
  destruct (get_quoted ts) as [[tok err] ts']. apply H.
Qed.

Lemma Scan_rest_spec ts : Scan_rest_post ts (Scan_rest ts).
Proof.
  unfold Scan_rest.
  pose proof (proj1 (get_comment_spec ts)) as H.
  destruct (get_comment ts) as [[tok err] ts1].
  destruct (classifier_post_cases _ _ _ _ H)
    as [(t & -> & -> & P & _) | [(-> & -> & U1) | (e & -> & -> & F)]]; clear H.
  { destruct (SkipComments (cfg ts1)); exact P. }
  2:{ exact F. }
  pose proof (get_quoted_post ts1) as H.
  destruct (get_quoted ts1) as [[tok err] ts2].
  destruct (classifier_post_cases _ _ _ _ H)
    as [(t & -> & -> & P & _) | [(-> & -> & U2) | (e & -> & -> & F)]]; clear H.
  { eapply untouched_produced; eassumption. }
  2:{ eapply untouched_failed; eassumption. }
  pose proof (untouched_trans _ _ _ U1 U2) as U12. clear U1 U2.
  pose proof (proj1 (get_ident_spec ts2)) as H.
  destruct (get_ident ts2) as [[tok err] ts3].
  destruct (classifier_post_cases _ _ _ _ H)
    as [(t & -> & -> & P & _) | [(-> & -> & U3) | (e & -> & -> & F)]]; clear H.
  { eapply untouched_produced; eassumption. }
  2:{ eapply untouched_failed; eassumption. }
  pose proof (untouched_trans _ _ _ U12 U3) as U13. clear U12 U3.
  pose proof (proj1 (get_number_spec ts3)) as H.
  destruct (get_number ts3) as [[tok err] ts4].
  destruct (classifier_post_cases _ _ _ _ H)
    as [(t & -> & -> & P & _) | [(-> & -> & U4) | (e & -> & -> & F)]]; clear H.
  { eapply untouched_produced; eassumption. }
  2:{ eapply untouched_failed; eassumption. }
  pose proof (untouched_trans _ _ _ U13 U4) as U14. clear U13 U4.
  pose proof (get_symbol_post ts4) as H.
  destruct (get_symbol ts4) as [[tok err] ts5].
  destruct (classifier_post_cases _ _ _ _ H)
    as [(t & -> & -> & P & _) | [(-> & -> & U5) | (e & -> & -> & F)]]; clear H.
  { eapply untouched_produced; eassumption. }
  2:{ eapply untouched_failed; eassumption. }
  eapply untouched_trans; eassumption.
Qed.

Lemma get_general_eof tt check exc ts :
  unread ts = [] ->
  get_general tt check exc ts
    = (None, Some EOF, with_last_err (at_rd ts (rdpos ts) None) (Some EOF)).
Proof.
  intros Hu. unfold get_general. cbn [get_general_loop].
  destruct (get_one_rune_spec ts) as [ch n Hne HD Hn Hle | Heof];
    [contradiction | reflexivity].
Qed.

Lemma Scan_loop_log_snd fuel :
  forall ts, snd (Scan_loop_log fuel ts) = Scan_loop fuel ts.
Proof.
  induction fuel as [|fuel IH]; intros ts; [reflexivity|].
  cbn [Scan_loop_log Scan_loop].
  destruct (get_whitespace (update_pos ts)) as [[[t|] [e|]] ts1]; try reflexivity.
  - destruct (SkipWhitespace (cfg ts1)); [|reflexivity].
    rewrite <- IH. destruct (Scan_loop_log fuel ts1); reflexivity.
  - destruct (SkipWhitespace (cfg ts1)); [|reflexivity].
    rewrite <- IH. destruct (Scan_loop_log fuel ts1); reflexivity.
  - destruct (Scan_rest ts1) as [r|ts2]; [reflexivity|].
    rewrite <- IH. destruct (Scan_loop_log fuel ts2); reflexivity.
Qed.

Lemma update_pos_facts ts :
  cfg (update_pos ts) = cfg ts /\ input (update_pos ts) = input ts /\
  rdpos (update_pos ts) = rdpos ts /\ unread (update_pos ts) = unread ts /\
  LastToken (update_pos ts) = LastToken ts /\
  last_byte_len (update_pos ts) = 0 /\
  last_line_addition (update_pos ts) = 0 /\
  last_col (update_pos ts) = last_col ts /\
  pos (update_pos ts)
    = {| Filename := Filename (pos ts);
         Offset := Offset (pos ts) + last_byte_len ts;
         Line := Line (pos ts) + last_line_addition ts;
         Column := last_col ts |}.
Proof. repeat split. Qed.

Lemma Scan_loop_log_spec fuel :
  forall ts, (remaining ts < fuel)%nat ->
  Scan_loop_post ts (fst (Scan_loop_log fuel ts)) (snd (Scan_loop_log fuel ts)).
Proof.
  induction fuel as [|fuel IH]; intros ts Hf; [lia|].
  cbn [Scan_loop_log].
  destruct (update_pos_facts ts) as (U1 & U2 & U3 & U4 & U5 & U6 & U7 & U8 & U9).
  set (ts0 := update_pos ts) in *.
  destruct (list_eq_dec Byte.byte_eq_dec (unread ts) []) as [Hu|Hu].
  { unfold get_whitespace. rewrite get_general_eof by (rewrite U4; exact Hu).
    cbn [fst snd]. unfold Scan_loop_post.
    split; [reflexivity|]. split; [reflexivity|].
    split; [reflexivity|]. split; [cbn; lia|].
    split; [rewrite <- Hu; reflexivity | discriminate]. }
  apply skipn_nonnil_lt in Hu. fold (rdpos ts) (input ts) in Hu.
  assert (Hcont : forall ts1 t, produced ts0 ts1 -> LastToken ts1 = Some t ->
    let '(l, r) := Scan_loop_log fuel ts1 in Scan_loop_post ts (t :: l) r).
  { intros ts1 t (P1 & P2 & P3 & t' & P4 & P5 & P6) Ht.
    rewrite P4 in Ht. inversion Ht; subst t'; clear Ht.
    assert (Hf1 : (remaining ts1 < fuel)%nat).
    { rewrite !remaining_eq in *. rewrite P3, U2. lia. }
    specialize (IH ts1 Hf1).
    destruct (Scan_loop_log fuel ts1) as [l [[found err] ts']].
    cbn [fst snd] in IH. unfold Scan_loop_post in *.
    destruct IH as (I1 & I2 & I3 & I4 & I5).
    split; [congruence|]. split; [congruence|].
    split; [rewrite I3, P2, U9; reflexivity|].
    split. { rewrite I4, P2, U9, P5.
             change (sum_bytes (t :: l)) with (NumBytes t + sum_bytes l).
             cbn [Offset]. lia. }
    destruct found, err; auto.
    destruct I5 as (t2 & A & B & C). exists t2. repeat split; auto; lia. }
  pose proof (get_whitespace_post ts0) as H.
  destruct (get_whitespace ts0) as [[tok err] ts1].
  destruct (classifier_post_cases _ _ _ _ H)
    as [(t & -> & -> & P & Ht) | [(-> & -> & U) | (e & -> & -> & F)]]; clear H.
  - destruct (SkipWhitespace (cfg ts1)).
    + specialize (Hcont ts1 t P Ht).
      destruct (Scan_loop_log fuel ts1) as [l r]. exact Hcont.
    + cbn [fst snd]. destruct P as (P1 & P2 & P3 & t' & P4 & P5 & P6).
      unfold Scan_loop_post. split; [congruence|]. split; [congruence|].
      split; [rewrite P2, U9; reflexivity|].
      split; [rewrite P2, U9; cbn [Offset sum_bytes fold_right]; lia|].
      exists t'. repeat split; auto; lia.
  - pose proof (Scan_rest_spec ts1) as H.
    destruct (Scan_rest ts1) as [[[found err] ts2]|ts2]; cbn [Scan_rest_post] in H.
    + cbn [fst snd]. unfold Scan_loop_post.
      destruct U as (A1 & A2 & A3 & A4 & A5 & _ & A8).
      destruct found, err as [e|].
      * destruct H.
      * destruct H as (P1 & P2 & P3 & t' & P4 & P5 & P6).
        split; [congruence|]. split; [congruence|].
        split; [rewrite P2, A2, U9; reflexivity|].
        split; [rewrite P2, A2, U9; cbn [Offset sum_bytes fold_right]; lia|].
        exists t'. repeat split; auto; lia.
      * destruct H as (P1 & P2 & P3 & P4 & P5 & P6).
        split; [congruence|]. split; [congruence|].
        split; [rewrite P2, A2, U9; reflexivity|].
        split; [rewrite P2, A2, U9; cbn [Offset sum_bytes fold_right]; lia|]. split; auto.
      * destruct H as (P1 & P2 & P3 & _).
        split; [congruence|]. split; [congruence|].
        split; [rewrite P2, A2, U9; reflexivity|].
        split; [rewrite P2, A2, U9; cbn [Offset sum_bytes fold_right]; lia|]. exact I.
    + pose proof (untouched_produced _ _ _ U H) as P.
      destruct P as (P1 & P2 & P3 & t' & P4 & P5 & P6).
      assert (P' : produced ts0 ts2) by (repeat split; eauto).
      specialize (Hcont ts2 t' P' P4).
      destruct (Scan_loop_log fuel ts2) as [l r]. rewrite P4. exact Hcont.
  - cbn [fst snd]. unfold Scan_loop_post.
    destruct F as (P1 & P2 & P3 & P4 & P5 & P6).
    split; [congruence|]. split; [congruence|].
    split; [rewrite P2, U9; reflexivity|].
    split; [rewrite P2, U9; cbn [Offset sum_bytes fold_right]; lia|]. split; auto.
Qed.

Lemma Scan_spec ts found ts' :
  Scan ts = (found, ts') ->
  Scan_loop_post ts (skipped ts) (found, last_err ts', ts').
Proof.
  unfold Scan, skipped. intros H.
  pose proof (Scan_loop_log_spec (S (remaining ts)) ts ltac:(lia)) as G.
  rewrite Scan_loop_log_snd in G.
  destruct (Scan_loop (S (remaining ts)) ts) as [[f err] ts1].
  inversion H; subst; clear H. exact G.
Qed.

(** The fuel of the loops is never exhausted. *)
Lemma Scan_never_out_of_fuel ts : Err (snd (Scan ts)) <> Some ErrFuel.
Proof.
  destruct (Scan ts) as [found ts'] eqn:E.
  pose proof (Scan_spec _ _ _ E) as G. unfold Scan_loop_post in G.
  destruct G as (_ & _ & _ & _ & G). cbn [snd]. unfold Err.
  destruct (last_err ts') as [e|]; [|discriminate].
  destruct found; [contradiction|]. destruct G as (_ & G).
  intros H. inversion H. contradiction.
Qed.

Lemma Scan_eof ts :
  unread ts = [] ->
  Scan ts
    = (false,
       with_last_err
         (with_last_err (at_rd (update_pos ts) (rdpos ts) None) (Some EOF))
         (Some EOF)).
Proof.
  intros Hu. unfold Scan. cbn [Scan_loop]. unfold get_whitespace.
  rewrite get_general_eof by exact Hu. reflexivity.
Qed.

Lemma rescan_eof n : forall ts,
  unread ts = [] ->
  fst (Scan (rescan n ts)) = false /\
  rdpos (rescan n ts) = rdpos ts /\ input (rescan n ts) = input ts /\
  unread (rescan n ts) = [] /\ LastToken (rescan n ts) = LastToken ts.
Proof.
  induction n as [|n IH]; intros ts Hu.
  - cbn [rescan]. rewrite (Scan_eof ts Hu). repeat split; auto.
  - cbn [rescan]. rewrite (Scan_eof ts Hu). cbn [snd].
    match goal with |- context [rescan n ?t] => specialize (IH t Hu) end.
    exact IH.
Qed.

(** C8 — a scan step in which a classifier reports an error returns false
    and leaves the reader at end of input: every later call of [Scan]
    returns false again, consumes nothing and records no token. *)
Theorem C8_error_is_terminal ts found ts' e :
  Scan ts = (found, ts') -> Err ts' = Some e ->
  found = false /\
  forall n,
    fst (Scan (rescan n ts')) = false /\
    rdpos (rescan n ts') = rdpos ts' /\
    Token_ (rescan n ts') = Token_ ts'.
Proof.
  intros H He. pose proof (Scan_spec _ _ _ H) as G.
  unfold Scan_loop_post in G. unfold Err in He. rewrite He in G.
  destruct G as (_ & _ & _ & _ & G).
  destruct found; [contradiction|]. destruct G as (Hu & _).
  split; [reflexivity|]. intros n.
  destruct (rescan_eof n ts' Hu) as (A & B & C & D & E). auto.
Qed.

(** C8, at the input ['a]. *)
Lemma C8_error_is_terminal_witness :
  let ts := NewScannerString unicode.latin1_only "'a" in
  fst (Scan ts) = false /\
  forall n,
    fst (Scan (rescan n (snd (Scan ts)))) = false /\
    rdpos (rescan n (snd (Scan ts))) = rdpos (snd (Scan ts)) /\
    Token_ (rescan n (snd (Scan ts))) = Token_ (snd (Scan ts)).
Proof.
  intros ts.
  apply (C8_error_is_terminal ts (fst (Scan ts)) (snd (Scan ts))
           (ErrUnterminated
              {| Filename := EmptyString; Offset := 0; Line := 1; Column := 1 |}
              0x27)).
  - vm_compute. reflexivity.
  - vm_compute. reflexivity.
Defined.

(* ------------------------------------------------------------------ *)

Lemma get_general_reject tt check exc ts ch n :
  unread ts <> [] -> utf8.DecodeRune (unread ts) = (ch, n) ->
  negb (existsb (fun e => e ch) exc) && check ch 0 [] = false ->
  get_general tt check exc ts = (None, None, at_rd ts (rdpos ts) None).
Proof.
  intros Hne HD Hr. unfold get_general. cbn [get_general_loop].
  destruct (get_one_rune_spec ts) as [ch' n' Hne' HD' Hn Hle | Heof];
    [|contradiction].
  rewrite HD in HD'. inversion HD'; subst ch' n'; clear HD'.
  cbn [length Z.of_nat]. rewrite Hr, unread_after_read. reflexivity.
Qed.

Lemma get_comment_reject ts ch n :
  unread ts <> [] -> utf8.DecodeRune (unread ts) = (ch, n) -> ch <> 0x2F ->
  get_comment ts = (None, None, at_rd ts (rdpos ts) None).
Proof.
  intros Hne HD Hc. unfold get_comment.
  destruct (get_one_rune_spec ts) as [ch' n' Hne' HD' Hn Hle | Heof];
    [|contradiction].
  rewrite HD in HD'. inversion HD'; subst ch' n'; clear HD'.
  apply Z.eqb_neq in Hc. rewrite Hc, unread_after_read. reflexivity.
Qed.

(** The scan step when the next rune is neither whitespace nor a slash:
    the quoted-string classifier decides. *)
Lemma Scan_at_quote ts ch n :
  unread ts <> [] -> utf8.DecodeRune (unread ts) = (ch, n) ->
  IsSpaceRune (cfg ts) ch 0 [] = false -> ch <> 0x2F ->
  let tsQ := at_rd (update_pos ts) (rdpos ts) None in
  (forall e ts', get_quoted tsQ = (None, Some e, ts') ->
     Scan ts = (false, with_last_err ts' (Some e))) /\
  (forall t err ts', get_quoted tsQ = (Some t, err, ts') ->
     Scan ts = (true, with_last_err ts' err)).
Proof.
  intros Hne HD Hs Hc tsQ.
  assert (E : Scan ts =
    let '(found, err, ts1) :=
      match Scan_rest (at_rd (update_pos ts) (rdpos ts) None) with
      | inl r => r
      | inr ts1 => Scan_loop (remaining ts) ts1
      end in (found, with_last_err ts1 err)).
  { unfold Scan. cbn [Scan_loop]. unfold get_whitespace.
    rewrite (get_general_reject _ _ _ (update_pos ts) ch n); auto. }
  rewrite E. clear E. unfold Scan_rest.
  rewrite (get_comment_reject (at_rd (update_pos ts) (rdpos ts) None) ch n); auto.
  change (at_rd (at_rd (update_pos ts) (rdpos ts) None)
            (rdpos (at_rd (update_pos ts) (rdpos ts) None)) None) with tsQ.
  split.
  - intros e ts' H. rewrite H. reflexivity.
  - intros t err ts' H. rewrite H. reflexivity.
Qed.

Lemma quoted_body_ends esc closing rs b rest :
  quoted_body esc closing rs = Some (b, rest) ->
  exists b', b = b' ++ [closing].
Proof.
  remember (length rs) as k eqn:Hk. revert rs Hk b rest.
  induction k as [k IH] using lt_wf_ind. intros rs Hk b rest H.
  destruct rs as [|r rs]; [discriminate|]. cbn [quoted_body] in H.
  destruct (r =? closing) eqn:E.
  { apply Z.eqb_eq in E. injection H as Hb Hr. subst b r. exists []. reflexivity. }
  destruct rs as [|c rs]; [discriminate|].
  destruct (esc r && (c =? closing)) eqn:E2.
  - destruct (quoted_body esc closing rs) as [[b1 rest1]|] eqn:Q; [|discriminate].
    injection H as Hb Hr. subst b.
    assert (Hlt : (length rs < k)%nat) by (rewrite Hk; cbn; lia).
    destruct (IH (length rs) Hlt rs eq_refl _ _ Q) as (b' & ->).
    exists (c :: b'). reflexivity.
  - destruct (quoted_body esc closing (c :: rs)) as [[b1 rest1]|] eqn:Q;
      [|discriminate].
    injection H as Hb Hr. subst b.
    assert (Hlt : (length (c :: rs) < k)%nat) by (rewrite Hk; cbn; lia).
    destruct (IH (length (c :: rs)) Hlt (c :: rs) eq_refl _ _ Q) as (b' & ->).
    exists (r :: b'). reflexivity.
Qed.



(** C4 — a quoted string closed by an unescaped closing rune: the scan
    step returns a String token whose text is the opening rune followed by
    the body as [quoted_body] reads it, that is with each escape rune that
    stands immediately before an embedded closing rune removed, and which
    ends with the closing rune; the reader is left right after it.  The
    example of the tests yields foo, the equals sign and one String token
    with both delimiters kept and the two reverse solidi gone. *)
Theorem C4_quoted_text :
  (forall ts ch n closing b rest,
     unread ts <> [] -> utf8.DecodeRune (unread ts) = (ch, n) ->
     IsSpaceRune (cfg ts) ch 0 [] = false -> ch <> 0x2F ->
     IsQuoteRune (cfg ts) ch = (true, closing) ->
     quoted_body (IsEscapeRune (cfg ts)) closing
       (decode_all (skipn n (unread ts))) = Some (b, rest) ->
     exists t ts',
       Scan ts = (true, ts') /\ Token_ ts' = Some t /\
       Type_ t = TokenTypeString /\ Text t = ch :: b /\
       FirstRune t = ch /\ (exists b', b = b' ++ [closing]) /\
       decode_all (unread ts') = rest) /\
  (forall U,
     let r := scan_states 10 (NewScannerString U quoted_example) in
     texts (fst r) = [runes_of "foo"; runes_of "="; runes_of quoted_example_text] /\
     kinds (fst r) = [Some TokenTypeIdent; Some TokenTypeSymbol;
                      Some TokenTypeString] /\
     option_map Err (snd r) = Some (Some EOF)).
Proof.
  split.
  - intros ts ch n closing b rest Hne HD Hs Hc HQ Hq.
    destruct (Scan_at_quote ts ch n Hne HD Hs Hc) as (_ & Htok).
    set (tsQ := at_rd (update_pos ts) (rdpos ts) None) in *.
    pose proof (get_quoted_spec tsQ) as G.
    destruct (get_quoted tsQ) as [[tok err] ts'] eqn:EQ.
    destruct G as (Gp & Gt & Gq).
    specialize (Gq ch n closing Hne HD HQ).
    change (unread tsQ) with (unread ts) in Gq.
    change (cfg tsQ) with (cfg ts) in Gq. rewrite Hq in Gq.
    destruct Gq as (t & -> & -> & HT & Hrest).
    destruct (Gt t eq_refl) as (Hty & (_ & _ & Hfirst) & _).
    exists t, (with_last_err ts' None).
    split; [apply (Htok t None ts' eq_refl)|].
    cbn in Gp. destruct Gp as (_ & _ & _ & HL & _).
    split; [exact HL|]. split; [exact Hty|]. split; [exact HT|].
    split; [rewrite Hfirst, HT; reflexivity|].
    split; [eapply quoted_body_ends; eassumption | exact Hrest].
  - intros U. vm_compute. repeat split.
Qed.

(** C4, at the quoted string of the example. *)
Lemma C4_quoted_text_witness :
  let ts0 := NewScannerString unicode.latin1_only quoted_example_string in
  exists t ts',
    Scan ts0 = (true, ts') /\ Token_ ts' = Some t /\
    Type_ t = TokenTypeString /\
    Text t = 0x22 :: tl (runes_of quoted_example_text) /\
    FirstRune t = 0x22 /\
    (exists b', tl (runes_of quoted_example_text) = b' ++ [0x22]) /\
    decode_all (unread ts') = [].
Proof.
  intros ts0.
  apply (proj1 C4_quoted_text ts0 0x22 1%nat 0x22).
  - vm_compute. discriminate.
  - vm_compute. reflexivity.
  - vm_compute. reflexivity.
  - discriminate.
  - vm_compute. reflexivity.
  - vm_compute. reflexivity.
Defined.

(* ------------------------------------------------------------------ *)

Lemma split_unique (x : rune) a b :
  ~ In x a -> ~ In x b ->
  forall pre post, a ++ x :: b = pre ++ x :: post -> pre = a /\ post = b.
Proof.
  induction a as [|y a IH]; intros Ha Hb pre post H.
  - destruct pre as [|p pre]; cbn in H.
    + inversion H. auto.
    + inversion H; subst. exfalso. apply Hb. apply in_or_app. right. left.
      reflexivity.
  - destruct pre as [|p pre]; cbn in H.
    + inversion H; subst. exfalso. apply Ha. left. reflexivity.
    + inversion H; subst.
      destruct (IH (fun h => Ha (or_intror h)) Hb pre post H2) as (-> & ->).
      auto.
Qed.

Lemma digits_exclude (digit : rune -> bool) x ds :
  digit x = false -> Forall (fun d => digit d = true) ds -> ~ In x ds.
Proof.
  intros Hx Hds Hin. rewrite Forall_forall in Hds.
  specialize (Hds x Hin). congruence.
Qed.

(** What the shape of a number text says about its period and its minus
    sign. *)
Lemma number_text_parts digit text ty :
  digit 0x2E = false -> digit 0x2D = false ->
  number_text digit text ty ->
  (ty = TokenTypeInt \/ ty = TokenTypeFloat) /\
  (ty = TokenTypeFloat <-> In 0x2E text) /\
  (forall pre post, text = pre ++ 0x2E :: post ->
     ~ In 0x2E pre /\ ~ In 0x2E post /\
     (exists d, In d pre /\ digit d = true) /\
     (exists d post', post = d :: post' /\ digit d = true)) /\
  (forall pre post, text = pre ++ 0x2D :: post ->
     pre = [] /\ ~ In 0x2D post /\
     (exists d post', post = d :: post' /\ digit d = true)).
Proof.
  intros Hdot Hminus (sign & ds & frac & -> & Hsign & Hds & HD & Hfrac).
  assert (Sdot : ~ In 0x2E sign) by (destruct Hsign as [-> | ->]; cbn; intuition discriminate).
  assert (Ddot : ~ In 0x2E ds) by (apply (digits_exclude digit); assumption).
  assert (Dminus : ~ In 0x2D ds) by (apply (digits_exclude digit); assumption).
  assert (Hhd : exists d ds', ds = d :: ds' /\ digit d = true).
  { destruct ds as [|d ds']; [congruence|]. inversion HD; subst. eauto. }
  assert (Hminus_split : forall fr, ~ In 0x2D fr ->
    forall pre post, sign ++ ds ++ fr = pre ++ 0x2D :: post ->
    pre = [] /\ ~ In 0x2D post /\
    (exists d post', post = d :: post' /\ digit d = true)).
  { intros fr Hfr pre post H.
    assert (Hrest : ~ In 0x2D (ds ++ fr))
      by (intros h; apply in_app_or in h; tauto).
    destruct Hsign as [-> | ->].
    - exfalso. apply Hrest. cbn [app] in H. rewrite H.
      apply in_or_app. right. left. reflexivity.
    - change ([0x2D] ++ ds ++ fr) with ([] ++ 0x2D :: (ds ++ fr)) in H.
      destruct (split_unique 0x2D [] (ds ++ fr) (fun h => h) Hrest pre post H)
        as (-> & ->).
      split; [reflexivity|]. split; [exact Hrest|].
      destruct Hhd as (d & ds' & -> & Hd). exists d, (ds' ++ fr). auto. }
  destruct Hfrac as [(-> & ->) | (ds2 & -> & Hds2 & HD2 & ->)].
  - rewrite app_nil_r.
    assert (Hno : ~ In 0x2E (sign ++ ds))
      by (intros h; apply in_app_or in h; tauto).
    split; [auto|]. split; [split; [discriminate | contradiction]|].
    split.
    + intros pre post H. exfalso. apply Hno. rewrite H.
      apply in_or_app. right. left. reflexivity.
    + intros pre post H. apply (Hminus_split []); [intros []|].
      rewrite app_nil_r. exact H.
  - assert (D2dot : ~ In 0x2E ds2) by (apply (digits_exclude digit); assumption).
    assert (D2minus : ~ In 0x2D ds2) by (apply (digits_exclude digit); assumption).
    assert (Hno : ~ In 0x2E (sign ++ ds))
      by (intros h; apply in_app_or in h; tauto).
    split; [auto|]. split.
    { split; [intros _|reflexivity]. rewrite app_assoc.
      apply in_or_app. right. left. reflexivity. }
    split.
    + intros pre post H. rewrite app_assoc in H.
      destruct (split_unique 0x2E (sign ++ ds) ds2 Hno D2dot pre post H)
        as (-> & ->).
      split; [exact Hno|]. split; [exact D2dot|]. split.
      * destruct Hhd as (d & ds' & -> & Hd). exists d. split; [|exact Hd].
        apply in_or_app. right. left. reflexivity.
      * destruct ds2 as [|d ds2']; [congruence|]. inversion HD2; subst. eauto.
    + intros pre post H. apply (Hminus_split (0x2E :: ds2)); [|exact H].
      intros [h|h]; [discriminate | contradiction].
Qed.

(** C5 — the period of a number.  A token of the number classifier, for
    a digit predicate that rejects the period and the minus sign (as the
    default does), is an optional minus sign, digits, and at most one
    period, which comes after a digit and before a digit; it is Float
    exactly when it holds a period, Int otherwise; and the classifier
    consumes the bytes of the token and no more, so a period that is not
    followed by a digit stays in the input.  Hence [foo = 42.] is scanned
    as foo, the equals sign, the Int 42 and the Symbol of the period. *)
Theorem C5_number_period :
  (forall ts t err ts',
     get_number ts = (Some t, err, ts') ->
     IsDigitRune (cfg ts) 0x2E = false ->
     IsDigitRune (cfg ts) 0x2D = false ->
     number_text (IsDigitRune (cfg ts)) (Text t) (Type_ t) /\
     (Type_ t = TokenTypeInt \/ Type_ t = TokenTypeFloat) /\
     (Type_ t = TokenTypeFloat <-> In 0x2E (Text t)) /\
     (forall pre post, Text t = pre ++ 0x2E :: post ->
        ~ In 0x2E pre /\ ~ In 0x2E post /\
        (exists d, In d pre /\ IsDigitRune (cfg ts) d = true) /\
        (exists d post', post = d :: post' /\
                         IsDigitRune (cfg ts) d = true)) /\
     Z.of_nat (rdpos ts') = Z.of_nat (rdpos ts) + NumBytes t) /\
  (forall U,
     let r := scan_states 10 (NewScannerString U "foo = 42.") in
     texts (fst r)
       = [runes_of "foo"; runes_of "="; runes_of "42"; runes_of "."] /\
     kinds (fst r) = [Some TokenTypeIdent; Some TokenTypeSymbol;
                      Some TokenTypeInt; Some TokenTypeSymbol] /\
     option_map Err (snd r) = Some (Some EOF)) /\
  (forall U,
     let r := scan_states 10 (NewScannerString U "foo = 42.5") in
     texts (fst r) = [runes_of "foo"; runes_of "="; runes_of "42.5"] /\
     kinds (fst r) = [Some TokenTypeIdent; Some TokenTypeSymbol;
                      Some TokenTypeFloat]).
Proof.
  split; [|split].
  - intros ts t err ts' H H1 H2.
    destruct (get_number_spec ts) as (_ & G). rewrite H in G.
    destruct (G t eq_refl) as (_ & Hrd & Hshape).
    specialize (Hshape H1 H2).
    destruct (number_text_parts _ _ _ H1 H2 Hshape) as (A & B & C & _).
    cbn [snd] in Hrd.
    split; [exact Hshape|]. split; [exact A|]. split; [exact B|].
    split; [exact C | exact Hrd].
  - intros U. vm_compute. repeat split.
  - intros U. vm_compute. repeat split.
Qed.

(** C5, at the number [42.] *)
Lemma C5_number_period_witness :
  let ts := NewScannerString unicode.latin1_only "42." in
  let t := {| Text := runes_of "42"; NumBytes := 2; NumChars := 2;
              FirstRune := 0x34; Type_ := TokenTypeInt |} in
  number_text (IsDigitRune (cfg ts)) (Text t) (Type_ t) /\
  (Type_ t = TokenTypeInt \/ Type_ t = TokenTypeFloat) /\
  (Type_ t = TokenTypeFloat <-> In 0x2E (Text t)) /\
  (forall pre post, Text t = pre ++ 0x2E :: post ->
     ~ In 0x2E pre /\ ~ In 0x2E post /\
     (exists d, In d pre /\ IsDigitRune (cfg ts) d = true) /\
     (exists d post', post = d :: post' /\
                      IsDigitRune (cfg ts) d = true)) /\
  Z.of_nat (rdpos (snd (get_number ts))) = Z.of_nat (rdpos ts) + NumBytes t.
Proof.
  intros ts t.
  apply (proj1 C5_number_period ts t None (snd (get_number ts))).
  - vm_compute. reflexivity.
  - vm_compute. reflexivity.
  - vm_compute. reflexivity.
Defined.

(** C6 — the minus sign of a number.  A token of the number classifier,
    for a digit predicate that rejects the period and the minus sign, holds
    a minus sign only as its first rune and only with a digit right after
    it; the classifier consumes the bytes of the token and no more, so a
    minus sign that is not followed by a digit stays in the input.  Hence
    [foo = -42] ends with the Int -42 and [foo = - 42] with the Symbol of
    the minus sign and the Int 42. *)
Theorem C6_number_minus :
  (forall ts t err ts',
     get_number ts = (Some t, err, ts') ->
     IsDigitRune (cfg ts) 0x2E = false ->
     IsDigitRune (cfg ts) 0x2D = false ->
     (forall pre post, Text t = pre ++ 0x2D :: post ->
        pre = [] /\ ~ In 0x2D post /\
        (exists d post', post = d :: post' /\
                         IsDigitRune (cfg ts) d = true)) /\
     (exists d, In d (Text t) /\ IsDigitRune (cfg ts) d = true) /\
     Z.of_nat (rdpos ts') = Z.of_nat (rdpos ts) + NumBytes t) /\
  (forall U,
     let r := scan_states 10 (NewScannerString U "foo = -42") in
     texts (fst r) = [runes_of "foo"; runes_of "="; runes_of "-42"] /\
     kinds (fst r) = [Some TokenTypeIdent; Some TokenTypeSymbol;
                      Some TokenTypeInt]) /\
  (forall U,
     let r := scan_states 10 (NewScannerString U "foo = - 42") in
     texts (fst r)
       = [runes_of "foo"; runes_of "="; runes_of "-"; runes_of "42"] /\
     kinds (fst r) = [Some TokenTypeIdent; Some TokenTypeSymbol;
                      Some TokenTypeSymbol; Some TokenTypeInt]).
Proof.
  split; [|split].
  - intros ts t err ts' H H1 H2.
    destruct (get_number_spec ts) as (_ & G). rewrite H in G.
    destruct (G t eq_refl) as (_ & Hrd & Hshape).
    specialize (Hshape H1 H2).
    destruct (number_text_parts _ _ _ H1 H2 Hshape) as (_ & _ & _ & D).
    cbn [snd] in Hrd.
    split; [exact D|]. split; [|exact Hrd].
    destruct Hshape as (sign & ds & frac & E & _ & Hne & HD & _).
    destruct ds as [|d ds]; [congruence|]. inversion HD; subst.
    exists d. split; [|assumption]. rewrite E.
    apply in_or_app. right. left. reflexivity.
  - intros U. vm_compute. repeat split.
  - intros U. vm_compute. repeat split.
Qed.

(** C6, at the number [-42]. *)
Lemma C6_number_minus_witness :
  let ts := NewScannerString unicode.latin1_only "-42" in
  let t := {| Text := runes_of "-42"; NumBytes := 3; NumChars := 3;
              FirstRune := 0x2D; Type_ := TokenTypeInt |} in
  (forall pre post, Text t = pre ++ 0x2D :: post ->
     pre = [] /\ ~ In 0x2D post /\
     (exists d post', post = d :: post' /\
                      IsDigitRune (cfg ts) d = true)) /\
  (exists d, In d (Text t) /\ IsDigitRune (cfg ts) d = true) /\
  Z.of_nat (rdpos (snd (get_number ts))) = Z.of_nat (rdpos ts) + NumBytes t.
Proof.
  intros ts t.
  apply (proj1 C6_number_minus ts t None (snd (get_number ts))).
  - vm_compute. reflexivity.
  - vm_compute. reflexivity.
  - vm_compute. reflexivity.
Defined.

(* ------------------------------------------------------------------ *)





(** With the one-argument symbol predicate of the older classes.go,
    which [get_general] consults without an index, adjacent symbol runes
    run together: [+=] is one token. *)
Example symbol_runs_with_older_predicate :
  forall U,
    let ts := with_IsSymbolRune (NewScannerString U "foo += 5")
                (lift (classes.IsSymbolRune_v1 U)) in
    texts (fst (scan_states 10 ts))
      = [runes_of "foo"; runes_of "+="; runes_of "5"].
Proof. intros U. vm_compute. reflexivity. Qed.

(* ------------------------------------------------------------------ *)

(** C10 — what a token records.  For a token of any of the six
    classifiers, [NumChars] is the number of runes of [Text] and
    [FirstRune] is its first rune; for a String token, [NumBytes] is the
    byte length staged when the classifier started (none inside [Scan])
    plus the bytes the classifier consumed, escape runes included; with
    escapes it exceeds the byte length of [Text]. *)
Theorem C10_token_fields :
  (forall classifier ts t err ts',
     In classifier classifiers ->
     classifier ts = (Some t, err, ts') ->
     Text t <> [] /\ NumChars t = Z.of_nat (length (Text t)) /\
     FirstRune t = nth 0 (Text t) 0) /\
  (forall ts t err ts',
     get_quoted ts = (Some t, err, ts') ->
     NumBytes t
       = last_byte_len ts + (Z.of_nat (rdpos ts') - Z.of_nat (rdpos ts))) /\
  (forall U,
     let ts := NewScannerString U quoted_example_string in
     let t := {| Text := runes_of quoted_example_text; NumBytes := 24;
                 NumChars := 22; FirstRune := 0x22;
                 Type_ := TokenTypeString |} in
     fst (get_quoted ts) = (Some t, None) /\
     rdpos (snd (get_quoted ts)) = 24%nat /\
     string_len (Text t) = 22).
Proof.
  split; [|split].
  - intros classifier ts t err ts' Hin H.
    assert (G : token_of_runes t); [|exact G].
    cbn in Hin.
    destruct Hin as [<- | [<- | [<- | [<- | [<- | [<- | []]]]]]].
    + unfold get_whitespace in H.
      match type of H with get_general ?tt ?c ?e ts = _ =>
        destruct (get_general_spec tt c e ts) as (_ & G) end.
      rewrite H in G. apply (G t eq_refl).
    + destruct (get_comment_spec ts) as (_ & G).
      rewrite H in G. apply (G t eq_refl).
    + pose proof (get_quoted_spec ts) as G. rewrite H in G.
      destruct G as (_ & G & _). apply (G t eq_refl).
    + destruct (get_ident_spec ts) as (_ & G).
      rewrite H in G. apply (G t eq_refl).
    + destruct (get_number_spec ts) as (_ & G).
      rewrite H in G. apply (G t eq_refl).
    + unfold get_symbol in H.
      match type of H with get_general ?tt ?c ?e ts = _ =>
        destruct (get_general_spec tt c e ts) as (_ & G) end.
      rewrite H in G. apply (G t eq_refl).
  - intros ts t err ts' H.
    pose proof (get_quoted_spec ts) as G. rewrite H in G.
    destruct G as (_ & G & _). destruct (G t eq_refl) as (_ & _ & E). lia.
  - intros U. vm_compute. repeat split.
Qed.

(** C10, at the quoted string of the C4 example. *)
Lemma C10_token_fields_witness :
  let ts := NewScannerString unicode.latin1_only quoted_example_string in
  let t := {| Text := runes_of quoted_example_text; NumBytes := 24;
              NumChars := 22; FirstRune := 0x22;
              Type_ := TokenTypeString |} in
  Text t <> [] /\ NumChars t = Z.of_nat (length (Text t)) /\
  FirstRune t = nth 0 (Text t) 0.
Proof.
  intros ts t.
  apply (proj1 C10_token_fields get_quoted ts t None (snd (get_quoted ts))).
  - cbn. auto.
  - vm_compute. reflexivity.
Defined.

(* ------------------------------------------------------------------ *)





(* ------------------------------------------------------------------ *)

(** C1 — the bytes of the tokens against the bytes of the input, at the
    input of TestSkipComments: the scan runs to the end of the 27 bytes
    without error, surfaces foo and the equals sign and discards two spaces
    and the block comment; the comment token has 21 runes, one byte each,
    and a [NumBytes] of 20, so the byte lengths add up to 26.  With the
    line comment of TestTokens in place of the block comment they add up
    to the 24 bytes of the input. *)
Theorem C1_block_comment_bytes :
  forall U,
    (let input_text := "foo = /* h4x0r and stuff */"%string in
     let '(surfaced, discarded, last) :=
       scan_account 10 (NewScannerString U input_text) in
     map Text surfaced = [runes_of "foo"; runes_of "="] /\
     map Text discarded
       = [runes_of " "; runes_of " "; runes_of "/* h4x0r and stuff */"] /\
     map NumChars discarded = [1; 1; 21] /\
     map NumBytes discarded = [1; 1; 20] /\
     option_map Err last = Some (Some EOF) /\
     option_map unread last = Some [] /\
     sum_bytes surfaced + sum_bytes discarded = 26 /\
     Z.of_nat (length (list_byte_of_string input_text)) = 27) /\
    (let input_text := "foo = // h4x0r and stuff"%string in
     let '(surfaced, discarded, last) :=
       scan_account 10 (NewScannerString U input_text) in
     map NumBytes discarded = [1; 1; 18] /\
     sum_bytes surfaced + sum_bytes discarded = 24 /\
     Z.of_nat (length (list_byte_of_string input_text)) = 24).
Proof. intros U. vm_compute. repeat split. Qed.

(* ------------------------------------------------------------------ *)




(* ================================================================== *)
(** * Further properties of the scanner *)

(* ------------------------------------------------------------------ *)
(** ** Lookahead *)

Lemma peek_loop_window k : forall p acc m,
  (4 * k <= m)%nat ->
  peek_multirune_loop k (firstn m p) acc = peek_multirune_loop k p acc.
Proof.
  induction k as [|k IH]; intros p acc m Hm; [reflexivity|].
  cbn [peek_multirune_loop].
  rewrite DecodeRune_firstn by lia.
  destruct (utf8.DecodeRune p) as [ch size] eqn:D.
  destruct (size =? 0)%nat; [reflexivity|].
  destruct (ch =? utf8.RuneError); [reflexivity|].
  pose proof (DecodeRune_le4 _ _ _ D) as H4.
  rewrite skipn_firstn_comm. apply IH. lia.
Qed.

Lemma peek_loop_runes k : forall p acc,
  peek_multirune_loop k p acc = peek_runes k (decode_all p) acc.
Proof.
  induction k as [|k IH]; intros p acc; [reflexivity|].
  cbn [peek_multirune_loop peek_runes].
  destruct p as [|c p'].
  - reflexivity.
  - destruct (utf8.DecodeRune (c :: p')) as [ch size] eqn:D.
    assert (Hs : (1 <= size <= length (c :: p'))%nat)
      by (eapply DecodeRune_size; [discriminate | exact D]).
    rewrite (decode_all_step (c :: p') ch size) by (auto; discriminate).
    destruct (size =? 0)%nat eqn:Z; [apply Nat.eqb_eq in Z; lia|].
    destruct (ch =? utf8.RuneError); [reflexivity|]. apply IH.
Qed.

Lemma peek_runes_closed k : forall rs acc,
  peek_runes k rs acc =
    let next := firstn k rs in
    if forallb peekable next then
      if (length next <? k)%nat then ([], Some EOF) else (acc ++ next, None)
    else (acc ++ peekable_prefix next, Some ErrInvalidUTF8).
Proof.
  induction k as [|k IH]; intros rs acc.
  - cbn. rewrite app_nil_r. reflexivity.
  - destruct rs as [|r rs']; [reflexivity|].
    cbn [peek_runes firstn forallb peekable_prefix length]. unfold peekable at 1 3.
    destruct (r =? utf8.RuneError); cbn [negb andb].
    + rewrite app_nil_r. reflexivity.
    + rewrite IH. cbn zeta.
      change (S (length (firstn k rs')) <? S k)%nat
        with (length (firstn k rs') <? k)%nat.
      destruct (forallb peekable (firstn k rs')).
      * destruct (length (firstn k rs') <? k)%nat; [reflexivity|].
        rewrite <- app_assoc. reflexivity.
      * rewrite <- app_assoc. reflexivity.
Qed.

Lemma peek_multirune_lookahead n ts :
  fst (peek_multirune n ts) = lookahead n (decode_all (unread ts)).
Proof.
  unfold peek_multirune, bufio.Peek. fold (unread ts).
  set (p := firstn (4 * n) (unread ts)).
  assert (L : peek_multirune_loop n p [] = lookahead n (decode_all (unread ts))).
  { unfold p. rewrite peek_loop_window by lia. rewrite peek_loop_runes.
    rewrite peek_runes_closed. reflexivity. }
  destruct (length p <? 4 * n)%nat eqn:Hlen.
  - cbn [is_EOF andb].
    destruct (0 <? length p)%nat eqn:Hp; cbn [negb].
    + destruct (peek_multirune_loop n p []) as [runes e]. cbn. exact L.
    + cbn. apply Nat.ltb_ge in Hp. apply Nat.ltb_lt in Hlen.
      assert (Hu : unread ts = []).
      { subst p. destruct (unread ts) as [|c u]; [reflexivity|].
        destruct n as [|n]; [lia|]. cbn in Hp. lia. }
      rewrite Hu. destruct n as [|n]; [lia|]. reflexivity.
  - destruct (peek_multirune_loop n p []) as [runes e]. cbn. exact L.
Qed.

(** X1 — what [peek_multirune] answers.  For a lookahead that fits the
    reader's buffer (4096 bytes, four per rune), the answer is read off the
    runes the reader would deliver next: the next [n] of them when there
    are that many and none is U+FFFD; the runes before the first U+FFFD
    with the UTF-8 error; no rune and [io.EOF] when fewer than [n] are
    left.  Cutting the peeked bytes at [4 * n] loses nothing. *)
Theorem peek_multirune_reads_ahead n ts :
  (n <= 1024)%nat ->
  fst (peek_multirune n ts) = lookahead n (decode_all (unread ts)).
Proof. intros _. apply peek_multirune_lookahead. Qed.

(** X1, at a concrete input. *)
Lemma peek_multirune_reads_ahead_witness :
  fst (peek_multirune 2 (NewScannerString unicode.latin1_only "/*x"))
    = lookahead 2 (decode_all
        (unread (NewScannerString unicode.latin1_only "/*x"))).
Proof. apply peek_multirune_reads_ahead. lia. Defined.

(** X2 — a lookahead consumes nothing but forbids putting a rune back.
    After [peek_multirune] (and so after the [check_next_rune_*]
    functions) the scanner differs from the one before only in the reader's
    record of the last rune read: the next [get_one_rune] answers as it
    would have without the lookahead, and [unread_rune] fails with
    [bufio.ErrInvalidUnreadRune], moving nothing. *)
Theorem peek_then_read_or_unread n ts :
  let ts' := snd (peek_multirune n ts) in
  ts' = at_rd ts (rdpos ts) None /\
  snd (check_next_rune_char_n 0 n ts) = ts' /\
  get_one_rune ts' = get_one_rune ts /\
  unread_rune ts' = (Some ErrInvalidUnreadRune, ts').
Proof.
  cbn zeta. rewrite peek_state, check_char_state.
  repeat split.
Qed.

Lemma peek_1 ts :
  fst (peek_multirune 1 ts) =
    match decode_all (unread ts) with
    | [] => ([], Some EOF)
    | r :: _ => if r =? utf8.RuneError then ([], Some ErrInvalidUTF8)
                else ([r], None)
    end.
Proof.
  rewrite peek_multirune_lookahead. unfold lookahead.
  destruct (decode_all (unread ts)) as [|r rs]; [reflexivity|].
  cbn. unfold peekable. destruct (r =? utf8.RuneError); reflexivity.
Qed.

(** X3 — the one-rune lookahead.  [peek_rune] indexes [runes[0]] without
    checking the length; it never does so on an empty slice.
    [check_next_rune_char] and [check_next_rune_class] answer as the [_n]
    forms do for [n = 1]: true exactly when the reader's next rune is not
    U+FFFD and is the rune asked for (resp. passes the check). *)
Theorem check_next_rune_one_ahead ts :
  (forall ch,
     check_next_rune_char ch ts
       = (Some (fst (check_next_rune_char_n ch 1 ts)),
          snd (check_next_rune_char_n ch 1 ts)) /\
     (fst (check_next_rune_char ch ts) = Some true <->
      (exists rest, decode_all (unread ts) = ch :: rest /\
                    ch <> utf8.RuneError))) /\
  (forall check,
     check_next_rune_class check ts
       = (Some (fst (check_next_rune_class_n check 1 ts)),
          snd (check_next_rune_class_n check 1 ts)) /\
     (fst (check_next_rune_class check ts) = Some true <->
      (exists r rest, decode_all (unread ts) = r :: rest /\
                      r <> utf8.RuneError /\ check r = true))).
Proof.
  pose proof (peek_1 ts) as P.
  split.
  - intros ch. unfold check_next_rune_char, peek_rune, check_next_rune_char_n.
    destruct (peek_multirune 1 ts) as [[runes err] ts']. cbn [fst] in P.
    destruct (decode_all (unread ts)) as [|r rs].
    { inversion P; subst. cbn. split; [reflexivity|].
      split; [discriminate | intros (rest & H & _); discriminate]. }
    destruct (r =? utf8.RuneError) eqn:E; inversion P; subst; cbn.
    + split; [reflexivity|]. split; [discriminate|].
      intros (rest & H & Hne). inversion H; subst. apply Z.eqb_eq in E.
      contradiction.
    + split; [reflexivity|]. apply Z.eqb_neq in E. split.
      * intros H. inversion H as [H1]. apply Z.eqb_eq in H1. subst r.
        exists rs. auto.
      * intros (rest & H & Hne). inversion H; subst. rewrite Z.eqb_refl.
        reflexivity.
  - intros check.
    unfold check_next_rune_class, peek_rune, check_next_rune_class_n.
    destruct (peek_multirune 1 ts) as [[runes err] ts']. cbn [fst] in P.
    destruct (decode_all (unread ts)) as [|r rs].
    { inversion P; subst. cbn. split; [reflexivity|].
      split; [discriminate | intros (r & rest & H & _); discriminate]. }
    destruct (r =? utf8.RuneError) eqn:E; inversion P; subst; cbn.
    + split; [reflexivity|]. split; [discriminate|].
      intros (r' & rest & H & Hne & _). inversion H; subst.
      apply Z.eqb_eq in E. contradiction.
    + split; [reflexivity|]. apply Z.eqb_neq in E. split.
      * intros H. inversion H as [H1]. exists r, rs. auto.
      * intros (r' & rest & H & Hne & Hc). inversion H; subst. rewrite Hc.
        reflexivity.
Qed.

(* ------------------------------------------------------------------ *)
(** ** Widths of decoding and encoding *)

Lemma lor_shiftl a k b :
  0 <= k -> 0 <= b < 2 ^ k -> Z.lor (Z.shiftl a k) b = a * 2 ^ k + b.
Proof.
  intros Hk Hb.
  assert (L : Z.land (Z.shiftl a k) b = 0).
  { apply Z.bits_inj'. intros n Hn. rewrite Z.land_spec, Z.bits_0.
    destruct (Z.lt_ge_cases n k) as [Hlt|Hge].
    - rewrite Z.shiftl_spec_low by assumption. reflexivity.
    - destruct (Z.eq_dec b 0) as [->|Hb0].
      + rewrite Z.bits_0. apply andb_false_r.
      + assert (Hl : Z.log2 b < n).
        { apply Z.log2_lt_pow2; [lia|].
          apply Z.lt_le_trans with (2 ^ k); [lia|].
          apply Z.pow_le_mono_r; lia. }
        rewrite (Z.bits_above_log2 b n) by lia. apply andb_false_r. }
  pose proof (Z.add_lor_land (Z.shiftl a k) b) as H.
  rewrite L in H. rewrite <- (Z.shiftl_mul_pow2 a k) by assumption. lia.
Qed.

Lemma lor_add x c k :
  0 <= k -> x mod 2 ^ k = 0 -> 0 <= c < 2 ^ k -> Z.lor x c = x + c.
Proof.
  intros Hk Hx Hc.
  assert (E : x = (x / 2 ^ k) * 2 ^ k).
  { pose proof (Z.div_mod x (2 ^ k)) as D.
    assert (0 < 2 ^ k) by (apply Z.pow_pos_nonneg; lia). lia. }
  rewrite E at 1. rewrite <- Z.shiftl_mul_pow2 by assumption.
  rewrite lor_shiftl by assumption. lia.
Qed.

Lemma b2z_range c : 0 <= utf8.b2z c < 256.
Proof.
  unfold utf8.b2z. pose proof (Byte.to_N_bounded c) as H. lia.
Qed.

Lemma land_mask a n m :
  0 <= n -> m = Z.ones n -> Z.land a m = a mod 2 ^ n.
Proof. intros Hn ->. apply Z.land_ones. exact Hn. Qed.

(** Decoding and re-encoding keep the width, except for a malformed byte:
    that one is read as one byte and written back as U+FFFD, three
    bytes. *)
Lemma DecodeRune_WriteRune_len p ch n :
  p <> [] -> utf8.DecodeRune p = (ch, n) ->
  (ch = utf8.RuneError /\ n = 1%nat) \/ utf8.WriteRune_len ch = Z.of_nat n.
Proof.
  intros Hp H. unfold utf8.DecodeRune in H.
  destruct p as [|c0 p1]; [congruence|].
  pose proof (b2z_range c0) as R0.
  cbv zeta in H. unfold utf8.first in H.
  set (p0 := utf8.b2z c0) in *.
  assert (M2 : Z.land p0 utf8.mask2 = p0 mod 2 ^ 5)
    by (apply land_mask; [lia | reflexivity]).
  assert (M3 : Z.land p0 utf8.mask3 = p0 mod 2 ^ 4)
    by (apply land_mask; [lia | reflexivity]).
  assert (M4 : Z.land p0 utf8.mask4 = p0 mod 2 ^ 3)
    by (apply land_mask; [lia | reflexivity]).
  assert (MX : forall b, Z.land b utf8.maskx = b mod 2 ^ 6)
    by (intros b; apply land_mask; [lia | reflexivity]).
  repeat match type of H with
  | context [if ?c then _ else _] => destruct c eqn:?
  | match ?l with [] => _ | _ :: _ => _ end = _ => destruct l
  | _ => progress cbv beta iota zeta in H
  end.
  all: try (left; inversion H; split; reflexivity).
  all: apply pair_equal_spec in H; destruct H as [<- <-]; right;
  repeat match goal with
  | E : (_ <? _) = _ |- _ => first [apply Z.ltb_lt in E | apply Z.ltb_ge in E]
  | E : (_ =? _) = _ |- _ => first [apply Z.eqb_eq in E | apply Z.eqb_neq in E]
  | E : (_ || _) = false |- _ => apply orb_false_elim in E; destruct E
  | E : negb _ = false |- _ => apply negb_false_iff in E
  | E : utf8.cont _ = true |- _ =>
      unfold utf8.cont in E; apply andb_true_iff in E; destruct E
  | E : (_ <=? _) = true |- _ => apply Z.leb_le in E
  | E : (_ <=? _)%nat = _ |- _ => cbv in E; try discriminate E; clear E
  end; unfold utf8.locb, utf8.hicb in *.
  all: try match goal with
  | |- utf8.WriteRune_len ?x = _ => idtac
  end.
  all: rewrite ?M2, ?M3, ?M4, ?MX.
  all: rewrite ?Z.shiftl_mul_pow2 by lia.
  all: change (2 ^ 3) with 8; change (2 ^ 4) with 16; change (2 ^ 5) with 32;
       change (2 ^ 6) with 64; change (2 ^ 12) with 4096;
       change (2 ^ 18) with 262144.
  all: repeat first
    [ rewrite (lor_add (_ * 262144) (_ * 4096) 18) by
        first [lia | (change (2 ^ 18) with 262144;
                      Z.to_euclidean_division_equations; lia)]
    | rewrite (lor_add (_ * 4096) (_ * 64) 12) by
        first [lia | (change (2 ^ 12) with 4096;
                      Z.to_euclidean_division_equations; lia)]
    | rewrite (lor_add (_ + _) (_ * 64) 12) by
        first [lia | (change (2 ^ 12) with 4096;
                      Z.to_euclidean_division_equations; lia)]
    | rewrite (lor_add (_ * 64) (_ mod 64) 6) by
        first [lia | (change (2 ^ 6) with 64;
                      Z.to_euclidean_division_equations; lia)]
    | rewrite (lor_add (_ + _) (_ mod 64) 6) by
        first [lia | (change (2 ^ 6) with 64;
                      Z.to_euclidean_division_equations; lia)] ].
  all: unfold utf8.WriteRune_len.
  all: repeat match goal with
  | |- context [if ?c then _ else _] => destruct c eqn:?
  end; try reflexivity; exfalso.
  all: repeat match goal with
  | E : (_ <? _) = _ |- _ => first [apply Z.ltb_lt in E | apply Z.ltb_ge in E]
  | E : (_ <=? _) = true |- _ => apply Z.leb_le in E
  | E : (_ <=? _) = false |- _ => apply Z.leb_gt in E
  | E : (_ && _) = true |- _ => apply andb_true_iff in E; destruct E
  | E : (_ && _) = false |- _ => clear E
  end.
  all: Z.to_euclidean_division_equations; lia.
Qed.

(* ------------------------------------------------------------------ *)
(** ** Runs of runes *)

Lemma through_found e mid rest :
  ~ In e mid -> through e (mid ++ e :: rest) = (mid ++ [e], rest).
Proof.
  induction mid as [|m mid IH]; intros H; cbn.
  - rewrite Z.eqb_refl. reflexivity.
  - destruct (m =? e) eqn:E.
    + apply Z.eqb_eq in E. exfalso. apply H. left. exact E.
    + rewrite IH; [reflexivity|]. intros Hin. apply H. right. exact Hin.
Qed.

Lemma through_absent e rs : ~ In e rs -> through e rs = (rs, []).
Proof.
  induction rs as [|m rs IH]; intros H; cbn; [reflexivity|].
  destruct (m =? e) eqn:E.
  - apply Z.eqb_eq in E. exfalso. apply H. left. exact E.
  - rewrite IH; [reflexivity|]. intros Hin. apply H. right. exact Hin.
Qed.

Lemma through_app e rs : rs = fst (through e rs) ++ snd (through e rs).
Proof.
  induction rs as [|m rs IH]; cbn; [reflexivity|].
  destruct (m =? e); [reflexivity|].
  destruct (through e rs) as [a b]. cbn in *. congruence.
Qed.

Lemma staged_count_rune ts ch :
  staged (count_rune ts ch) = advance (eol (cfg ts)) (staged ts) ch.
Proof.
  unfold count_rune, advance, staged. destruct (ch =? eol (cfg ts)); reflexivity.
Qed.

Lemma cfg_count_rune ts ch : cfg (count_rune ts ch) = cfg ts.
Proof. unfold count_rune. destruct (ch =? eol (cfg ts)); reflexivity. Qed.

Lemma width_le p ch n :
  p <> [] -> utf8.DecodeRune p = (ch, n) ->
  Z.of_nat n <= utf8.WriteRune_len ch /\
  (ch <> utf8.RuneError -> utf8.WriteRune_len ch = Z.of_nat n).
Proof.
  intros Hp HD. destruct (DecodeRune_WriteRune_len p ch n Hp HD) as [[E1 E2]|E].
  - subst. split; [cbv; discriminate | congruence].
  - split; [lia | auto].
Qed.

Lemma unread_at_same ts l : unread (at_rd ts (rdpos ts) l) = unread ts.
Proof. reflexivity. Qed.

Lemma get_general_loop_run check exc fuel :
  forall ts runes total, (remaining ts < fuel)%nat ->
  run_exit check exc ts runes total
    (get_general_loop fuel check exc ts runes total).
Proof.
  induction fuel as [|fuel IH]; intros ts runes total Hf; [lia|].
  cbn [get_general_loop].
  destruct (get_one_rune_spec ts) as [ch n Hne HD Hn Hle | Heof].
  - pose proof (decode_all_at_rd ts ch n (Some n) Hne HD) as HDa.
    destruct (width_le _ _ _ Hne HD) as [W1 W2].
    destruct (negb (existsb (fun e => e ch) exc)
              && check ch (Z.of_nat (length runes)) runes) eqn:Hacc.
    + specialize (IH (count_rune (at_rd ts (rdpos ts + n) (Some n)) ch)
                     (runes ++ [ch]) (total + Z.of_nat n)).
      rewrite remaining_count_rune, remaining_at_rd in IH.
      rewrite remaining_eq in Hf.
      specialize (IH ltac:(lia)).
      destruct (get_general_loop fuel check exc _ _ _) as [[[ex runes'] total'] ts'].
      unfold run_exit in *. cbv zeta in *.
      rewrite unread_count_rune, cfg_count_rune, staged_count_rune in IH.
      change (cfg (at_rd ts (rdpos ts + n) (Some n))) with (cfg ts) in IH.
      change (staged (at_rd ts (rdpos ts + n) (Some n))) with (staged ts) in IH.
      rewrite HDa. cbn [longest_run]. rewrite Hacc.
      destruct IH as (_ & IH).
      destruct IH as (E & Hr & Hd & Hs & Ht1 & Ht2).
      { right. destruct runes; discriminate. }
      split; [discriminate|]. intros _.
      split; [exact E|]. rewrite <- app_assoc in Hr.
      split; [exact Hr|]. split; [exact Hd|]. split; [exact Hs|].
      cbn [string_len fold_right]. fold (string_len (longest_run check exc
        (runes ++ [ch]) (decode_all (unread (at_rd ts (rdpos ts + n) (Some n)))))).
      split; [lia|]. intros Hno.
      rewrite W2 by (intros Ee; apply Hno; left; rewrite Ee; reflexivity).
      rewrite <- Ht2; [lia|]. intros Hin. apply Hno. right. exact Hin.
    + rewrite unread_after_read. unfold run_exit. cbv zeta.
      rewrite HDa. cbn [longest_run]. rewrite Hacc.
      split; [discriminate|]. intros _.
      split; [reflexivity|]. split; [rewrite app_nil_r; reflexivity|].
      split; [rewrite unread_at_same; exact HDa|].
      split; [reflexivity|]. cbn. split; [lia|]. intros _. lia.
  - unfold run_exit. cbv zeta. rewrite Heof, decode_all_nil.
    cbn [is_EOF andb longest_run].
    destruct ((0 <? length runes)%nat) eqn:Hl.
    + split. { intros _ E. subst runes. discriminate. }
      intros _. split; [reflexivity|]. split; [rewrite app_nil_r; reflexivity|].
      split. { change (unread (with_last_err (at_rd ts (rdpos ts) None) (Some EOF)))
                 with (unread ts). rewrite Heof. reflexivity. }
      split; [reflexivity|]. cbn. split; [lia|]. intros _. lia.
    + split; [reflexivity|]. intros [H|H]; [congruence|].
      destruct runes; [congruence | discriminate].
Qed.

Lemma get_ident_loop_run fuel :
  forall ts runes total, (remaining ts < fuel)%nat ->
  run_exit (fun ch i _ => IsIdentRune (cfg ts) ch i) [] ts runes total
    (get_ident_loop fuel (Z.of_nat (length runes)) ts runes total).
Proof.
  induction fuel as [|fuel IH]; intros ts runes total Hf; [lia|].
  cbn [get_ident_loop].
  destruct (get_one_rune_spec ts) as [ch n Hne HD Hn Hle | Heof].
  - pose proof (decode_all_at_rd ts ch n (Some n) Hne HD) as HDa.
    destruct (width_le _ _ _ Hne HD) as [W1 W2].
    change (cfg (at_rd ts (rdpos ts + n) (Some n))) with (cfg ts).
    destruct (IsIdentRune (cfg ts) ch (Z.of_nat (length runes))) eqn:Hacc.
    + specialize (IH (count_rune (at_rd ts (rdpos ts + n) (Some n)) ch)
                     (runes ++ [ch]) (total + Z.of_nat n)).
      rewrite remaining_count_rune, remaining_at_rd in IH.
      rewrite remaining_eq in Hf.
      specialize (IH ltac:(lia)).
      rewrite length_app, Nat2Z.inj_add in IH. cbn [length] in IH.
      change (Z.of_nat 1) with 1 in IH.
      destruct (get_ident_loop fuel _ _ _ _) as [[[ex runes'] total'] ts'].
      unfold run_exit in *. cbv zeta in *.
      rewrite unread_count_rune, cfg_count_rune, staged_count_rune in IH.
      change (cfg (at_rd ts (rdpos ts + n) (Some n))) with (cfg ts) in IH.
      change (staged (at_rd ts (rdpos ts + n) (Some n))) with (staged ts) in IH.
      rewrite HDa. cbn [longest_run existsb negb andb]. rewrite Hacc.
      destruct IH as (_ & IH).
      destruct IH as (E & Hr & Hd & Hs & Ht1 & Ht2).
      { right. destruct runes; discriminate. }
      split; [discriminate|]. intros _.
      split; [exact E|]. rewrite <- app_assoc in Hr.
      split; [exact Hr|]. split; [exact Hd|]. split; [exact Hs|].
      cbn [string_len fold_right].
      match type of Ht1 with _ <= string_len ?l => fold (string_len l) end.
      split; [lia|]. intros Hno.
      rewrite W2 by (intros Ee; apply Hno; left; rewrite Ee; reflexivity).
      rewrite <- Ht2; [lia|]. intros Hin. apply Hno. right. exact Hin.
    + rewrite unread_after_read. unfold run_exit. cbv zeta.
      rewrite HDa. cbn [longest_run existsb negb andb]. rewrite Hacc.
      split; [discriminate|]. intros _.
      split; [reflexivity|]. split; [rewrite app_nil_r; reflexivity|].
      split; [rewrite unread_at_same; exact HDa|].
      split; [reflexivity|]. cbn. split; [lia|]. intros _. lia.
  - unfold run_exit. cbv zeta. rewrite Heof, decode_all_nil.
    cbn [is_EOF andb longest_run].
    destruct ((0 <? length runes)%nat) eqn:Hl.
    + split. { intros _ E. subst runes. discriminate. }
      intros _. split; [reflexivity|]. split; [rewrite app_nil_r; reflexivity|].
      split. { change (unread (with_last_err (at_rd ts (rdpos ts) None) (Some EOF)))
                 with (unread ts). rewrite Heof. reflexivity. }
      split; [reflexivity|]. cbn. split; [lia|]. intros _. lia.
    + split; [reflexivity|]. intros [H|H]; [congruence|].
      destruct runes; [congruence | discriminate].
Qed.

(** From the exit of a run loop to the classifier's answer. *)
Lemma run_classified check exc ts ex runes total ts1 tt :
  run_exit check exc ts [] 0 (ex, runes, total, ts1) ->
  let D := decode_all (unread ts) in
  let L := longest_run check exc [] D in
  let r : classified :=
    match ex with
    | Return err => (None, err, ts1)
    | Break =>
      if (length runes =? 0)%nat then (None, None, ts1)
      else
        let token := {| Text := runes_to_string [runes]; NumBytes := total;
                        NumChars := Z.of_nat (length runes);
                        FirstRune := nth 0 runes 0; Type_ := tt |} in
        (Some token, None,
         with_LastToken (with_last_byte_len ts1 total) (Some token))
    end in
  (D = [] -> fst r = (None, Some EOF)) /\
  (D <> [] -> L = [] -> fst r = (None, None)) /\
  (L <> [] ->
   exists t, fst r = (Some t, None) /\ Text t = L /\ Type_ t = tt /\
     decode_all (unread (snd r)) = skipn (length L) D /\
     staged (snd r) = fold_left (advance (eol (cfg ts))) L (staged ts) /\
     NumBytes t <= string_len L /\
     (~ In utf8.RuneError L -> NumBytes t = string_len L)).
Proof.
  unfold run_exit. cbv zeta. intros (H1 & H2).
  set (D := decode_all (unread ts)) in *.
  set (L := longest_run check exc [] D) in *.
  destruct D as [|d D'] eqn:ED.
  - assert (EL : L = []) by reflexivity.
    rewrite (H1 eq_refl eq_refl). cbn.
    split; [reflexivity|]. split; [congruence|]. intros HL. congruence.
  - destruct H2 as (E & Hr & Hd & Hs & Ht1 & Ht2); [left; discriminate|].
    subst ex. cbn [app] in Hr. subst runes.
    split; [discriminate|].
    destruct L as [|c L'] eqn:EL.
    + cbn. split; [reflexivity|]. intros HL. congruence.
    + cbn [length Nat.eqb]. split; [intros _ HL; discriminate|]. intros _.
      eexists. split; [reflexivity|]. cbn [Text Type_ NumBytes snd].
      unfold runes_to_string. cbn [concat]. rewrite app_nil_r.
      split; [reflexivity|]. split; [reflexivity|].
      split; [exact Hd|]. split; [exact Hs|].
      rewrite Z.sub_0_r in Ht1, Ht2. split; assumption.
Qed.

Lemma get_general_run tt check exc ts :
  let D := decode_all (unread ts) in
  let L := longest_run check exc [] D in
  let r := get_general tt check exc ts in
  (D = [] -> fst r = (None, Some EOF)) /\
  (D <> [] -> L = [] -> fst r = (None, None)) /\
  (L <> [] ->
   exists t, fst r = (Some t, None) /\ Text t = L /\ Type_ t = tt /\
     decode_all (unread (snd r)) = skipn (length L) D /\
     staged (snd r) = fold_left (advance (eol (cfg ts))) L (staged ts) /\
     NumBytes t <= string_len L /\
     (~ In utf8.RuneError L -> NumBytes t = string_len L)).
Proof.
  cbv zeta. unfold get_general.
  pose proof (get_general_loop_run check exc (S (remaining ts)) ts [] 0
                ltac:(lia)) as H.
  destruct (get_general_loop _ check exc ts [] 0) as [[[ex runes] total] ts1].
  pose proof (run_classified check exc ts ex runes total ts1 tt H) as G.
  cbv zeta in G. destruct ex; exact G.
Qed.

Lemma get_ident_run ts :
  let D := decode_all (unread ts) in
  let L := longest_run (fun ch i _ => IsIdentRune (cfg ts) ch i) [] [] D in
  let r := get_ident ts in
  (D = [] -> fst r = (None, Some EOF)) /\
  (D <> [] -> L = [] -> fst r = (None, None)) /\
  (L <> [] ->
   exists t, fst r = (Some t, None) /\ Text t = L /\ Type_ t = TokenTypeIdent /\
     decode_all (unread (snd r)) = skipn (length L) D /\
     staged (snd r) = fold_left (advance (eol (cfg ts))) L (staged ts) /\
     NumBytes t <= string_len L /\
     (~ In utf8.RuneError L -> NumBytes t = string_len L)).
Proof.
  cbv zeta. unfold get_ident.
  pose proof (get_ident_loop_run (S (remaining ts)) ts [] 0 ltac:(lia)) as H.
  cbn [length] in H. change (Z.of_nat 0) with 0 in H.
  destruct (get_ident_loop _ 0 ts [] 0) as [[[ex runes] total] ts1].
  pose proof (run_classified _ [] ts ex runes total ts1 TokenTypeIdent H) as G.
  cbv zeta in G. destruct ex; exact G.
Qed.

Lemma longest_run_blind check exc :
  index_blind check ->
  forall rs pre, longest_run check exc pre rs = take_while (passes check exc) rs.
Proof.
  intros Hb. induction rs as [|c rs IH]; intros pre; cbn; [reflexivity|].
  unfold passes at 1. rewrite (Hb c (Z.of_nat (length pre)) pre).
  destruct (negb _ && _); [rewrite IH; reflexivity | reflexivity].
Qed.

(** X4 — [get_general] takes the longest run.  For a predicate that looks
    at the candidate rune only, the classifier answers by the runes the
    reader holds: [io.EOF] when there is none; "not applicable", nothing
    consumed, when the first rune is refused; otherwise a token of the type
    asked for whose text is the longest prefix of acceptable runes, the
    reader being left before the first rune that is not. *)
Theorem get_general_takes_longest_run tt check exc ts :
  index_blind check ->
  let D := decode_all (unread ts) in
  let L := take_while (passes check exc) D in
  let '(tok, err, ts') := get_general tt check exc ts in
  match D, L with
  | [], _ => tok = None /\ err = Some EOF
  | _ :: _, [] => tok = None /\ err = None /\ rdpos ts' = rdpos ts
  | _ :: _, _ :: _ =>
    exists t, tok = Some t /\ err = None /\ Text t = L /\ Type_ t = tt /\
              decode_all (unread ts') = skipn (length L) D
  end.
Proof.
  intros Hb. cbv zeta.
  pose proof (get_general_run tt check exc ts) as H. cbv zeta in H.
  pose proof (proj1 (get_general_spec tt check exc ts)) as P.
  rewrite (longest_run_blind check exc Hb) in H.
  destruct (get_general tt check exc ts) as [[tok err] ts'].
  cbn [fst snd] in H. destruct H as (H1 & H2 & H3).
  destruct (decode_all (unread ts)) as [|d D'] eqn:ED.
  - specialize (H1 eq_refl). inversion H1. auto.
  - destruct (take_while (passes check exc) (d :: D')) as [|c L'] eqn:EL.
    + specialize (H2 ltac:(discriminate) eq_refl). inversion H2; subst.
      repeat split. unfold classifier_post in P. tauto.
    + destruct (H3 ltac:(discriminate)) as (t & E & Ht & Hty & Hd & _).
      inversion E; subst. exists t. repeat split; auto.
Qed.

(** X4, at a concrete input. *)
Lemma get_general_takes_longest_run_witness :
  let ts := NewScannerString unicode.latin1_only "  x" in
  let D := decode_all (unread ts) in
  let L := take_while (passes (IsSpaceRune (cfg ts)) []) D in
  let '(tok, err, ts') :=
    get_general TokenTypeWhitespace (IsSpaceRune (cfg ts)) [] ts in
  match D, L with
  | [], _ => tok = None /\ err = Some EOF
  | _ :: _, [] => tok = None /\ err = None /\ rdpos ts' = rdpos ts
  | _ :: _, _ :: _ =>
    exists t, tok = Some t /\ err = None /\ Text t = L /\
              Type_ t = TokenTypeWhitespace /\
              decode_all (unread ts') = skipn (length L) D
  end.
Proof.
  intros ts.
  apply (get_general_takes_longest_run TokenTypeWhitespace
           (IsSpaceRune (cfg ts)) [] ts).
  intros ch i runes. reflexivity.
Defined.

(** X5 — [get_ident] takes the longest run of identifier runes, each
    judged by [IsIdentRune] at its index in the identifier: [io.EOF] on
    empty input, "not applicable" when the first rune is refused at index
    0, otherwise an Ident token with that run as text and the reader left
    before the first refused rune. *)
Theorem get_ident_takes_longest_run ts :
  let D := decode_all (unread ts) in
  let L := longest_run (fun ch i _ => IsIdentRune (cfg ts) ch i) [] [] D in
  let '(tok, err, ts') := get_ident ts in
  match D, L with
  | [], _ => tok = None /\ err = Some EOF
  | _ :: _, [] => tok = None /\ err = None /\ rdpos ts' = rdpos ts
  | _ :: _, _ :: _ =>
    exists t, tok = Some t /\ err = None /\ Text t = L /\
              Type_ t = TokenTypeIdent /\
              decode_all (unread ts') = skipn (length L) D
  end.
Proof.
  cbv zeta.
  pose proof (get_ident_run ts) as H. cbv zeta in H.
  pose proof (proj1 (get_ident_spec ts)) as P.
  destruct (get_ident ts) as [[tok err] ts'].
  cbn [fst snd] in H. destruct H as (H1 & H2 & H3).
  destruct (decode_all (unread ts)) as [|d D'] eqn:ED.
  - specialize (H1 eq_refl). inversion H1. auto.
  - destruct (longest_run _ [] [] (d :: D')) as [|c L'] eqn:EL.
    + specialize (H2 ltac:(discriminate) eq_refl). inversion H2; subst.
      repeat split. unfold classifier_post in P. tauto.
    + destruct (H3 ltac:(discriminate)) as (t & E & Ht & Hty & Hd & _).
      inversion E; subst. exists t. repeat split; auto.
Qed.

(** X6 — line and column of run tokens.  When [get_general] (with a
    predicate that looks at the rune only) or [get_ident] produces a token,
    the line count and column it stages are those staged before, advanced
    over the runes of the token's text: a new line and column 1 after each
    end-of-line rune, one column further after any other rune.  The next
    [update_pos] reports exactly that. *)
Theorem run_tokens_stage_line_and_column :
  (forall tt check exc ts t err ts',
     index_blind check ->
     get_general tt check exc ts = (Some t, err, ts') ->
     let lc := fold_left (advance (eol (cfg ts))) (Text t) (staged ts) in
     staged ts' = lc /\
     Line (pos (update_pos ts')) = Line (pos ts) + fst lc /\
     Column (pos (update_pos ts')) = snd lc) /\
  (forall ts t err ts',
     get_ident ts = (Some t, err, ts') ->
     let lc := fold_left (advance (eol (cfg ts))) (Text t) (staged ts) in
     staged ts' = lc /\
     Line (pos (update_pos ts')) = Line (pos ts) + fst lc /\
     Column (pos (update_pos ts')) = snd lc).
Proof.
  assert (U : forall ts ts' lc, pos ts' = pos ts -> staged ts' = lc ->
            staged ts' = lc /\
            Line (pos (update_pos ts')) = Line (pos ts) + fst lc /\
            Column (pos (update_pos ts')) = snd lc).
  { intros ts ts' lc Hp Hs. split; [exact Hs|]. subst lc.
    unfold update_pos, staged. cbn. rewrite Hp. split; reflexivity. }
  split.
  - intros tt check exc ts t err ts' _ E. cbv zeta.
    pose proof (get_general_run tt check exc ts) as H. cbv zeta in H.
    pose proof (proj1 (get_general_spec tt check exc ts)) as P.
    rewrite E in H, P. cbn [fst snd] in H. destruct H as (H1 & H2 & H3).
    destruct (longest_run check exc [] (decode_all (unread ts))) as [|c L'] eqn:EL.
    + destruct (decode_all (unread ts)) eqn:ED.
      * specialize (H1 eq_refl). discriminate.
      * specialize (H2 ltac:(discriminate) eq_refl). discriminate.
    + destruct (H3 ltac:(discriminate)) as (t' & E' & Ht & _ & _ & Hs & _).
      inversion E'; subst t'. apply U.
      * unfold classifier_post in P. tauto.
      * rewrite Ht. exact Hs.
  - intros ts t err ts' E. cbv zeta.
    pose proof (get_ident_run ts) as H. cbv zeta in H.
    pose proof (proj1 (get_ident_spec ts)) as P.
    rewrite E in H, P. cbn [fst snd] in H. destruct H as (H1 & H2 & H3).
    destruct (longest_run _ [] [] (decode_all (unread ts))) as [|c L'] eqn:EL.
    + destruct (decode_all (unread ts)) eqn:ED.
      * specialize (H1 eq_refl). discriminate.
      * specialize (H2 ltac:(discriminate) eq_refl). discriminate.
    + destruct (H3 ltac:(discriminate)) as (t' & E' & Ht & _ & _ & Hs & _).
      inversion E'; subst t'. apply U.
      * unfold classifier_post in P. tauto.
      * rewrite Ht. exact Hs.
Qed.

(** X6, at a concrete input. *)
Lemma run_tokens_stage_line_and_column_witness :
  let ts := NewScannerString unicode.latin1_only "ab c" in
  let t := {| Text := runes_of "ab"; NumBytes := 2; NumChars := 2;
              FirstRune := 0x61; Type_ := TokenTypeIdent |} in
  let ts' := snd (get_ident ts) in
  let lc := fold_left (advance (eol (cfg ts))) (Text t) (staged ts) in
  staged ts' = lc /\
  Line (pos (update_pos ts')) = Line (pos ts) + fst lc /\
  Column (pos (update_pos ts')) = snd lc.
Proof.
  intros ts t ts'.
  apply (proj2 run_tokens_stage_line_and_column ts t None ts').
  vm_compute. reflexivity.
Defined.

(** X7 — bytes read against bytes written.  For a token of [get_general]
    (predicate looking at the rune only) or [get_ident], [NumBytes], the
    bytes read, never exceeds the byte length of [Text], and equals it when
    no rune of the text is U+FFFD.  It can be smaller: a malformed byte is
    read as one byte and written to the text as U+FFFD, three bytes. *)
Theorem run_tokens_bytes_read_and_written :
  (forall tt check exc ts t err ts',
     index_blind check ->
     get_general tt check exc ts = (Some t, err, ts') ->
     NumBytes t <= string_len (Text t) /\
     (~ In utf8.RuneError (Text t) -> NumBytes t = string_len (Text t))) /\
  (forall ts t err ts',
     get_ident ts = (Some t, err, ts') ->
     NumBytes t <= string_len (Text t) /\
     (~ In utf8.RuneError (Text t) -> NumBytes t = string_len (Text t))) /\
  (exists t ts',
     get_general TokenTypeSymbol (fun _ _ _ => true) []
       (NewScannerBytes unicode.latin1_only [xff; x41])
       = (Some t, None, ts') /\
     NumBytes t = 2 /\ string_len (Text t) = 4).
Proof.
  split; [|split].
  - intros tt check exc ts t err ts' _ E.
    pose proof (get_general_run tt check exc ts) as H. cbv zeta in H.
    rewrite E in H. cbn [fst snd] in H. destruct H as (H1 & H2 & H3).
    destruct (longest_run check exc [] (decode_all (unread ts))) as [|c L'] eqn:EL.
    + destruct (decode_all (unread ts)) eqn:ED.
      * specialize (H1 eq_refl). discriminate.
      * specialize (H2 ltac:(discriminate) eq_refl). discriminate.
    + destruct (H3 ltac:(discriminate)) as (t' & E' & Ht & _ & _ & _ & Hb).
      inversion E'; subst t'. rewrite Ht. exact Hb.
  - intros ts t err ts' E.
    pose proof (get_ident_run ts) as H. cbv zeta in H.
    rewrite E in H. cbn [fst snd] in H. destruct H as (H1 & H2 & H3).
    destruct (longest_run _ [] [] (decode_all (unread ts))) as [|c L'] eqn:EL.
    + destruct (decode_all (unread ts)) eqn:ED.
      * specialize (H1 eq_refl). discriminate.
      * specialize (H2 ltac:(discriminate) eq_refl). discriminate.
    + destruct (H3 ltac:(discriminate)) as (t' & E' & Ht & _ & _ & _ & Hb).
      inversion E'; subst t'. rewrite Ht. exact Hb.
  - exists {| Text := [utf8.RuneError; 0x41]; NumBytes := 2; NumChars := 2;
              FirstRune := utf8.RuneError; Type_ := TokenTypeSymbol |}.
    exists (snd (get_general TokenTypeSymbol (fun _ _ _ => true) []
                   (NewScannerBytes unicode.latin1_only [xff; x41]))).
    split; [vm_compute; reflexivity|]. split; reflexivity.
Qed.

(** X7, at a concrete input. *)
Lemma run_tokens_bytes_read_and_written_witness :
  let ts := NewScannerString unicode.latin1_only "ab c" in
  let t := {| Text := runes_of "ab"; NumBytes := 2; NumChars := 2;
              FirstRune := 0x61; Type_ := TokenTypeIdent |} in
  NumBytes t <= string_len (Text t) /\
  (~ In utf8.RuneError (Text t) -> NumBytes t = string_len (Text t)).
Proof.
  intros ts t.
  apply (proj1 (proj2 run_tokens_bytes_read_and_written) ts t None
           (snd (get_ident ts))).
  vm_compute. reflexivity.
Defined.

(** [read_until] by the runes the reader holds. *)
Lemma read_until_through end_ch ts :
  let D := decode_all (unread ts) in
  let r := read_until end_ch ts in
  match snd (fst r) with
  | None =>
    fst (fst r) = fst (through end_ch D) /\
    decode_all (unread (snd r)) = snd (through end_ch D) /\
    (In end_ch D \/ end_ch = eol (cfg ts))
  | Some e =>
    e = EOF /\ fst (fst r) = [] /\ unread (snd r) = [] /\
    ~ In end_ch D /\ end_ch <> eol (cfg ts)
  end.
Proof.
  cbv zeta. pose proof (read_until_spec end_ch ts) as H.
  destruct (read_until end_ch ts) as [[runes err] ts']. cbn [fst snd].
  destruct H as (_ & _ & _ & H).
  destruct err as [e|].
  - destruct H as (He & Hu & Hr & Hne & Hni). auto.
  - destruct H as (Hd & _ & Hc).
    destruct Hc as [(mid & Hr & Hni) | (He & Hu & Hni)].
    + rewrite Hd, Hr, <- app_assoc. cbn [app].
      rewrite through_found by exact Hni.
      split; [reflexivity|]. split; [reflexivity|]. left.
      apply in_or_app. right. left. reflexivity.
    + rewrite Hd, Hu, decode_all_nil, app_nil_r.
      rewrite through_absent by exact Hni. auto.
Qed.

(** X8 — [read_until].  The reader is consumed up to and including the
    first occurrence of [end_ch], and those runes are returned, every byte
    of them added to [last_byte_len].  When [end_ch] does not occur: if it
    is the end-of-line rune, the rest of the input is returned without
    error (nil, nil when there is none); otherwise the rest of the input is
    consumed, the runes read are dropped and the error is [io.EOF]. *)
Theorem read_until_first_occurrence end_ch ts :
  let D := decode_all (unread ts) in
  let r := read_until end_ch ts in
  let runes := fst (fst r) in
  let err := snd (fst r) in
  let ts' := snd r in
  Z.of_nat (rdpos ts') - Z.of_nat (rdpos ts)
    = last_byte_len ts' - last_byte_len ts /\
  (In end_ch D \/ end_ch = eol (cfg ts) ->
   err = None /\ runes = fst (through end_ch D) /\
   decode_all (unread ts') = snd (through end_ch D)) /\
  (~ In end_ch D -> end_ch <> eol (cfg ts) ->
   err = Some EOF /\ runes = [] /\ unread ts' = []).
Proof.
  cbv zeta. pose proof (read_until_spec end_ch ts) as H.
  pose proof (read_until_through end_ch ts) as T. cbv zeta in T.
  destruct (read_until end_ch ts) as [[runes err] ts']. cbn [fst snd] in *.
  destruct H as (_ & Hb & _). split; [exact Hb|].
  destruct err as [e|].
  - destruct T as (-> & -> & Hu & Hni & Hne).
    split; [|auto]. intros [Hin|Heq]; contradiction.
  - destruct T as (Hr & Hd & Hc). split; [auto|].
    intros Hni Hne. destruct Hc; contradiction.
Qed.

(** X8, at a concrete input. *)
Lemma read_until_first_occurrence_witness :
  let ts := NewScannerString unicode.latin1_only "ab*c" in
  let D := decode_all (unread ts) in
  let r := read_until 0x2A ts in
  snd (fst r) = None /\ fst (fst r) = fst (through 0x2A D) /\
  decode_all (unread (snd r)) = snd (through 0x2A D).
Proof.
  intros ts D r.
  apply (proj1 (proj2 (read_until_first_occurrence 0x2A ts))).
  left. vm_compute. tauto.
Defined.

(* ------------------------------------------------------------------ *)
(** ** The scan step *)

Lemma unread_nil_remaining ts : unread ts = [] <-> remaining ts = 0%nat.
Proof.
  rewrite unread_skipn, remaining_eq. split.
  - intros H. destruct (Nat.le_gt_cases (length (input ts)) (rdpos ts)); [lia|].
    exfalso. assert (L : length (skipn (rdpos ts) (input ts)) = 0%nat)
      by (rewrite H; reflexivity).
    rewrite length_skipn in L. lia.
  - intros H. apply skipn_all2. lia.
Qed.

Lemma Scan_loop_fuel f1 :
  forall ts f2, (remaining ts < f1)%nat -> (remaining ts < f2)%nat ->
  Scan_loop f1 ts = Scan_loop f2 ts.
Proof.
  induction f1 as [|f1 IH]; intros ts f2 H1 H2; [lia|].
  destruct f2 as [|f2]; [lia|]. cbn [Scan_loop].
  destruct (update_pos_facts ts) as (U1 & U2 & U3 & U4 & _).
  set (ts0 := update_pos ts) in *.
  destruct (list_eq_dec Byte.byte_eq_dec (unread ts) []) as [Hu|Hu].
  { unfold get_whitespace. rewrite get_general_eof by (rewrite U4; exact Hu).
    reflexivity. }
  apply skipn_nonnil_lt in Hu. fold (rdpos ts) (input ts) in Hu.
  assert (Hcont : forall ts1, produced ts0 ts1 ->
            Scan_loop f1 ts1 = Scan_loop f2 ts1).
  { intros ts1 (P1 & P2 & P3 & t & P4 & P5 & P6).
    apply IH; rewrite !remaining_eq in *; rewrite P3, U2; lia. }
  pose proof (get_whitespace_post ts0) as H.
  destruct (get_whitespace ts0) as [[tok err] ts1].
  destruct (classifier_post_cases _ _ _ _ H)
    as [(t & -> & -> & P & Ht) | [(-> & -> & U) | (e & -> & -> & F)]]; clear H.
  - destruct (SkipWhitespace (cfg ts1)); [apply Hcont; exact P | reflexivity].
  - pose proof (Scan_rest_spec ts1) as H.
    destruct (Scan_rest ts1) as [r|ts2]; [reflexivity|].
    cbn [Scan_rest_post] in H. apply Hcont.
    eapply untouched_produced; eassumption.
  - reflexivity.
Qed.

(** X9 — the loop of [Scan] ends.  The bound put on the loop is never what
    stops it: no call of [Scan] ends with the out-of-fuel mark, and any
    bound above the number of unread bytes gives the same answer, each
    further turn of the loop having consumed at least one byte. *)
Theorem Scan_loop_ends fuel ts :
  (remaining ts < fuel)%nat ->
  Scan_loop fuel ts = Scan_loop (S (remaining ts)) ts /\
  snd (fst (Scan_loop fuel ts)) <> Some ErrFuel /\
  Err (snd (Scan ts)) <> Some ErrFuel.
Proof.
  intros Hf.
  assert (E : Scan_loop fuel ts = Scan_loop (S (remaining ts)) ts)
    by (apply Scan_loop_fuel; lia).
  split; [exact E|]. split; [|apply Scan_never_out_of_fuel].
  pose proof (Scan_never_out_of_fuel ts) as N. unfold Scan, Err in N.
  rewrite E. destruct (Scan_loop (S (remaining ts)) ts) as [[found err] ts'].
  exact N.
Qed.

(** X9, at a concrete input. *)
Lemma Scan_loop_ends_witness :
  let ts := NewScannerString unicode.latin1_only "a b" in
  Scan_loop 10 ts = Scan_loop (S (remaining ts)) ts /\
  snd (fst (Scan_loop 10 ts)) <> Some ErrFuel /\
  Err (snd (Scan ts)) <> Some ErrFuel.
Proof.
  intros ts. apply (Scan_loop_ends 10 ts). vm_compute. lia.
Defined.

Lemma Scan_true_progress ts ts' :
  Scan ts = (true, ts') ->
  (remaining ts' < remaining ts)%nat.
Proof.
  intros E. pose proof (Scan_spec _ _ _ E) as G. unfold Scan_loop_post in G.
  destruct G as (_ & Hi & _ & _ & G).
  destruct (last_err ts'); [contradiction|].
  destruct G as (t & _ & _ & Hlt).
  destruct (list_eq_dec Byte.byte_eq_dec (unread ts) []) as [Hu|Hu].
  { rewrite (Scan_eof ts Hu) in E. discriminate. }
  apply skipn_nonnil_lt in Hu. fold (rdpos ts) (input ts) in Hu.
  rewrite !remaining_eq, Hi. lia.
Qed.

(** X10 — the caller's loop ends.  [for p.Scan() { ... }] makes at most as
    many successful steps as there are unread bytes, every token taking at
    least one byte; the step after them returns false. *)
Theorem scan_states_end n : forall ts,
  (remaining ts < n)%nat ->
  (length (fst (scan_states n ts)) <= remaining ts)%nat /\
  exists final, snd (scan_states n ts) = Some final.
Proof.
  induction n as [|n IH]; intros ts Hn; [lia|].
  cbn [scan_states]. destruct (Scan ts) as [[|] ts1] eqn:E.
  - pose proof (Scan_true_progress _ _ E) as Hp.
    destruct (IH ts1 ltac:(lia)) as (Hl & final & Hf).
    destruct (scan_states n ts1) as [l r]. cbn [fst snd length] in *.
    split; [lia|]. exists final. exact Hf.
  - cbn. split; [lia|]. exists ts1. reflexivity.
Qed.

(** X10, at a concrete input. *)
Lemma scan_states_end_witness :
  let ts := NewScannerString unicode.latin1_only "a b" in
  (length (fst (scan_states 4 ts)) <= remaining ts)%nat /\
  exists final, snd (scan_states 4 ts) = Some final.
Proof.
  intros ts. apply (scan_states_end 4 ts). vm_compute. lia.
Defined.

(** X11 — [Scan] at the end of the input.  With nothing left to read the
    step returns false and records [io.EOF] as its error (not nil); the
    last token stays, and the position has taken in the deltas staged by
    the token before. *)
Theorem Scan_at_end_of_input ts :
  unread ts = [] ->
  fst (Scan ts) = false /\
  Err (snd (Scan ts)) = Some EOF /\
  Token_ (snd (Scan ts)) = Token_ ts /\
  Position_ (snd (Scan ts)) = pos (update_pos ts) /\
  unread (snd (Scan ts)) = [].
Proof.
  intros Hu. rewrite (Scan_eof ts Hu). cbn [fst snd].
  repeat split. exact Hu.
Qed.

(** X11, at a concrete input. *)
Lemma Scan_at_end_of_input_witness :
  let ts := NewScannerString unicode.latin1_only "" in
  fst (Scan ts) = false /\
  Err (snd (Scan ts)) = Some EOF /\
  Token_ (snd (Scan ts)) = Token_ ts /\
  Position_ (snd (Scan ts)) = pos (update_pos ts) /\
  unread (snd (Scan ts)) = [].
Proof.
  intros ts. apply (Scan_at_end_of_input ts). reflexivity.
Defined.

Lemma get_quoted_reject ts ch n :
  unread ts <> [] -> utf8.DecodeRune (unread ts) = (ch, n) ->
  fst (IsQuoteRune (cfg ts) ch) = false ->
  get_quoted ts = (None, None, at_rd ts (rdpos ts) None).
Proof.
  intros Hne HD Hq. unfold get_quoted.
  destruct (get_one_rune_spec ts) as [ch' n' Hne' HD' Hn Hle | Heof];
    [|contradiction].
  rewrite HD in HD'. inversion HD'; subst ch' n'; clear HD'.
  change (cfg (at_rd ts (rdpos ts + n) (Some n))) with (cfg ts).
  destruct (IsQuoteRune (cfg ts) ch) as [ok closing]. cbn in Hq. subst ok.
  cbn [negb]. rewrite unread_after_read. reflexivity.
Qed.

Lemma get_ident_reject ts ch n :
  unread ts <> [] -> utf8.DecodeRune (unread ts) = (ch, n) ->
  IsIdentRune (cfg ts) ch 0 = false ->
  get_ident ts = (None, None, at_rd ts (rdpos ts) None).
Proof.
  intros Hne HD Hr. unfold get_ident. cbn [get_ident_loop].
  destruct (get_one_rune_spec ts) as [ch' n' Hne' HD' Hn Hle | Heof];
    [|contradiction].
  rewrite HD in HD'. inversion HD'; subst ch' n'; clear HD'.
  change (cfg (at_rd ts (rdpos ts + n) (Some n))) with (cfg ts).
  rewrite Hr, unread_after_read. reflexivity.
Qed.

Lemma get_number_reject ts ch n :
  unread ts <> [] -> utf8.DecodeRune (unread ts) = (ch, n) ->
  ch <> 0x2D -> IsDigitRune (cfg ts) ch = false ->
  get_number ts = (None, None, at_rd ts (rdpos ts) None).
Proof.
  intros Hne HD Hm Hr. unfold get_number. cbn [get_number_loop].
  destruct (get_one_rune_spec ts) as [ch' n' Hne' HD' Hn Hle | Heof];
    [|contradiction].
  rewrite HD in HD'. inversion HD'; subst ch' n'; clear HD'.
  change (cfg (at_rd ts (rdpos ts + n) (Some n))) with (cfg ts).
  apply Z.eqb_neq in Hm. rewrite Hm. cbn [andb negb].
  rewrite andb_false_r. rewrite Hr, unread_after_read. reflexivity.
Qed.

(** X12 — a rune no classifier takes.  When the next rune is refused by
    every classifier (not whitespace, no slash, no quote, no identifier
    start, no minus sign, no digit, no symbol), [Scan] returns false with a
    nil error although input is left; nothing is consumed and the last
    token stays.  Every later call does the same: the scanner is stuck in
    front of that rune. *)
Theorem Scan_stops_at_unclassified ts ch n :
  unread ts <> [] -> utf8.DecodeRune (unread ts) = (ch, n) ->
  IsSpaceRune (cfg ts) ch 0 [] = false ->
  ch <> 0x2F ->
  fst (IsQuoteRune (cfg ts) ch) = false ->
  IsIdentRune (cfg ts) ch 0 = false ->
  ch <> 0x2D -> IsDigitRune (cfg ts) ch = false ->
  IsSymbolRune (cfg ts) ch 0 [] = false ->
  forall k,
    fst (Scan (rescan k ts)) = false /\
    Err (snd (Scan (rescan k ts))) = None /\
    unread (snd (Scan (rescan k ts))) = unread ts /\
    Token_ (snd (Scan (rescan k ts))) = Token_ ts.
Proof.
  intros Hne HD Hs Hc Hq Hi Hm Hd Hy.
  assert (Step : forall ts0, unread ts0 = unread ts -> cfg ts0 = cfg ts ->
    Scan ts0 = (false, with_last_err (at_rd (update_pos ts0) (rdpos ts0) None)
                         None)).
  { intros ts0 Eu Ec. rewrite <- Eu in Hne, HD. rewrite <- Ec in Hs, Hq, Hi, Hd, Hy.
    unfold Scan. cbn [Scan_loop]. unfold get_whitespace.
    rewrite (get_general_reject _ _ _ (update_pos ts0) ch n)
      by (auto; cbn [existsb negb andb]; exact Hs).
    unfold Scan_rest.
    set (tsA := at_rd (update_pos ts0) (rdpos (update_pos ts0)) None).
    assert (EA : at_rd tsA (rdpos tsA) None = tsA) by reflexivity.
    rewrite (get_comment_reject tsA ch n) by auto. rewrite EA.
    rewrite (get_quoted_reject tsA ch n) by auto. rewrite EA.
    rewrite (get_ident_reject tsA ch n) by auto. rewrite EA.
    rewrite (get_number_reject tsA ch n) by auto. rewrite EA.
    unfold get_symbol.
    rewrite (get_general_reject _ _ _ tsA ch n); auto.
    cbn [existsb]. change (cfg tsA) with (cfg ts0). rewrite Hq.
    cbn [negb orb andb]. exact Hy. }
  assert (Inv : forall k, unread (rescan k ts) = unread ts /\
                          cfg (rescan k ts) = cfg ts /\
                          LastToken (rescan k ts) = LastToken ts).
  { intros k. revert ts Hne HD Hs Hq Hi Hd Hy Step.
    induction k as [|k IH]; intros ts Hne HD Hs Hq Hi Hd Hy Step;
      [repeat split|].
    cbn [rescan]. rewrite (Step ts eq_refl eq_refl). cbn [snd].
    set (ts1 := with_last_err (at_rd (update_pos ts) (rdpos ts) None) None).
    assert (E1 : unread ts1 = unread ts) by reflexivity.
    assert (E2 : cfg ts1 = cfg ts) by reflexivity.
    destruct (IH ts1) as (A & B & C); auto. }
  intros k. destruct (Inv k) as (A & B & C).
  rewrite (Step (rescan k ts) A B). cbn [fst snd]. repeat split.
  - exact A.
  - exact C.
Qed.

(** X12, at a concrete input. *)
Lemma Scan_stops_at_unclassified_witness :
  let ts := NewScannerBytes unicode.latin1_only [x61; x01; x62] in
  let ts2 := snd (Scan ts) in
  fst (Scan (rescan 3 ts2)) = false /\
  Err (snd (Scan (rescan 3 ts2))) = None /\
  unread (snd (Scan (rescan 3 ts2))) = unread ts2 /\
  Token_ (snd (Scan (rescan 3 ts2))) = Token_ ts2.
Proof.
  intros ts ts2.
  apply (Scan_stops_at_unclassified ts2 1 1%nat);
    vm_compute; first [reflexivity | discriminate].
Defined.

Lemma get_number_type ts t :
  fst (fst (get_number ts)) = Some t ->
  Type_ t = TokenTypeInt \/ Type_ t = TokenTypeFloat.
Proof.
  unfold get_number.
  destruct (get_number_loop _ ts [] 0 false false false)
    as [[[[ex runes] total] isf] ts'].
  destruct ex; [|cbn; discriminate].
  destruct (length runes =? 0)%nat; cbn; [discriminate|].
  intros H. inversion H; subst t. cbn. destruct isf; auto.
Qed.

(** The token a classifier of [Scan_rest] hands out, with its type. *)
Lemma Scan_rest_surfaced ts err ts' :
  Scan_rest ts = inl (true, err, ts') ->
  exists t, LastToken ts' = Some t /\ surfaced (cfg ts) (Type_ t).
Proof.
  unfold Scan_rest.
  pose proof (get_comment_spec ts) as [H T].
  destruct (get_comment ts) as [[tok e] ts1].
  destruct (classifier_post_cases _ _ _ _ H)
    as [(t & -> & -> & P & L) | [(-> & -> & U1) | (e' & -> & -> & F)]]; clear H.
  { destruct P as (P1 & _). rewrite P1.
    destruct (SkipComments (cfg ts)) eqn:S; [discriminate|].
    intros E. inversion E; subst. exists t. split; [exact L|].
    rewrite (proj2 (T t eq_refl)). exact S. }
  2:{ discriminate. }
  clear T.
  assert (C1 : cfg ts1 = cfg ts) by apply U1.
  pose proof (get_quoted_spec ts1) as H.
  destruct (get_quoted ts1) as [[tok e] ts2]. destruct H as (H & T & _).
  destruct (classifier_post_cases _ _ _ _ H)
    as [(t & -> & -> & P & L) | [(-> & -> & U2) | (e' & -> & -> & F)]]; clear H.
  { intros E. inversion E; subst. exists t. split; [exact L|].
    rewrite (proj1 (T t eq_refl)). exact I. }
  2:{ discriminate. }
  clear T.
  pose proof (get_ident_spec ts2) as [H T].
  destruct (get_ident ts2) as [[tok e] ts3].
  destruct (classifier_post_cases _ _ _ _ H)
    as [(t & -> & -> & P & L) | [(-> & -> & U3) | (e' & -> & -> & F)]]; clear H.
  { intros E. inversion E; subst. exists t. split; [exact L|].
    rewrite (proj1 (proj2 (T t eq_refl))). exact I. }
  2:{ discriminate. }
  clear T.
  pose proof (proj1 (get_number_spec ts3)) as H.
  pose proof (get_number_type ts3) as T.
  destruct (get_number ts3) as [[tok e] ts4].
  destruct (classifier_post_cases _ _ _ _ H)
    as [(t & -> & -> & P & L) | [(-> & -> & U4) | (e' & -> & -> & F)]]; clear H.
  { intros E. inversion E; subst. exists t. split; [exact L|].
    destruct (T t eq_refl) as [-> | ->]; exact I. }
  2:{ discriminate. }
  clear T.
  unfold get_symbol.
  match goal with |- context [get_general ?tt ?c ?x ts4] =>
    pose proof (get_general_spec tt c x ts4) as [H T];
    destruct (get_general tt c x ts4) as [[tok e] ts5] end.
  destruct (classifier_post_cases _ _ _ _ H)
    as [(t & -> & -> & P & L) | [(-> & -> & U5) | (e' & -> & -> & F)]]; clear H.
  { intros E. inversion E; subst. exists t. split; [exact L|].
    rewrite (proj1 (proj2 (T t eq_refl))). exact I. }
  - discriminate.
  - discriminate.
Qed.

Lemma Scan_loop_surfaced fuel :
  forall ts err ts',
  Scan_loop fuel ts = (true, err, ts') ->
  exists t, LastToken ts' = Some t /\ surfaced (cfg ts) (Type_ t).
Proof.
  induction fuel as [|fuel IH]; intros ts err ts' E; [discriminate|].
  cbn [Scan_loop] in E.
  assert (C0 : cfg (update_pos ts) = cfg ts) by reflexivity.
  set (ts0 := update_pos ts) in *.
  unfold get_whitespace in E.
  match type of E with context [get_general ?tt ?c ?x ts0] =>
    pose proof (get_general_spec tt c x ts0) as [H T];
    destruct (get_general tt c x ts0) as [[tok e] ts1] end.
  destruct (classifier_post_cases _ _ _ _ H)
    as [(t & -> & -> & P & L) | [(-> & -> & U) | (e' & -> & -> & F)]]; clear H.
  - assert (C1 : cfg ts1 = cfg ts) by (destruct P as (P1 & _); congruence).
    rewrite C1 in E. destruct (SkipWhitespace (cfg ts)) eqn:S.
    + destruct (IH _ _ _ E) as (t' & A & B). exists t'. split; [exact A|].
      rewrite <- C1. exact B.
    + inversion E; subst. exists t. split; [exact L|].
      rewrite (proj1 (proj2 (T t eq_refl))). exact S.
  - assert (C1 : cfg ts1 = cfg ts) by (destruct U as (U1 & _); congruence).
    pose proof (Scan_rest_spec ts1) as R.
    destruct (Scan_rest ts1) as [[[found er] ts2]|ts2] eqn:SR.
    + inversion E; subst.
      destruct (Scan_rest_surfaced _ _ _ SR) as (t & A & B).
      exists t. split; [exact A|]. rewrite <- C1. exact B.
    + cbn [Scan_rest_post] in R.
      assert (C2 : cfg ts2 = cfg ts) by (destruct R as (R1 & _); congruence).
      destruct (IH _ _ _ E) as (t' & A & B). exists t'. split; [exact A|].
      rewrite <- C2. exact B.
  - discriminate.
Qed.

(** X13 — the skip flags.  The token of a successful [Scan] is never a
    Whitespace token while [SkipWhitespace] is set and never a Comment token
    while [SkipComments] is set; clearing a flag is the only way to be
    handed tokens of that type. *)
Theorem Scan_honours_skip_flags ts ts' :
  Scan ts = (true, ts') ->
  exists t, Token_ ts' = Some t /\
    (SkipWhitespace (cfg ts) = true -> Type_ t <> TokenTypeWhitespace) /\
    (SkipComments (cfg ts) = true -> Type_ t <> TokenTypeComment).
Proof.
  unfold Scan. intros E.
  destruct (Scan_loop (S (remaining ts)) ts) as [[found err] ts1] eqn:L.
  inversion E; subst found ts'; clear E.
  destruct (Scan_loop_surfaced _ _ _ _ L) as (t & A & B).
  exists t. split; [exact A|]. split; intros S Ety; rewrite Ety in B;
    cbn in B; congruence.
Qed.

(** X13, at a concrete input. *)
Lemma Scan_honours_skip_flags_witness :
  let ts := NewScannerString unicode.latin1_only ("  // c" ++ nl ++ "x") in
  exists t, Token_ (snd (Scan ts)) = Some t /\
    (SkipWhitespace (cfg ts) = true -> Type_ t <> TokenTypeWhitespace) /\
    (SkipComments (cfg ts) = true -> Type_ t <> TokenTypeComment).
Proof.
  intros ts. apply (Scan_honours_skip_flags ts (snd (Scan ts))).
  vm_compute. reflexivity.
Defined.

(* ------------------------------------------------------------------ *)
(** ** Comments *)

Lemma check_char_2_decode ch ts :
  fst (check_next_rune_char_n ch 2 ts) =
    match decode_all (unread ts) with
    | c1 :: c2 :: _ => peekable c1 && peekable c2 && (c2 =? ch)
    | _ => false
    end.
Proof.
  unfold check_next_rune_char_n.
  pose proof (peek_multirune_lookahead 2 ts) as H.
  destruct (peek_multirune 2 ts) as [[runes err] ts']. cbn [fst] in H.
  unfold lookahead in H.
  destruct (decode_all (unread ts)) as [|c1 [|c2 D']]; cbn in H.
  - inversion H; subst. reflexivity.
  - destruct (peekable c1); cbn in H; inversion H; subst; reflexivity.
  - destruct (peekable c1), (peekable c2); cbn in H; inversion H; subst;
      reflexivity.
Qed.

Lemma skipn_S_decode ts ch n rest :
  unread ts <> [] -> utf8.DecodeRune (unread ts) = (ch, n) ->
  decode_all (unread ts) = ch :: rest ->
  decode_all (skipn (rdpos ts + n) (input ts)) = rest.
Proof.
  intros Hne HD E.
  rewrite (decode_all_at_rd ts ch n None Hne HD) in E.
  inversion E. reflexivity.
Qed.

Lemma get_n_runes_loop_exact k :
  forall ts chars total,
  (k <= length (decode_all (unread ts)))%nat ->
  let D := decode_all (unread ts) in
  let '(chars', total', err, ts') := get_n_runes_loop k ts chars total in
  err = None /\ chars' = chars ++ firstn k D /\
  decode_all (unread ts') = skipn k D /\ keeps ts ts' /\
  Z.of_nat (rdpos ts') - Z.of_nat (rdpos ts)
    = last_byte_len ts' - last_byte_len ts /\
  (rdpos ts <= rdpos ts')%nat /\
  staged ts' = fold_left (advance (eol (cfg ts))) (firstn k D) (staged ts).
Proof.
  induction k as [|k IH]; intros ts chars total Hk.
  - cbn. rewrite app_nil_r. repeat split; lia.
  - cbn [get_n_runes_loop].
    destruct (ReadRune_cases ts) as [(ch & n & Hne & HD & Hn & Hle & E) | (Heof & E)];
      rewrite E.
    2:{ rewrite Heof, decode_all_nil in Hk. cbn in Hk. lia. }
    pose proof (decode_all_at_rd ts ch n None Hne HD) as HDa.
    change (unread (at_rd ts (rdpos ts + n) None))
      with (skipn (rdpos ts + n) (input ts)) in HDa.
    match goal with
    | |- context [get_n_runes_loop k ?t ?c ?s] =>
      specialize (IH t c s); set (ts1 := t) in *
    end.
    assert (K1 : keeps ts ts1).
    { unfold ts1. cbn [cfg with_last_col with_last_byte_len with_reader].
      destruct (ch =? eol (cfg ts)); repeat split. }
    assert (R1 : rdpos ts1 = (rdpos ts + n)%nat).
    { unfold ts1. cbn [cfg with_last_col with_last_byte_len with_reader].
      destruct (ch =? eol (cfg ts)); reflexivity. }
    assert (B1 : last_byte_len ts1 = last_byte_len ts + Z.of_nat n).
    { unfold ts1. cbn [cfg with_last_col with_last_byte_len with_reader].
      destruct (ch =? eol (cfg ts)); reflexivity. }
    assert (S1 : staged ts1 = advance (eol (cfg ts)) (staged ts) ch).
    { unfold ts1, advance, staged.
      cbn [cfg with_last_col with_last_byte_len with_reader].
      destruct (ch =? eol (cfg ts)); reflexivity. }
    assert (U1 : unread ts1 = skipn (rdpos ts + n) (input ts)).
    { unfold ts1. cbn [cfg with_last_col with_last_byte_len with_reader].
      destruct (ch =? eol (cfg ts)); reflexivity. }
    assert (C1 : cfg ts1 = cfg ts) by apply K1.
    rewrite U1, C1, S1 in IH. cbv zeta in IH |- *. rewrite HDa in Hk |- *.
    cbn [length] in Hk. specialize (IH ltac:(lia)).
    destruct (get_n_runes_loop k ts1 _ _) as [[[chars' total'] err] ts'].
    destruct IH as (I1 & I2 & I3 & I4 & I5 & I6 & I7).
    split; [exact I1|]. cbn [firstn skipn fold_left].
    split; [rewrite I2, <- app_assoc; reflexivity|].
    split; [exact I3|]. split; [eapply keeps_trans; eassumption|].
    split; [lia|]. split; [lia|]. exact I7.
Qed.

Lemma read_until_loop_staged fuel end_ch :
  forall ts runes,
  let '(ex, runes', ts') := read_until_loop fuel end_ch ts runes in
  exists acc, runes' = runes ++ acc /\
    staged ts' = fold_left (advance (eol (cfg ts))) acc (staged ts).
Proof.
  induction fuel as [|fuel IH]; intros ts runes.
  - cbn. exists []. rewrite app_nil_r. split; reflexivity.
  - cbn [read_until_loop].
    destruct (get_one_rune_spec ts) as [ch n Hne HD Hn Hle | Heof].
    + change (cfg (at_rd ts (rdpos ts + n) (Some n))) with (cfg ts).
      set (ts1 := count_rune (with_last_byte_len _ _) ch).
      assert (S1 : staged ts1 = advance (eol (cfg ts)) (staged ts) ch)
        by (unfold ts1; rewrite staged_count_rune; reflexivity).
      assert (C1 : cfg ts1 = cfg ts)
        by (unfold ts1; rewrite cfg_count_rune; reflexivity).
      destruct (ch =? end_ch).
      * exists [ch]. split; [reflexivity|]. exact S1.
      * specialize (IH ts1 (runes ++ [ch])).
        destruct (read_until_loop fuel end_ch ts1 _) as [[ex runes'] ts'].
        destruct IH as (acc & Hr & Hs). exists (ch :: acc).
        rewrite <- app_assoc in Hr. split; [exact Hr|].
        cbn [fold_left]. rewrite Hs, C1, S1. reflexivity.
    + destruct (is_EOF EOF && (end_ch =? eol (cfg _)));
        exists []; rewrite app_nil_r; split; reflexivity.
Qed.

Lemma read_until_staged end_ch ts :
  snd (fst (read_until end_ch ts)) = None ->
  staged (snd (read_until end_ch ts))
    = fold_left (advance (eol (cfg ts))) (fst (fst (read_until end_ch ts)))
                (staged ts).
Proof.
  unfold read_until.
  pose proof (read_until_loop_staged (S (remaining ts)) end_ch ts []) as H.
  pose proof (read_until_loop_spec end_ch (S (remaining ts)) ts []
                ltac:(lia)) as P.
  destruct (read_until_loop _ end_ch ts []) as [[ex runes'] ts'].
  destruct H as (acc & Hr & Hs). cbn [app] in Hr. subst acc.
  destruct ex as [|[e|]]; cbn; [intros _; exact Hs | discriminate | ].
  unfold read_until_loop_post in P. tauto.
Qed.

Lemma block_body_no_star rs : ~ In 0x2A rs -> block_body false rs = None.
Proof.
  induction rs as [|r rs IH]; intros H; [reflexivity|].
  cbn [block_body].
  destruct (r =? 0x2A) eqn:E.
  - apply Z.eqb_eq in E. exfalso. apply H. left. exact E.
  - rewrite IH; [reflexivity|]. intros Hin. apply H. right. exact Hin.
Qed.

Lemma block_body_to_star mid D1 :
  ~ In 0x2A mid ->
  block_body false (mid ++ 0x2A :: D1) =
    match block_body true D1 with
    | Some (b, rest) => Some (mid ++ 0x2A :: b, rest)
    | None => None
    end.
Proof.
  induction mid as [|m mid IH]; intros H.
  - cbn [app block_body]. rewrite Z.eqb_refl. reflexivity.
  - cbn [app block_body].
    destruct (m =? 0x2A) eqn:E.
    + apply Z.eqb_eq in E. exfalso. apply H. left. exact E.
    + rewrite IH by (intros Hin; apply H; right; exact Hin).
      destruct (block_body true D1) as [[b rest]|]; reflexivity.
Qed.

Lemma decode_all_nil_inv p : decode_all p = [] -> p = [].
Proof.
  destruct p as [|c p]; [reflexivity|]. intros H.
  destruct (utf8.DecodeRune (c :: p)) as [ch n] eqn:D.
  rewrite (decode_all_step (c :: p) ch n) in H by (auto; discriminate).
  discriminate.
Qed.

Lemma get_comment_block_loop_body fuel :
  forall ts all_runes, (remaining ts < fuel)%nat ->
  let D := decode_all (unread ts) in
  let '(ex, all', ts') := get_comment_block_loop fuel ts all_runes in
  keeps ts ts' /\
  match block_body false D with
  | Some (b, rest) =>
    ex = Break /\ all' = all_runes ++ b /\ decode_all (unread ts') = rest /\
    last_byte_len ts <= last_byte_len ts' /\
    last_byte_len ts' - last_byte_len ts
      < Z.of_nat (rdpos ts') - Z.of_nat (rdpos ts)
  | None => ex = Return (Some EOF) /\ unread ts' = []
  end.
Proof.
  induction fuel as [|fuel IH]; intros ts all_runes Hf; [lia|].
  cbv zeta. cbn [get_comment_block_loop].
  pose proof (read_until_spec 0x2A ts) as H.
  destruct (read_until 0x2A ts) as [[runes err] ts1].
  destruct H as (K & Hd & Hle & H).
  destruct err as [e|].
  - destruct H as (He & Hu & _ & _ & Hni). subst e.
    split; [exact K|]. rewrite block_body_no_star by exact Hni.
    split; [reflexivity | exact Hu].
  - destruct H as (HD & _ & Hc).
    destruct (get_one_rune_spec ts1) as [ch n Hne HD1 Hn Hle1 | Heof].
    + destruct Hc as [(mid & Hr & Hni) | (_ & Hu & _)]; [|contradiction].
      pose proof (decode_all_at_rd ts1 ch n (Some n) Hne HD1) as HDa.
      rewrite HDa, Hr, <- app_assoc in HD. cbn [app] in HD.
      rewrite HD, block_body_to_star by exact Hni.
      cbn [block_body].
      destruct (ch =? 0x2F) eqn:Ech; cbn [negb].
      * split. { eapply keeps_trans; [exact K | apply keeps_at_rd]. }
        split; [reflexivity|].
        split. { rewrite Hr, <- !app_assoc. reflexivity. }
        split; [reflexivity|].
        change (last_byte_len (at_rd ts1 (rdpos ts1 + n) (Some n)))
          with (last_byte_len ts1).
        rewrite rdpos_at_rd. split; lia.
      * specialize (IH (at_rd ts1 (rdpos ts1 + n) (Some n))
                       ((all_runes ++ runes) ++ [ch])).
        rewrite remaining_at_rd in IH. rewrite remaining_eq in Hf.
        pose proof K as (K1 & K2 & K3 & K4). rewrite K3 in *.
        specialize (IH ltac:(lia)). cbv zeta in IH.
        destruct (get_comment_block_loop fuel _ _) as [[ex all'] ts'].
        destruct IH as (K' & IH).
        split. { eapply keeps_trans; [exact K|].
                 eapply keeps_trans; [apply keeps_at_rd | exact K']. }
        destruct (block_body false
                    (decode_all (unread (at_rd ts1 (rdpos ts1 + n) (Some n)))))
          as [[b rest]|].
        -- destruct IH as (E & Ha & Hrest & Hb1 & Hb2).
           change (last_byte_len (at_rd ts1 (rdpos ts1 + n) (Some n)))
             with (last_byte_len ts1) in Hb1, Hb2.
           rewrite rdpos_at_rd in Hb2.
           split; [exact E|].
           split. { rewrite Ha, Hr, <- !app_assoc. reflexivity. }
           split; [exact Hrest|]. split; lia.
        -- exact IH.
    + split. { eapply keeps_trans; [exact K | repeat split]. }
      assert (E0 : decode_all (unread ts1) = [])
        by (rewrite Heof; apply decode_all_nil).
      rewrite E0, app_nil_r in HD.
      assert (N : block_body false (decode_all (unread ts)) = None).
      { rewrite HD. destruct Hc as [(mid & Hr & Hni) | (_ & _ & Hni)].
        - rewrite Hr. rewrite block_body_to_star by exact Hni. reflexivity.
        - apply block_body_no_star. exact Hni. }
      rewrite N. split; [reflexivity | exact Heof].
Qed.

Lemma get_comment_slash ts rest :
  decode_all (unread ts) = 0x2F :: rest ->
  get_comment ts =
    let tsA := at_rd ts (rdpos ts) None in
    let second k := match rest with c2 :: _ => c2 =? k | [] => false end in
    if second 0x2F then
      match get_n_runes 2 tsA with
      | (_, _, Some err, ts) => (None, Some err, ts)
      | (chars, _, None, ts) =>
        match read_until (eol (cfg ts)) ts with
        | (chars2, Some err, ts) =>
          if negb (is_EOF err) then (None, Some err, ts)
          else comment_token ts (chars ++ chars2)
        | (chars2, None, ts) => comment_token ts (chars ++ chars2)
        end
      end
    else if second 0x2A then
      match get_n_runes 2 tsA with
      | (_, _, Some err, ts) => (None, Some err, ts)
      | (chars, _, None, ts) =>
        match get_comment_block_loop (S (remaining ts)) ts chars with
        | (Return err, _, ts) => (None, err, ts)
        | (Break, all_runes, ts) => comment_token ts all_runes
        end
      end
    else (None, None, tsA).
Proof.
  intros HD. unfold get_comment.
  destruct (get_one_rune_spec ts) as [ch n Hne HDr Hn Hle | Heof].
  2:{ rewrite Heof, decode_all_nil in HD. discriminate. }
  rewrite (decode_all_at_rd ts ch n None Hne HDr) in HD.
  injection HD as Hch Hrest. subst ch.
  rewrite Z.eqb_refl, unread_after_read. cbv zeta.
  set (tsA := at_rd ts (rdpos ts) None).
  assert (P : forall k, peekable k = true ->
    check_next_rune_char_n k 2 tsA
      = (match rest with c2 :: _ => c2 =? k | [] => false end, tsA)).
  { intros k Pk.
    pose proof (check_char_state k 2 tsA) as S.
    pose proof (check_char_2_decode k tsA) as F.
    change (unread tsA) with (unread ts) in F.
    rewrite (decode_all_at_rd ts 0x2F n None Hne HDr), Hrest in F.
    destruct (check_next_rune_char_n k 2 tsA) as [b t]. cbn [fst snd] in *.
    subst t. change (at_rd tsA (rdpos tsA) None) with tsA. f_equal.
    rewrite F. destruct rest as [|c2 rest']; [reflexivity|].
    change (peekable 47) with true. cbn [andb].
    destruct (c2 =? k) eqn:E; [|apply andb_false_r].
    apply Z.eqb_eq in E. subst c2. rewrite Pk. reflexivity. }
  rewrite (P 0x2F eq_refl).
  destruct (match rest with c2 :: _ => c2 =? 0x2F | [] => false end);
    [reflexivity|].
  rewrite (P 0x2A eq_refl).
  destruct (match rest with c2 :: _ => c2 =? 0x2A | [] => false end);
    reflexivity.
Qed.

Lemma get_n_runes_2 ts c1 c2 rest :
  decode_all (unread ts) = c1 :: c2 :: rest ->
  exists total ts1,
    get_n_runes 2 (at_rd ts (rdpos ts) None) = ([c1; c2], total, None, ts1) /\
    keeps ts ts1 /\ decode_all (unread ts1) = rest /\
    Z.of_nat (rdpos ts1) - Z.of_nat (rdpos ts)
      = last_byte_len ts1 - last_byte_len ts /\
    (rdpos ts < rdpos ts1)%nat /\
    staged ts1 = fold_left (advance (eol (cfg ts))) [c1; c2] (staged ts).
Proof.
  intros HD. unfold get_n_runes.
  set (tsA := at_rd ts (rdpos ts) None).
  pose proof (get_n_runes_loop_exact 2 tsA [] 0) as H.
  change (unread tsA) with (unread ts) in H. rewrite HD in H.
  specialize (H ltac:(cbn; lia)). cbv zeta in H.
  pose proof (get_n_runes_loop_spec 2 tsA [] 0) as G.
  destruct (get_n_runes_loop 2 tsA [] 0) as [[[chars total] err] ts1].
  destruct H as (E & Hc & Hd & K & Hb & Hle & Hs). subst err.
  destruct G as (_ & _ & (acc & _ & _ & G)).
  destruct (G ltac:(lia)) as (_ & Hlt & _).
  cbn [app firstn skipn] in Hc, Hd. subst chars.
  exists total, ts1. split; [reflexivity|].
  split; [eapply keeps_trans; [apply keeps_at_rd | exact K]|].
  split; [exact Hd|]. split; [exact Hb|]. split; [exact Hlt|]. exact Hs.
Qed.

(** X14 — a line comment.  When the reader holds two slashes, [get_comment]
    returns a Comment token whose text runs from the slashes up to and
    including the next end-of-line rune, or to the end of the input when
    there is none, never an error.  Its [NumBytes] is the byte length
    staged at entry plus exactly the bytes consumed, and the line and column
    it stages are those staged before, advanced over the runes of its
    text. *)
Theorem get_comment_line ts rest :
  decode_all (unread ts) = 0x2F :: 0x2F :: rest ->
  exists t ts',
    get_comment ts = (Some t, None, ts') /\
    Type_ t = TokenTypeComment /\
    Text t = 0x2F :: 0x2F :: fst (through (eol (cfg ts)) rest) /\
    decode_all (unread ts') = snd (through (eol (cfg ts)) rest) /\
    NumBytes t - last_byte_len ts
      = Z.of_nat (rdpos ts') - Z.of_nat (rdpos ts) /\
    staged ts' = fold_left (advance (eol (cfg ts))) (Text t) (staged ts).
Proof.
  intros HD. rewrite (get_comment_slash ts _ HD). cbv zeta.
  rewrite Z.eqb_refl.
  destruct (get_n_runes_2 ts _ _ _ HD)
    as (total & ts1 & E & K1 & Hd1 & Hb1 & Hlt1 & Hs1).
  rewrite E.
  assert (C1 : cfg ts1 = cfg ts) by apply K1.
  pose proof (read_until_through (eol (cfg ts1)) ts1) as R.
  pose proof (read_until_spec (eol (cfg ts1)) ts1) as Hb2.
  pose proof (read_until_staged (eol (cfg ts1)) ts1) as S.
  cbv zeta in R.
  destruct (read_until (eol (cfg ts1)) ts1) as [[chars2 err2] ts2].
  cbn [fst snd] in R, S. destruct Hb2 as (_ & Hb2 & _).
  destruct err2 as [e2|]; [destruct R as (_ & _ & _ & _ & R); congruence|].
  destruct R as (Hc2 & Hd2 & _).
  specialize (S eq_refl). rewrite Hd1, C1 in *.
  unfold comment_token. cbn [app length Nat.ltb Nat.leb].
  eexists. eexists. split; [reflexivity|].
  cbn [Type_ Text NumBytes]. unfold runes_to_string. cbn [concat].
  rewrite app_nil_r.
  split; [reflexivity|]. split; [rewrite Hc2; reflexivity|].
  split; [exact Hd2|].
  split. { change (last_byte_len ts2 - last_byte_len ts
                   = Z.of_nat (rdpos ts2) - Z.of_nat (rdpos ts)). lia. }
  change (staged ts2 = fold_left (advance (eol (cfg ts)))
                         ([0x2F; 0x2F] ++ chars2) (staged ts)).
  rewrite fold_left_app, S, Hs1. reflexivity.
Qed.

(** X14, at a concrete input. *)
Lemma get_comment_line_witness :
  let ts := NewScannerString unicode.latin1_only ("// c" ++ nl ++ "x") in
  exists t ts',
    get_comment ts = (Some t, None, ts') /\
    Type_ t = TokenTypeComment /\
    Text t = 0x2F :: 0x2F :: fst (through (eol (cfg ts)) (runes_of (" c" ++ nl ++ "x"))) /\
    decode_all (unread ts') = snd (through (eol (cfg ts)) (runes_of (" c" ++ nl ++ "x"))) /\
    NumBytes t - last_byte_len ts
      = Z.of_nat (rdpos ts') - Z.of_nat (rdpos ts) /\
    staged ts' = fold_left (advance (eol (cfg ts))) (Text t) (staged ts).
Proof.
  intros ts. apply (get_comment_line ts (runes_of (" c" ++ nl ++ "x"))).
  vm_compute. reflexivity.
Defined.

(** X15 — a block comment.  When the reader holds a slash and a star,
    [get_comment] goes by [block_body]: it reads up to and including the
    next star and takes one more rune, which closes the comment when it is
    a slash and is skipped otherwise, a star included, so that a comment
    written with two stars before the slash is not closed there.  A
    closed comment is a Comment token with the whole text, the reader left
    after the closing slash; its [NumBytes] is less than the byte length
    staged at entry plus the bytes consumed, the rune taken after each star
    not being counted.  A comment that is not closed consumes the rest of the
    input and fails with [io.EOF], the error of a regular end of input. *)
Theorem get_comment_block ts rest :
  decode_all (unread ts) = 0x2F :: 0x2A :: rest ->
  match block_body false rest with
  | Some (b, after) =>
    exists t ts',
      get_comment ts = (Some t, None, ts') /\
      Type_ t = TokenTypeComment /\
      Text t = 0x2F :: 0x2A :: b /\
      decode_all (unread ts') = after /\
      last_byte_len ts <= NumBytes t /\
      NumBytes t - last_byte_len ts
        < Z.of_nat (rdpos ts') - Z.of_nat (rdpos ts)
  | None =>
    exists ts', get_comment ts = (None, Some EOF, ts') /\ unread ts' = []
  end.
Proof.
  intros HD. rewrite (get_comment_slash ts _ HD). cbv beta iota zeta.
  change (0x2A =? 0x2F) with false. rewrite Z.eqb_refl. cbv iota.
  destruct (get_n_runes_2 ts _ _ _ HD)
    as (total & ts1 & E & K1 & Hd1 & Hb1 & Hlt1 & Hs1).
  rewrite E.
  match goal with
  | |- context [get_comment_block_loop ?f ?t ?c] =>
    pose proof (get_comment_block_loop_body f t c ltac:(lia)) as H;
    cbv zeta in H; rewrite Hd1 in H;
    destruct (get_comment_block_loop f t c) as [[ex all'] ts2]
  end.
  destruct H as (K2 & H).
  destruct (block_body false rest) as [[b after]|].
  - destruct H as (Ex & Ha & Hd2 & Hb2 & Hb3). subst ex all'.
    unfold comment_token. cbn [app length Nat.ltb Nat.leb].
    eexists. eexists. split; [reflexivity|].
    cbn [Type_ Text NumBytes]. unfold runes_to_string. cbn [concat].
    rewrite app_nil_r.
    split; [reflexivity|]. split; [reflexivity|]. split; [exact Hd2|].
    change (last_byte_len ts <= last_byte_len ts2 /\
            last_byte_len ts2 - last_byte_len ts
              < Z.of_nat (rdpos ts2) - Z.of_nat (rdpos ts)). lia.
  - destruct H as (Ex & Hu). subst ex. exists ts2. split; [reflexivity | exact Hu].
Qed.

(** X15, at a concrete input. *)
Lemma get_comment_block_witness :
  let ts := NewScannerString unicode.latin1_only "/* a **/ b */ c" in
  match block_body false (runes_of " a **/ b */ c") with
  | Some (b, after) =>
    exists t ts',
      get_comment ts = (Some t, None, ts') /\
      Type_ t = TokenTypeComment /\
      Text t = 0x2F :: 0x2A :: b /\
      decode_all (unread ts') = after /\
      last_byte_len ts <= NumBytes t /\
      NumBytes t - last_byte_len ts
        < Z.of_nat (rdpos ts') - Z.of_nat (rdpos ts)
  | None =>
    exists ts', get_comment ts = (None, Some EOF, ts') /\ unread ts' = []
  end.
Proof.
  intros ts. apply (get_comment_block ts (runes_of " a **/ b */ c")).
  vm_compute. reflexivity.
Defined.

(** X16 — what is no comment.  [get_comment] answers [io.EOF] on empty
    input and leaves every other input alone, the read position unchanged,
    unless it opens with two slashes or with a slash and a star: a slash
    followed by anything else, or by nothing, is no comment. *)
Theorem get_comment_leaves_other_input ts :
  let D := decode_all (unread ts) in
  (D = [] -> fst (get_comment ts) = (None, Some EOF)) /\
  (D <> [] -> opens_comment D = false ->
   get_comment ts = (None, None, at_rd ts (rdpos ts) None)) /\
  (forall t, fst (fst (get_comment ts)) = Some t -> opens_comment D = true).
Proof.
  cbv zeta.
  assert (A : decode_all (unread ts) <> [] ->
              opens_comment (decode_all (unread ts)) = false ->
              get_comment ts = (None, None, at_rd ts (rdpos ts) None)).
  { intros Hne Ho.
    destruct (decode_all (unread ts)) as [|c1 D'] eqn:ED; [congruence|].
    destruct (Z.eq_dec c1 0x2F) as [->|Hc].
    - rewrite (get_comment_slash ts _ ED). cbv zeta.
      destruct D' as [|c2 D'']; [reflexivity|].
      cbn [opens_comment] in Ho. rewrite Z.eqb_refl in Ho. cbn [andb] in Ho.
      apply orb_false_elim in Ho. destruct Ho as [O1 O2].
      rewrite O1, O2. reflexivity.
    - destruct (get_one_rune_spec ts) as [ch n Hne' HDr Hn Hle | Heof].
      + rewrite (decode_all_at_rd ts ch n None Hne' HDr) in ED.
        inversion ED; subst. eapply get_comment_reject; eassumption.
      + rewrite Heof, decode_all_nil in ED. discriminate. }
  split; [|split].
  - intros E. apply decode_all_nil_inv in E. unfold get_comment.
    destruct (get_one_rune_spec ts) as [ch n Hne HDr Hn Hle | Heof];
      [contradiction | reflexivity].
  - exact A.
  - intros t Ht.
    destruct (opens_comment (decode_all (unread ts))) eqn:O; [reflexivity|].
    destruct (decode_all (unread ts)) as [|c D'] eqn:ED.
    + apply decode_all_nil_inv in ED. unfold get_comment in Ht.
      destruct (get_one_rune_spec ts) as [ch n Hne HDr Hn Hle | Heof];
        [contradiction | discriminate].
    + rewrite A in Ht by (auto; discriminate). discriminate.
Qed.

(** X16, at a concrete input. *)
Lemma get_comment_leaves_other_input_witness :
  let ts := NewScannerString unicode.latin1_only "/ 2" in
  get_comment ts = (None, None, at_rd ts (rdpos ts) None).
Proof.
  intros ts.
  apply (proj1 (proj2 (get_comment_leaves_other_input ts)));
    vm_compute; first [reflexivity | discriminate].
Defined.

(* ------------------------------------------------------------------ *)
(** ** Positions in range *)

Lemma grows_refl ts : sound ts -> grows ts ts.
Proof. intros H. unfold grows. repeat split; try apply H; lia. Qed.

Lemma grows_trans a b c : grows a b -> grows b c -> grows a c.
Proof.
  unfold grows. intros (A1 & A2 & A3 & A4 & A5 & A6) (B1 & B2 & B3 & B4 & B5 & B6).
  repeat split; try congruence; try apply B4; lia.
Qed.

Lemma grows_sound a b : grows a b -> sound b.
Proof. intros H. apply H. Qed.

Ltac grows_tac :=
  unfold grows, sound, count_rune, at_rd, with_last_err, with_last_col,
    with_last_byte_len, with_last_line_addition, with_LastToken, with_reader,
    rdpos, input in *;
  cbn [cfg reader pos last_err last_byte_len last_line_addition last_col
       LastToken bufio.buf bufio.rd bufio.lastRuneSize] in *;
  repeat match goal with
  | |- context [if ?c then _ else _] => destruct c
  end;
  cbn [cfg reader pos last_err last_byte_len last_line_addition last_col
       LastToken bufio.buf bufio.rd bufio.lastRuneSize] in *;
  repeat split; first [reflexivity | tauto | lia].

Lemma grows_read ts n l :
  sound ts -> (rdpos ts + n <= length (input ts))%nat ->
  grows ts (at_rd ts (rdpos ts + n) l).
Proof. intros Hso H. grows_tac. Qed.

Lemma grows_read_counted ts n l ch :
  sound ts -> (rdpos ts + n <= length (input ts))%nat ->
  grows ts (count_rune (at_rd ts (rdpos ts + n) l) ch).
Proof. intros Hso H. grows_tac. Qed.

Lemma grows_read_staged ts n l ch :
  sound ts -> (rdpos ts + n <= length (input ts))%nat ->
  grows ts
    (count_rune
       (with_last_byte_len (at_rd ts (rdpos ts + n) l)
          (last_byte_len (at_rd ts (rdpos ts + n) l) + Z.of_nat n)) ch).
Proof. intros Hso H. grows_tac. Qed.

Lemma grows_stay ts l : sound ts -> grows ts (at_rd ts (rdpos ts) l).
Proof. intros Hso. grows_tac. Qed.

Lemma grows_eof ts e :
  sound ts -> grows ts (with_last_err (at_rd ts (rdpos ts) None) e).
Proof. intros Hso. grows_tac. Qed.

Lemma get_general_loop_grows check exc fuel :
  forall ts runes total, sound ts ->
  grows ts (snd (get_general_loop fuel check exc ts runes total)).
Proof.
  induction fuel as [|fuel IH]; intros ts runes total Hso.
  - apply grows_refl. exact Hso.
  - cbn [get_general_loop].
    destruct (get_one_rune_spec ts) as [ch n Hne HD Hn Hle | Heof].
    + destruct (negb _ && _).
      * pose proof (grows_read_counted ts n (Some n) ch Hso Hle) as G.
        eapply grows_trans; [exact G|]. apply IH. apply G.
      * rewrite unread_after_read. apply grows_stay. exact Hso.
    + destruct (is_EOF EOF && _); apply grows_eof; exact Hso.
Qed.

Lemma get_ident_loop_grows fuel :
  forall i ts runes total, sound ts ->
  grows ts (snd (get_ident_loop fuel i ts runes total)).
Proof.
  induction fuel as [|fuel IH]; intros i ts runes total Hso.
  - apply grows_refl. exact Hso.
  - cbn [get_ident_loop].
    destruct (get_one_rune_spec ts) as [ch n Hne HD Hn Hle | Heof].
    + destruct (IsIdentRune _ ch i).
      * pose proof (grows_read_counted ts n (Some n) ch Hso Hle) as G.
        eapply grows_trans; [exact G|]. apply IH. apply G.
      * rewrite unread_after_read. apply grows_stay. exact Hso.
    + destruct (is_EOF EOF && _); apply grows_eof; exact Hso.
Qed.

Lemma read_until_loop_grows fuel end_ch :
  forall ts runes, sound ts ->
  grows ts (snd (read_until_loop fuel end_ch ts runes)).
Proof.
  induction fuel as [|fuel IH]; intros ts runes Hso.
  - apply grows_refl. exact Hso.
  - cbn [read_until_loop].
    destruct (get_one_rune_spec ts) as [ch n Hne HD Hn Hle | Heof].
    + pose proof (grows_read_staged ts n (Some n) ch Hso Hle) as G.
      destruct (ch =? end_ch); [exact G|].
      eapply grows_trans; [exact G|]. apply IH. apply G.
    + destruct (is_EOF EOF && _); apply grows_eof; exact Hso.
Qed.

Lemma read_until_grows end_ch ts :
  sound ts -> grows ts (snd (read_until end_ch ts)).
Proof.
  intros Hso. unfold read_until.
  pose proof (read_until_loop_grows (S (remaining ts)) end_ch ts [] Hso) as G.
  destruct (read_until_loop _ end_ch ts []) as [[ex runes] ts'].
  destruct ex; exact G.
Qed.

Lemma get_quoted_loop_grows fuel closing :
  forall ts all_runes, sound ts ->
  grows ts (snd (get_quoted_loop fuel closing ts all_runes)).
Proof.
  induction fuel as [|fuel IH]; intros ts all_runes Hso.
  - apply grows_refl. exact Hso.
  - cbn [get_quoted_loop].
    pose proof (read_until_grows closing ts Hso) as G.
    destruct (read_until closing ts) as [[runes err] ts1]. cbn [snd] in G.
    destruct err; [exact G|].
    destruct (1 <? length runes)%nat; [|exact G].
    destruct (IsEscapeRune _ _); [|exact G].
    eapply grows_trans; [exact G|]. apply IH. apply G.
Qed.

Lemma get_comment_block_loop_grows fuel :
  forall ts all_runes, sound ts ->
  grows ts (snd (get_comment_block_loop fuel ts all_runes)).
Proof.
  induction fuel as [|fuel IH]; intros ts all_runes Hso.
  - apply grows_refl. exact Hso.
  - cbn [get_comment_block_loop].
    pose proof (read_until_grows 0x2A ts Hso) as G.
    destruct (read_until 0x2A ts) as [[runes err] ts1]. cbn [snd] in G.
    destruct err; [exact G|].
    pose proof (grows_sound _ _ G) as S1.
    destruct (get_one_rune_spec ts1) as [ch n Hne HD Hn Hle | Heof].
    + pose proof (grows_read ts1 n (Some n) S1 Hle) as G1.
      destruct (negb (ch =? 0x2F)).
      * eapply grows_trans; [exact G|]. eapply grows_trans; [exact G1|].
        apply IH. apply G1.
      * eapply grows_trans; [exact G | exact G1].
    + eapply grows_trans; [exact G|]. apply grows_eof. exact S1.
Qed.

Lemma get_n_runes_loop_grows k :
  forall ts chars total, sound ts ->
  grows ts (snd (get_n_runes_loop k ts chars total)).
Proof.
  induction k as [|k IH]; intros ts chars total Hso.
  - apply grows_refl. exact Hso.
  - cbn [get_n_runes_loop].
    destruct (ReadRune_cases ts) as [(ch & n & Hne & HD & Hn & Hle & E) | (Heof & E)];
      rewrite E.
    + match goal with
      | |- context [get_n_runes_loop k ?t ?c ?s] => set (ts1 := t)
      end.
      assert (G : grows ts ts1).
      { unfold ts1. clear IH E. grows_tac. }
      eapply grows_trans; [exact G|]. apply IH. apply G.
    + cbn [snd]. clear IH E. grows_tac.
Qed.

Lemma grows_col ts :
  sound ts ->
  grows ts (with_last_col (at_rd ts (rdpos ts) None)
              (last_col (at_rd ts (rdpos ts) None) + 1)).
Proof. intros Hso. grows_tac. Qed.

Lemma get_number_loop_grows fuel :
  forall ts runes total fd fdec isf, sound ts ->
  grows ts (snd (get_number_loop fuel ts runes total fd fdec isf)).
Proof.
  induction fuel as [|fuel IH]; intros ts runes total fd fdec isf Hso.
  - apply grows_refl. exact Hso.
  - cbn [get_number_loop].
    assert (Peek : forall ts2 runes2 total2 fd2 fdec2 isf2 isf3,
      ts2 = at_rd ts (rdpos ts) None ->
      grows ts
        (snd (let ts3 := with_last_col ts2 (last_col ts2 + 1) in
              match get_one_rune ts3 with
              | (ReadErr err, ts4) =>
                if is_EOF err && (0 <? length runes2)%nat
                then (Break, runes2, total2, isf3, ts4)
                else (Return (Some err), runes2, total2, isf3, ts4)
              | (Got _ _, ts4) =>
                get_number_loop fuel ts4 runes2 total2 fd2 fdec2 isf2
              end))).
    { intros ts2 runes2 total2 fd2 fdec2 isf2 isf3 ->. cbv zeta.
      pose proof (grows_col ts Hso) as G.
      set (ts3 := with_last_col _ _) in *.
      pose proof (grows_sound _ _ G) as S3.
      destruct (get_one_rune_spec ts3) as [ch' n' Hne' HD' Hn' Hle' | Heof'].
      - eapply grows_trans; [exact G|].
        pose proof (grows_read ts3 n' (Some n') S3 Hle') as G3.
        eapply grows_trans; [exact G3|]. apply IH. apply G3.
      - eapply grows_trans; [exact G|].
        destruct (is_EOF EOF && _); apply grows_eof; exact S3. }
    destruct (get_one_rune_spec ts) as [ch n Hne HD Hn Hle | Heof].
    + destruct ((ch =? 0x2E) && fd && negb fdec).
      { rewrite unread_after_read.
        pose proof (check_class_state
                      (IsDigitRune (cfg (at_rd ts (rdpos ts) None))) 2
                      (at_rd ts (rdpos ts) None)) as C.
        destruct (check_next_rune_class_n _ 2 (at_rd ts (rdpos ts) None))
          as [ok ts2].
        cbn [snd] in C.
        change (at_rd (at_rd ts (rdpos ts) None)
                  (rdpos (at_rd ts (rdpos ts) None)) None)
          with (at_rd ts (rdpos ts) None) in C.
        destruct ok.
        - apply (Peek ts2 _ _ _ _ _ _ C).
        - subst ts2. apply grows_stay. exact Hso. }
      destruct ((ch =? 0x2D) && negb fd).
      { rewrite unread_after_read.
        pose proof (check_class_state
                      (IsDigitRune (cfg (at_rd ts (rdpos ts) None))) 2
                      (at_rd ts (rdpos ts) None)) as C.
        destruct (check_next_rune_class_n _ 2 (at_rd ts (rdpos ts) None))
          as [ok ts2].
        cbn [snd] in C.
        change (at_rd (at_rd ts (rdpos ts) None)
                  (rdpos (at_rd ts (rdpos ts) None)) None)
          with (at_rd ts (rdpos ts) None) in C.
        destruct ok.
        - apply (Peek ts2 _ _ _ _ _ _ C).
        - subst ts2. apply grows_stay. exact Hso. }
      destruct (IsDigitRune _ ch).
      * pose proof (grows_read_counted ts n (Some n) ch Hso Hle) as G.
        eapply grows_trans; [exact G|]. apply IH. apply G.
      * rewrite unread_after_read. apply grows_stay. exact Hso.
    + destruct (is_EOF EOF && _); apply grows_eof; exact Hso.
Qed.

Lemma grows_token a b t : grows a b -> grows a (with_LastToken b t).
Proof. intros G. grows_tac. Qed.

Lemma grows_total a b total :
  grows a b -> 0 <= last_byte_len a ->
  Z.of_nat (rdpos b) = Z.of_nat (rdpos a) + total ->
  forall t, grows a (with_LastToken (with_last_byte_len b total) t).
Proof. intros G H0 Ht t. grows_tac. Qed.

Lemma get_general_grows tt check exc ts :
  sound ts -> grows ts (snd (get_general tt check exc ts)).
Proof.
  intros Hso. unfold get_general.
  pose proof (get_general_loop_grows check exc (S (remaining ts)) ts [] 0 Hso)
    as G.
  pose proof (get_general_loop_spec check exc (S (remaining ts)) ts [] 0
                ltac:(lia)) as P.
  destruct (get_general_loop _ check exc ts [] 0) as [[[ex runes] total] ts1].
  cbn [snd] in G. unfold get_general_loop_post in P.
  destruct ex; [|exact G].
  destruct (length runes =? 0)%nat; [exact G|]. cbn [snd].
  destruct P as (_ & _ & Hrd & _).
  apply grows_total; [exact G | apply Hso | lia].
Qed.

Lemma runes_loop_grows ts ex runes total ts1 tt :
  sound ts -> grows ts ts1 ->
  runes_loop_post ts [] 0 ex runes total ts1 ->
  grows ts
    (snd (match ex with
          | Return err => (None, err, ts1)
          | Break =>
            if (length runes =? 0)%nat then (None, None, ts1)
            else
              let token := {| Text := runes_to_string [runes];
                              NumBytes := total;
                              NumChars := Z.of_nat (length runes);
                              FirstRune := nth 0 runes 0; Type_ := tt |} in
              (Some token, None,
               with_LastToken (with_last_byte_len ts1 total) (Some token))
          end : classified)).
Proof.
  intros Hso G P. unfold runes_loop_post in P.
  destruct ex; [|exact G].
  destruct (length runes =? 0)%nat; [exact G|]. cbn [snd].
  destruct P as (_ & _ & Hrd & _).
  apply grows_total; [exact G | apply Hso | lia].
Qed.

Lemma get_ident_grows ts : sound ts -> grows ts (snd (get_ident ts)).
Proof.
  intros Hso. unfold get_ident.
  pose proof (get_ident_loop_grows (S (remaining ts)) 0 ts [] 0 Hso) as G.
  pose proof (get_ident_loop_spec (S (remaining ts)) 0 ts [] 0 ltac:(lia)) as P.
  destruct (get_ident_loop _ 0 ts [] 0) as [[[ex runes] total] ts1].
  cbn [snd] in G.
  pose proof (runes_loop_grows ts ex runes total ts1 TokenTypeIdent Hso G P) as R.
  destruct ex; exact R.
Qed.

Lemma get_number_grows ts : sound ts -> grows ts (snd (get_number ts)).
Proof.
  intros Hso. unfold get_number.
  pose proof (get_number_loop_grows (S (remaining ts)) ts [] 0 false false false
                Hso) as G.
  pose proof (get_number_loop_spec (S (remaining ts)) ts [] 0 false false false
                ltac:(lia)) as P.
  cbv zeta in P.
  destruct (get_number_loop _ ts [] 0 false false false)
    as [[[[ex runes] total] isf] ts1].
  cbn [snd] in G. destruct P as (P & _).
  pose proof (runes_loop_grows ts ex runes total ts1
                (if isf then TokenTypeFloat else TokenTypeInt) Hso G P) as R.
  destruct ex; exact R.
Qed.

Lemma get_quoted_grows ts : sound ts -> grows ts (snd (get_quoted ts)).
Proof.
  intros Hso. unfold get_quoted.
  destruct (get_one_rune_spec ts) as [ch n Hne HD Hn Hle | Heof].
  - destruct (IsQuoteRune _ ch) as [ok closing].
    destruct ok; cbn [negb].
    + set (ts0 := with_last_byte_len _ _).
      assert (G0 : grows ts ts0) by (unfold ts0; grows_tac).
      pose proof (get_quoted_loop_grows (S (remaining ts0)) closing ts0 []
                    (grows_sound _ _ G0)) as G.
      destruct (get_quoted_loop _ closing ts0 []) as [[ex all] ts1].
      cbn [snd] in G. destruct ex; cbn [snd].
      * apply grows_token. eapply grows_trans; eassumption.
      * eapply grows_trans; eassumption.
    + rewrite unread_after_read. apply grows_stay. exact Hso.
  - apply grows_eof. exact Hso.
Qed.

Lemma comment_token_grows ts ts' all_runes :
  grows ts ts' -> grows ts (snd (comment_token ts' all_runes)).
Proof.
  intros G. unfold comment_token.
  destruct (0 <? length all_runes)%nat; cbn [snd];
    [apply grows_token|]; exact G.
Qed.

Lemma get_comment_grows ts : sound ts -> grows ts (snd (get_comment ts)).
Proof.
  intros Hso. unfold get_comment.
  destruct (get_one_rune_spec ts) as [ch n Hne HD Hn Hle | Heof].
  2:{ apply grows_eof. exact Hso. }
  destruct (ch =? 0x2F); rewrite unread_after_read.
  2:{ apply grows_stay. exact Hso. }
  set (tsA := at_rd ts (rdpos ts) None).
  assert (GA : grows ts tsA) by (apply grows_stay; exact Hso).
  pose proof (grows_sound _ _ GA) as SA.
  assert (N2 : grows ts (snd (get_n_runes 2 tsA))).
  { eapply grows_trans; [exact GA|]. apply get_n_runes_loop_grows. exact SA. }
  destruct (check_next_rune_char_n 0x2F 2 tsA) as [is_line tsB] eqn:EB.
  pose proof (check_char_state 0x2F 2 tsA) as HB. rewrite EB in HB.
  cbn [snd] in HB. change (at_rd tsA (rdpos tsA) None) with tsA in HB. subst tsB.
  destruct is_line.
  - destruct (get_n_runes 2 tsA) as [[[chars total] err] ts1].
    cbn [snd] in N2. destruct err; [exact N2|].
    pose proof (read_until_grows (eol (cfg ts1)) ts1 (grows_sound _ _ N2)) as R.
    destruct (read_until (eol (cfg ts1)) ts1) as [[chars2 err2] ts2].
    cbn [snd] in R. pose proof (grows_trans _ _ _ N2 R) as G2.
    destruct err2 as [e|]; [|apply comment_token_grows; exact G2].
    destruct (negb (is_EOF e)); [exact G2 | apply comment_token_grows; exact G2].
  - destruct (check_next_rune_char_n 0x2A 2 tsA) as [is_block tsB] eqn:EB2.
    pose proof (check_char_state 0x2A 2 tsA) as HB. rewrite EB2 in HB.
    cbn [snd] in HB. change (at_rd tsA (rdpos tsA) None) with tsA in HB. subst tsB.
    destruct is_block.
    + destruct (get_n_runes 2 tsA) as [[[chars total] err] ts1].
      cbn [snd] in N2. destruct err; [exact N2|].
      pose proof (get_comment_block_loop_grows (S (remaining ts1)) ts1 chars
                    (grows_sound _ _ N2)) as R.
      destruct (get_comment_block_loop _ ts1 chars) as [[ex all'] ts2].
      cbn [snd] in R. pose proof (grows_trans _ _ _ N2 R) as G2.
      destruct ex; [apply comment_token_grows; exact G2 | exact G2].
    + apply comment_token_grows. exact GA.
Qed.

Lemma Scan_rest_grows ts :
  sound ts ->
  grows ts (match Scan_rest ts with inl (_, _, ts') => ts' | inr ts' => ts' end).
Proof.
  intros Hso. unfold Scan_rest.
  pose proof (get_comment_grows ts Hso) as G1.
  destruct (get_comment ts) as [[[t|] [e|]] ts1]; cbn [snd] in G1;
    try (destruct (SkipComments (cfg ts1)); exact G1); try exact G1.
  pose proof (get_quoted_grows ts1 (grows_sound _ _ G1)) as G2.
  pose proof (grows_trans _ _ _ G1 G2) as G12. clear G1 G2.
  destruct (get_quoted ts1) as [[[t|] [e|]] ts2]; cbn [snd] in G12;
    try exact G12.
  pose proof (get_ident_grows ts2 (grows_sound _ _ G12)) as G3.
  pose proof (grows_trans _ _ _ G12 G3) as G13. clear G12 G3.
  destruct (get_ident ts2) as [[[t|] [e|]] ts3]; cbn [snd] in G13;
    try exact G13.
  pose proof (get_number_grows ts3 (grows_sound _ _ G13)) as G4.
  pose proof (grows_trans _ _ _ G13 G4) as G14. clear G13 G4.
  destruct (get_number ts3) as [[[t|] [e|]] ts4]; cbn [snd] in G14;
    try exact G14.
  pose proof (get_general_grows TokenTypeSymbol (IsSymbolRune (cfg ts4))
                [fun ch => if fst (IsQuoteRune (cfg ts4) ch) then true else false]
                ts4 (grows_sound _ _ G14)) as G5.
  pose proof (grows_trans _ _ _ G14 G5) as G15. clear G14 G5.
  unfold get_symbol.
  destruct (get_general _ _ _ ts4) as [[[t|] [e|]] ts5]; cbn [snd] in G15;
    exact G15.
Qed.

Lemma well_positioned_update_pos ts :
  well_positioned ts -> well_positioned (update_pos ts).
Proof.
  unfold well_positioned, sound.
  intros ((A & B & C & D) & E & F & G & H).
  destruct (update_pos_facts ts) as (_ & U2 & U3 & _ & _ & U6 & U7 & U8 & U9).
  rewrite U2, U3, U6, U7, U8, U9. cbn [Line Column Offset].
  repeat split; lia.
Qed.

Lemma well_positioned_grows ts ts' :
  well_positioned ts -> grows ts ts' -> well_positioned ts'.
Proof.
  unfold well_positioned, grows.
  intros (A & E & F & G & H) (B1 & B2 & B3 & B4 & B5 & B6).
  rewrite B1. split; [exact B4|]. repeat split; lia.
Qed.

Lemma Scan_loop_well_positioned fuel :
  forall ts, well_positioned ts ->
  well_positioned (snd (Scan_loop fuel ts)).
Proof.
  induction fuel as [|fuel IH]; intros ts W; [exact W|].
  cbn [Scan_loop].
  pose proof (well_positioned_update_pos ts W) as W0.
  set (ts0 := update_pos ts) in *.
  pose proof (get_general_grows TokenTypeWhitespace (IsSpaceRune (cfg ts0)) []
                ts0 (proj1 W0)) as G1.
  unfold get_whitespace.
  destruct (get_general _ _ _ ts0) as [[tok err] ts1]. cbn [snd] in G1.
  pose proof (well_positioned_grows _ _ W0 G1) as W1.
  destruct tok as [t|].
  - destruct (SkipWhitespace (cfg ts1)); [apply IH; exact W1 | exact W1].
  - destruct err as [e|]; [exact W1|].
    pose proof (Scan_rest_grows ts1 (proj1 W1)) as G2.
    destruct (Scan_rest ts1) as [[[found er] ts2]|ts2].
    + exact (well_positioned_grows _ _ W1 G2).
    + apply IH. exact (well_positioned_grows _ _ W1 G2).
Qed.

Lemma rescan_input n : forall ts, input (rescan n ts) = input ts.
Proof.
  induction n as [|n IH]; intros ts; [reflexivity|].
  cbn [rescan]. rewrite IH.
  destruct (Scan ts) as [found ts'] eqn:E.
  pose proof (Scan_spec _ _ _ E) as G. unfold Scan_loop_post in G.
  cbn [snd]. apply G.
Qed.

Lemma rescan_well_positioned n : forall ts,
  well_positioned ts -> well_positioned (rescan n ts).
Proof.
  induction n as [|n IH]; intros ts W; [exact W|].
  cbn [rescan]. apply IH. unfold Scan.
  pose proof (Scan_loop_well_positioned (S (remaining ts)) ts W) as H.
  destruct (Scan_loop (S (remaining ts)) ts) as [[found err] ts']. exact H.
Qed.

(** X17 — the position stays in range.  A scanner set up by [Init] is well
    positioned, [Scan] keeps a well-positioned scanner well positioned, and
    so after any number of calls, whatever they return and whatever the
    input, the reported line and column are at least 1 and the reported
    offset lies between 0 and the length of the input, never past the
    bytes consumed. *)
Theorem position_stays_in_range :
  (forall U src, well_positioned (NewScannerBytes U src)) /\
  (forall ts, well_positioned ts -> well_positioned (snd (Scan ts))) /\
  (forall U src n,
     let ts := rescan n (NewScannerBytes U src) in
     1 <= Line (Position_ ts) /\ 1 <= Column (Position_ ts) /\
     0 <= Offset (Position_ ts) <= Z.of_nat (rdpos ts) /\
     (rdpos ts <= length src)%nat).
Proof.
  assert (I : forall U src, well_positioned (NewScannerBytes U src)).
  { intros U src. unfold well_positioned, sound. cbn. repeat split; lia. }
  split; [exact I|]. split.
  - intros ts W. apply (rescan_well_positioned 1 ts W).
  - intros U src n ts.
    pose proof (rescan_well_positioned n _ (I U src)) as W.
    pose proof (rescan_input n (NewScannerBytes U src)) as Ei.
    fold ts in W, Ei. change (input (NewScannerBytes U src)) with src in Ei.
    unfold well_positioned, sound, Position_ in *. rewrite Ei in W.
    repeat split; lia.
Qed.

(** X17, at a concrete input. *)
Lemma position_stays_in_range_witness :
  well_positioned
    (snd (Scan (NewScannerString unicode.latin1_only "/* a */ 'b' c"))).
Proof.
  apply (proj1 (proj2 position_stays_in_range)).
  apply (proj1 position_stays_in_range).
Defined.

Lemma rescan_filename n : forall ts,
  Filename (pos (rescan n ts)) = Filename (pos ts).
Proof.
  induction n as [|n IH]; intros ts; [reflexivity|].
  cbn [rescan]. rewrite IH.
  destruct (Scan ts) as [found ts'] eqn:E.
  pose proof (Scan_spec _ _ _ E) as G. unfold Scan_loop_post in G.
  cbn [snd]. apply G.
Qed.

(** X18 — the file name.  [SetFilename] changes nothing of the position
    but its file name, and scanning never touches it: whatever the calls of
    [Scan] return, it is the file name of every position reported
    afterwards. *)
Theorem filename_survives_scanning ts name :
  (forall n, Filename (Position_ (rescan n (SetFilename ts name))) = name) /\
  (let p := Position_ (SetFilename ts name) in
   Offset p = Offset (Position_ ts) /\ Line p = Line (Position_ ts) /\
   Column p = Column (Position_ ts)).
Proof.
  split.
  - intros n. unfold Position_. rewrite rescan_filename. reflexivity.
  - repeat split.
Qed.

(* ------------------------------------------------------------------ *)
(** ** Names and classes *)

(** X19 — the names of the token types.  [String] names each of the seven
    declared token types, with a name of its own that is not empty, and
    answers with the empty string for a value above them; the bound it
    checks is the upper one only, so that it fails on a negative value. *)
Theorem TokenType_String_names :
  (forall t, exists s, TokenType_String (TokenType_int t) = Some s /\
                       s <> EmptyString) /\
  (forall t1 t2,
     TokenType_String (TokenType_int t1) = TokenType_String (TokenType_int t2) ->
     t1 = t2) /\
  (forall z, 6 < z -> TokenType_String z = Some EmptyString) /\
  (forall z, z < 0 -> TokenType_String z = None).
Proof.
  split; [|split; [|split]].
  - intros t. destruct t; eexists; (split; [reflexivity | discriminate]).
  - intros t1 t2. destruct t1, t2; cbn; intros H; try reflexivity;
      discriminate.
  - intros z Hz. unfold TokenType_String. cbn [length TokenType_names].
    destruct (Z.of_nat 7 - 1 <? z) eqn:E; [reflexivity|].
    apply Z.ltb_ge in E. lia.
  - intros z Hz. unfold TokenType_String. cbn [length TokenType_names].
    destruct (Z.of_nat 7 - 1 <? z) eqn:E; [apply Z.ltb_lt in E; lia|].
    destruct (z <? 0) eqn:E2; [reflexivity|]. apply Z.ltb_ge in E2. lia.
Qed.

(** X19, at a concrete input. *)
Lemma TokenType_String_names_witness :
  TokenType_String 7 = Some EmptyString /\ TokenType_String (-1) = None.
Proof.
  split.
  - apply (proj1 (proj2 (proj2 TokenType_String_names)) 7). lia.
  - apply (proj2 (proj2 (proj2 TokenType_String_names)) (-1)). lia.
Defined.

Lemma latin1_runes_all ch : 0 <= ch <= 0xFF -> In ch latin1_runes.
Proof.
  intros H. unfold latin1_runes. apply in_map_iff.
  exists (Z.to_nat ch). split; [lia|]. apply in_seq. lia.
Qed.

(** X20 — the default classes on Latin-1.  For a rune of the Latin-1 block
    the default predicates agree on who starts a token: at most one of
    whitespace, quote, identifier start and digit holds; a symbol rune is
    none of whitespace, quote and digit, and is an identifier start only if
    it is the underscore.  The underscore, the slash and the minus sign are
    where the order of the classifiers in [Scan] decides. *)
Theorem default_classes_on_latin1 U ch :
  0 <= ch <= 0xFF ->
  at_most_one (head_classes U ch) = true /\
  (classes.IsSymbolRune U ch 0 [] = true ->
   classes.IsSpaceRune U ch 0 [] = false /\
   fst (classes.IsQuoteRune ch) = false /\
   classes.IsDigitRune U ch = false /\
   (classes.IsIdentRune U ch 0 = true -> ch = 0x5F)).
Proof.
  intros H. apply latin1_runes_all in H. revert ch H.
  apply Forall_forall.
  assert (D : forallb (fun ch =>
            at_most_one (head_classes U ch)
            && (negb (classes.IsSymbolRune U ch 0 [])
                || (negb (classes.IsSpaceRune U ch 0 [])
                    && negb (fst (classes.IsQuoteRune ch))
                    && negb (classes.IsDigitRune U ch)
                    && (negb (classes.IsIdentRune U ch 0) || (ch =? 0x5F)))))
            latin1_runes = true) by (vm_compute; reflexivity).
  rewrite forallb_forall in D. apply Forall_forall. intros ch Hin.
  specialize (D ch Hin). apply andb_true_iff in D. destruct D as [D1 D2].
  split; [exact D1|]. intros Hs. rewrite Hs in D2. cbn [negb orb] in D2.
  repeat (apply andb_true_iff in D2; destruct D2 as [D2 ?]).
  repeat match goal with
  | E : negb _ = true |- _ => apply negb_true_iff in E
  end.
  repeat split; auto.
  intros Hi. match goal with E : _ || _ = true |- _ => rewrite Hi in E;
    cbn in E; apply Z.eqb_eq in E; exact E end.
Qed.

(** X20, at a concrete input. *)
Lemma default_classes_on_latin1_witness :
  at_most_one (head_classes unicode.latin1_only 0x5F) = true /\
  (classes.IsSymbolRune unicode.latin1_only 0x5F 0 [] = true ->
   classes.IsSpaceRune unicode.latin1_only 0x5F 0 [] = false /\
   fst (classes.IsQuoteRune 0x5F) = false /\
   classes.IsDigitRune unicode.latin1_only 0x5F = false /\
   (classes.IsIdentRune unicode.latin1_only 0x5F 0 = true -> 0x5F = 0x5F)).
Proof.
  apply (default_classes_on_latin1 unicode.latin1_only 0x5F). lia.
Defined.

(* ------------------------------------------------------------------ *)
(** ** How the scan step composes *)

Lemma Scan_resumes ts ts1 :
  unread ts <> [] -> input ts1 = input ts -> (rdpos ts < rdpos ts1)%nat ->
  (let '(found, err, ts') := Scan_loop (remaining ts) ts1 in
   (found, with_last_err ts' err)) = Scan ts1.
Proof.
  intros Hu Hi Hlt. unfold Scan.
  apply skipn_nonnil_lt in Hu. fold (rdpos ts) (input ts) in Hu.
  rewrite (Scan_loop_fuel (remaining ts) ts1 (S (remaining ts1))); [reflexivity| |lia].
  rewrite !remaining_eq, Hi. lia.
Qed.

(** X21 — skipping.  A whitespace token found while [SkipWhitespace] is
    set, and a comment token found while [SkipComments] is set, are passed
    over as if the call had been made after them: [Scan] answers what
    [Scan] answers on the scanner the classifier left, whose staged byte
    length, line and column are then taken into the position. *)
Theorem Scan_skips_as_if_started_after ts :
  (forall t err ts1,
     SkipWhitespace (cfg ts) = true ->
     get_whitespace (update_pos ts) = (Some t, err, ts1) ->
     Scan ts = Scan ts1) /\
  (forall ts0 t err ts1,
     SkipComments (cfg ts) = true ->
     get_whitespace (update_pos ts) = (None, None, ts0) ->
     get_comment ts0 = (Some t, err, ts1) ->
     Scan ts = Scan ts1).
Proof.
  destruct (update_pos_facts ts) as (U1 & U2 & U3 & U4 & _).
  assert (Hne : forall tok err ts1,
            get_whitespace (update_pos ts) = (tok, err, ts1) ->
            (tok <> None \/ err = None) -> unread ts <> []).
  { intros tok err ts1 E H Hu. unfold get_whitespace in E.
    rewrite get_general_eof in E by (rewrite U4; exact Hu).
    inversion E; subst. destruct H as [H|H]; [congruence | discriminate]. }
  split.
  - intros t err ts1 Hs E.
    pose proof (Hne _ _ _ E ltac:(left; discriminate)) as Hu.
    pose proof (get_whitespace_post (update_pos ts)) as P. rewrite E in P.
    destruct P as (P1 & P2 & P3 & P4).
    destruct err; [contradiction|]. destruct P4 as (_ & _ & Hlt).
    rewrite <- (Scan_resumes ts ts1 Hu); [|congruence|rewrite <- U3; exact Hlt].
    unfold Scan at 1. cbn [Scan_loop]. rewrite E.
    rewrite P1, U1, Hs. reflexivity.
  - intros ts0 t err ts1 Hs E0 E.
    pose proof (Hne _ _ _ E0 ltac:(right; reflexivity)) as Hu.
    pose proof (get_whitespace_post (update_pos ts)) as P0. rewrite E0 in P0.
    destruct P0 as (A1 & A2 & A3 & A4 & _).
    pose proof (proj1 (get_comment_spec ts0)) as P. rewrite E in P.
    destruct P as (P1 & P2 & P3 & P4).
    destruct err; [contradiction|]. destruct P4 as (_ & _ & Hlt).
    rewrite <- (Scan_resumes ts ts1 Hu);
      [|congruence|rewrite <- U3, <- A4; exact Hlt].
    unfold Scan at 1. cbn [Scan_loop]. rewrite E0.
    unfold Scan_rest. rewrite E. rewrite P1, A1, U1, Hs. reflexivity.
Qed.

(** X21, at a concrete input. *)
Lemma Scan_skips_as_if_started_after_witness :
  let ts := NewScannerString unicode.latin1_only "  a" in
  Scan ts = Scan (snd (get_whitespace (update_pos ts))).
Proof.
  intros ts.
  apply (proj1 (Scan_skips_as_if_started_after ts)
           {| Text := runes_of "  "; NumBytes := 2; NumChars := 2;
              FirstRune := 0x20; Type_ := TokenTypeWhitespace |} None).
  - reflexivity.
  - vm_compute. reflexivity.
Defined.

(** X22 — [Scan] at an identifier.  When the next rune is an identifier
    start and is neither whitespace, a slash nor a quote, the step folds the
    staged deltas into the position, is turned down by the whitespace,
    comment and quoted-string classifiers without anything being consumed,
    and returns true with the Ident token of [get_ident]: the longest run of
    identifier runes, the reader left right after it, a nil error. *)
Theorem Scan_at_identifier ts ch n :
  unread ts <> [] -> utf8.DecodeRune (unread ts) = (ch, n) ->
  IsSpaceRune (cfg ts) ch 0 [] = false -> ch <> 0x2F ->
  fst (IsQuoteRune (cfg ts) ch) = false ->
  IsIdentRune (cfg ts) ch 0 = true ->
  let D := decode_all (unread ts) in
  let L := longest_run (fun c i _ => IsIdentRune (cfg ts) c i) [] [] D in
  exists t ts',
    Scan ts = (true, ts') /\ Token_ ts' = Some t /\ Err ts' = None /\
    Type_ t = TokenTypeIdent /\ Text t = L /\
    Position_ ts' = pos (update_pos ts) /\
    decode_all (unread ts') = skipn (length L) D.
Proof.
  intros Hne HD Hs Hc Hq Hi. cbv zeta.
  set (tsQ := at_rd (update_pos ts) (rdpos ts) None).
  assert (E : Scan ts =
    let '(found, err, ts1) :=
      match get_ident tsQ with
      | (Some _, err, ts1) => (true, err, ts1)
      | (None, Some err, ts1) => (false, Some err, ts1)
      | (None, None, ts1) =>
        match Scan_rest tsQ with
        | inl r => r
        | inr ts1 => Scan_loop (remaining ts) ts1
        end
      end in (found, with_last_err ts1 err)).
  { unfold Scan. cbn [Scan_loop]. unfold get_whitespace.
    rewrite (get_general_reject _ _ _ (update_pos ts) ch n) by auto.
    change (at_rd (update_pos ts) (rdpos (update_pos ts)) None) with tsQ.
    unfold Scan_rest.
    assert (EA : at_rd tsQ (rdpos tsQ) None = tsQ) by reflexivity.
    rewrite (get_comment_reject tsQ ch n) by auto. rewrite EA.
    rewrite (get_quoted_reject tsQ ch n) by auto. rewrite EA.
    destruct (get_ident tsQ) as [[[t|] [e|]] ts1]; reflexivity. }
  rewrite E. clear E.
  pose proof (get_ident_run tsQ) as H. cbv zeta in H.
  pose proof (proj1 (get_ident_spec tsQ)) as P.
  change (unread tsQ) with (unread ts) in H.
  change (cfg tsQ) with (cfg ts) in H.
  destruct H as (_ & _ & H3).
  assert (HL : longest_run (fun c i _ => IsIdentRune (cfg ts) c i) [] []
                 (decode_all (unread ts)) <> []).
  { rewrite (decode_all_at_rd ts ch n None Hne HD). cbn [longest_run length].
    change (Z.of_nat 0) with 0. rewrite Hi. cbn. discriminate. }
  destruct (H3 HL) as (t & Et & Ht & Hty & Hd & _).
  destruct (get_ident tsQ) as [[tok err] ts1]. cbn [fst snd] in Et, Hd.
  inversion Et; subst tok err.
  destruct P as (_ & P2 & _ & P4 & _).
  exists t, (with_last_err ts1 None).
  split; [reflexivity|]. split; [exact P4|]. split; [reflexivity|].
  split; [exact Hty|]. split; [exact Ht|]. split; [exact P2 | exact Hd].
Qed.

(** X22, at a concrete input. *)
Lemma Scan_at_identifier_witness :
  let ts := NewScannerString unicode.latin1_only "ab c" in
  let D := decode_all (unread ts) in
  let L := longest_run (fun c i _ => IsIdentRune (cfg ts) c i) [] [] D in
  exists t ts',
    Scan ts = (true, ts') /\ Token_ ts' = Some t /\ Err ts' = None /\
    Type_ t = TokenTypeIdent /\ Text t = L /\
    Position_ ts' = pos (update_pos ts) /\
    decode_all (unread ts') = skipn (length L) D.
Proof.
  intros ts.
  apply (Scan_at_identifier ts 0x61 1%nat);
    vm_compute; first [reflexivity | discriminate].
Defined.

(* ------------------------------------------------------------------ *)
(** ** Numbers *)

Lemma check_class_2_decode check ts :
  fst (check_next_rune_class_n check 2 ts) =
    match decode_all (unread ts) with
    | c1 :: c2 :: _ => peekable c1 && peekable c2 && check c2
    | _ => false
    end.
Proof.
  unfold check_next_rune_class_n.
  pose proof (peek_multirune_lookahead 2 ts) as H.
  destruct (peek_multirune 2 ts) as [[runes err] ts']. cbn [fst] in H.
  unfold lookahead in H.
  destruct (decode_all (unread ts)) as [|c1 [|c2 D']]; cbn in H.
  - inversion H; subst. reflexivity.
  - destruct (peekable c1); cbn in H; inversion H; subst; reflexivity.
  - destruct (peekable c1), (peekable c2); cbn in H; inversion H; subst;
      reflexivity.
Qed.

Lemma get_number_loop_run fuel :
  forall ts runes total fd fdec isf, (remaining ts < fuel)%nat ->
  number_exit ts runes total fd fdec isf
    (get_number_loop fuel ts runes total fd fdec isf).
Proof.
  induction fuel as [|fuel IH]; intros ts runes total fd fdec isf Hf; [lia|].
  cbn [get_number_loop].
  destruct (get_one_rune_spec ts) as [ch n Hne HD Hn Hle | Heof].
  2:{ unfold number_exit. cbv zeta. rewrite Heof, decode_all_nil.
      cbn [is_EOF andb number_run fst snd].
      destruct ((0 <? length runes)%nat) eqn:Hl.
      - split. { intros _ E. subst runes. discriminate. }
        intros _. split; [reflexivity|]. split; [rewrite app_nil_r; reflexivity|].
        split; [reflexivity|].
        split. { change (unread (with_last_err (at_rd ts (rdpos ts) None) (Some EOF)))
                   with (unread ts). rewrite Heof. reflexivity. }
        cbn. split; [lia|]. intros _. lia.
      - split; [reflexivity|]. intros [H|H]; [congruence|].
        destruct runes; [congruence | discriminate]. }
  pose proof (decode_all_at_rd ts ch n (Some n) Hne HD) as HDa.
  change (unread (at_rd ts (rdpos ts + n) (Some n)))
    with (skipn (rdpos ts + n) (input ts)) in HDa.
  set (D' := decode_all (skipn (rdpos ts + n) (input ts))) in *.
  destruct (width_le _ _ _ Hne HD) as [W1 W2].
  set (digit := IsDigitRune (cfg ts)).
  (* the recursive call after [ch] has been accepted *)
  assert (Hnext : forall ts2 fd2 fdec2 isf2 l f,
    cfg ts2 = cfg ts -> input ts2 = input ts ->
    number_run digit fd2 fdec2 isf2 D' = (l, f) ->
    let r := get_number_loop fuel (at_rd ts2 (rdpos ts + n) (Some n))
               (runes ++ [ch]) (total + Z.of_nat n) fd2 fdec2 isf2 in
    let '(ex, runes', total', isf', ts') := r in
    ex = Break /\ runes' = runes ++ ch :: l /\ isf' = f /\
    decode_all (unread ts') = skipn (length (ch :: l)) (ch :: D') /\
    total' - total <= string_len (ch :: l) /\
    (~ In utf8.RuneError (ch :: l) -> total' - total = string_len (ch :: l))).
  { intros ts2 fd2 fdec2 isf2 l f C2 I2 Hr. cbv zeta.
    specialize (IH (at_rd ts2 (rdpos ts + n) (Some n)) (runes ++ [ch])
                   (total + Z.of_nat n) fd2 fdec2 isf2).
    rewrite remaining_at_rd, I2 in IH. rewrite remaining_eq in Hf.
    specialize (IH ltac:(lia)). unfold number_exit in IH. cbv zeta in IH.
    change (cfg (at_rd ts2 (rdpos ts + n) (Some n))) with (cfg ts2) in IH.
    change (unread (at_rd ts2 (rdpos ts + n) (Some n)))
      with (skipn (rdpos ts + n) (input ts2)) in IH.
    rewrite C2, I2 in IH. fold digit in IH. fold D' in IH. rewrite Hr in IH.
    cbn [fst snd] in IH.
    destruct (get_number_loop fuel _ _ _ _ _ _)
      as [[[[ex runes'] total'] isf'] ts'].
    destruct IH as (_ & IH).
    destruct IH as (E & Hr' & Hf' & Hd & Ht1 & Ht2).
    { right. destruct runes; discriminate. }
    split; [exact E|]. rewrite <- app_assoc in Hr'.
    split; [exact Hr'|]. split; [exact Hf'|]. split; [exact Hd|].
    cbn [string_len fold_right]. fold (string_len l).
    split; [lia|]. intros Hno.
    rewrite W2 by (intros Ee; apply Hno; left; rewrite Ee; reflexivity).
    rewrite <- Ht2; [lia|]. intros Hin. apply Hno. right. exact Hin. }
  (* the loop stops in front of [ch] *)
  assert (Hstop : forall ts2 isf2,
    unread ts2 = unread ts ->
    fst (number_run digit fd fdec isf (ch :: D')) = [] ->
    snd (number_run digit fd fdec isf (ch :: D')) = isf2 ->
    number_exit ts runes total fd fdec isf (Break, runes, total, isf2, ts2)).
  { intros ts2 isf2 U2 E1 E2. unfold number_exit. cbv zeta.
    fold digit. rewrite HDa, E1, E2.
    split; [discriminate|]. intros _.
    split; [reflexivity|]. split; [rewrite app_nil_r; reflexivity|].
    split; [reflexivity|]. split; [rewrite U2; exact HDa|].
    cbn. split; [lia|]. intros _. lia. }
  assert (Hgo : forall r l f,
    number_run digit fd fdec isf (ch :: D') = (ch :: l, f) ->
    (let '(ex, runes', total', isf', ts') := r in
     ex = Break /\ runes' = runes ++ ch :: l /\ isf' = f /\
     decode_all (unread ts') = skipn (length (ch :: l)) (ch :: D') /\
     total' - total <= string_len (ch :: l) /\
     (~ In utf8.RuneError (ch :: l) -> total' - total = string_len (ch :: l))) ->
    number_exit ts runes total fd fdec isf r).
  { intros r l f Hr H. unfold number_exit.
    destruct r as [[[[ex runes'] total'] isf'] ts']. cbv zeta.
    fold digit. rewrite HDa, Hr. cbn [fst snd].
    split; [discriminate|]. intros _. exact H. }
  (* the lookahead *)
  assert (Hpeek : forall ok ts2,
    check_next_rune_class_n (IsDigitRune (cfg (at_rd ts (rdpos ts) None))) 2
      (at_rd ts (rdpos ts) None) = (ok, ts2) ->
    ts2 = at_rd ts (rdpos ts) None /\
    ok = peekable ch && digit_ahead digit D').
  { intros ok ts2 Hc.
    pose proof (check_class_state (IsDigitRune (cfg (at_rd ts (rdpos ts) None)))
                  2 (at_rd ts (rdpos ts) None)) as Hst.
    pose proof (check_class_2_decode
                  (IsDigitRune (cfg (at_rd ts (rdpos ts) None)))
                  (at_rd ts (rdpos ts) None)) as Hd.
    rewrite Hc in Hst, Hd. cbn [fst snd] in Hst, Hd.
    split; [exact Hst|].
    change (unread (at_rd ts (rdpos ts) None)) with (unread ts) in Hd.
    change (cfg (at_rd ts (rdpos ts) None)) with (cfg ts) in Hd.
    fold digit in Hd. rewrite HDa in Hd. rewrite Hd.
    unfold digit_ahead. destruct D' as [|d D''];
      [rewrite andb_false_r; reflexivity|].
    rewrite andb_assoc. reflexivity. }
  change (cfg (at_rd ts (rdpos ts + n) (Some n))) with (cfg ts).
  fold digit.
  destruct ((ch =? 0x2E) && fd && negb fdec) eqn:CA.
  { rewrite unread_after_read.
    destruct (check_next_rune_class_n _ 2 (at_rd ts (rdpos ts) None))
      as [ok ts2] eqn:Hc.
    destruct (Hpeek ok ts2 eq_refl) as (Ets2 & Hok).
    destruct ok.
    - rewrite (reread ts (with_last_col ts2 (last_col ts2 + 1)) ch n Hne HD)
        by (subst ts2; repeat split).
      destruct (number_run digit fd true true D') as [l f] eqn:Hr.
      apply (Hgo _ l f).
      + cbn [number_run]. rewrite CA, <- Hok, Hr. reflexivity.
      + apply (Hnext (with_last_col ts2 (last_col ts2 + 1)) fd true true l f);
          [subst ts2; reflexivity | subst ts2; reflexivity | exact Hr].
    - subst ts2. apply Hstop; [reflexivity | |];
        cbn [number_run]; rewrite CA, <- Hok; reflexivity. }
  destruct ((ch =? 0x2D) && negb fd) eqn:CB.
  { rewrite unread_after_read.
    destruct (check_next_rune_class_n _ 2 (at_rd ts (rdpos ts) None))
      as [ok ts2] eqn:Hc.
    destruct (Hpeek ok ts2 eq_refl) as (Ets2 & Hok).
    destruct ok.
    - rewrite (reread ts (with_last_col ts2 (last_col ts2 + 1)) ch n Hne HD)
        by (subst ts2; repeat split).
      destruct (number_run digit fd fdec isf D') as [l f] eqn:Hr.
      apply (Hgo _ l f).
      + cbn [number_run]. rewrite CA, CB, <- Hok, Hr. reflexivity.
      + apply (Hnext (with_last_col ts2 (last_col ts2 + 1)) fd fdec isf l f);
          [subst ts2; reflexivity | subst ts2; reflexivity | exact Hr].
    - subst ts2. apply Hstop; [reflexivity | |];
        cbn [number_run]; rewrite CA, CB, <- Hok; reflexivity. }
  destruct (digit ch) eqn:Hd.
  { destruct (number_run digit true fdec isf D') as [l f] eqn:Hr.
    apply (Hgo _ l f).
    - cbn [number_run]. rewrite CA, CB, Hd, Hr. reflexivity.
    - assert (Ecr : count_rune (at_rd ts (rdpos ts + n) (Some n)) ch
                    = at_rd (count_rune (at_rd ts (rdpos ts) None) ch)
                        (rdpos ts + n) (Some n)).
      { unfold count_rune. cbn [cfg at_rd with_reader].
        destruct (ch =? eol (cfg ts)); reflexivity. }
      rewrite Ecr.
      apply (Hnext (count_rune (at_rd ts (rdpos ts) None) ch) true fdec isf l f).
      + rewrite cfg_count_rune. reflexivity.
      + unfold count_rune. cbn [cfg at_rd with_reader].
        destruct (ch =? eol (cfg ts)); reflexivity.
      + exact Hr. }
  rewrite unread_after_read.
  apply Hstop; [reflexivity | |]; cbn [number_run]; rewrite CA, CB, Hd;
    reflexivity.
Qed.

Lemma number_run_frac digit isf rs :
  number_run digit true true isf rs = (take_while digit rs, isf).
Proof.
  induction rs as [|ch rs IH]; [reflexivity|].
  cbn [number_run take_while negb]. rewrite !andb_false_r.
  destruct (digit ch); [rewrite IH; reflexivity | reflexivity].
Qed.

Lemma number_run_digits digit isf :
  digit 0x2E = false ->
  forall rs,
  number_run digit true false isf rs =
    let ds := take_while digit rs in
    match skipn (length ds) rs with
    | c :: after' =>
      if (c =? 0x2E) && digit_ahead digit after'
      then (ds ++ c :: take_while digit after', true) else (ds, isf)
    | [] => (ds, isf)
    end.
Proof.
  intros Hdot. induction rs as [|ch rs IH]; [reflexivity|].
  cbn [number_run take_while negb]. rewrite andb_false_r.
  destruct (ch =? 0x2E) eqn:E.
  - apply Z.eqb_eq in E. subst ch. rewrite Hdot. cbn [andb length skipn app].
    change (0x2E =? 0x2E) with true. change (peekable 0x2E) with true.
    cbn [andb]. destruct (digit_ahead digit rs); [|reflexivity].
    rewrite number_run_frac. reflexivity.
  - cbn [andb]. destruct (digit ch) eqn:Hd.
    + rewrite IH. cbv zeta. cbn [length skipn].
      destruct (skipn (length (take_while digit rs)) rs) as [|c after'];
        [reflexivity|].
      destruct ((c =? 0x2E) && digit_ahead digit after'); reflexivity.
    + cbn [length skipn]. rewrite E. reflexivity.
Qed.

Lemma number_run_started digit ch rs :
  digit 0x2E = false -> digit 0x2D = false -> digit ch = true ->
  number_run digit false false false (ch :: rs) =
  number_run digit true false false (ch :: rs).
Proof.
  intros Hdot Hmin Hd. cbn [number_run negb].
  assert (E1 : (ch =? 0x2E) = false).
  { apply Z.eqb_neq. intros ->. congruence. }
  assert (E2 : (ch =? 0x2D) = false).
  { apply Z.eqb_neq. intros ->. congruence. }
  rewrite E1, E2, Hd. reflexivity.
Qed.

Lemma take_while_no digit x rs :
  digit x = false ->
  existsb (fun r => r =? x) (take_while digit rs) = false.
Proof.
  intros Hx. induction rs as [|c rs IH]; [reflexivity|].
  cbn [take_while]. destruct (digit c) eqn:Hc; [|reflexivity].
  cbn [existsb]. rewrite IH, orb_false_r.
  apply Z.eqb_neq. intros ->. congruence.
Qed.

(** The automaton of [get_number], in closed form. *)
Lemma number_run_closed digit rs :
  digit 0x2E = false -> digit 0x2D = false ->
  number_run digit false false false rs =
    (number_prefix digit rs, existsb (fun r => r =? 0x2E) (number_prefix digit rs)).
Proof.
  intros Hdot Hmin.
  assert (Hbody : forall (sign : list rune) (d : rune) (rs' : list rune),
    digit d = true -> existsb (fun r => r =? 0x2E) sign = false ->
    (let '(l, f) := number_run digit true false false (d :: rs') in
     (sign ++ l, f)) =
    let ds := take_while digit (d :: rs') in
    let frac :=
      match skipn (length ds) (d :: rs') with
      | c :: after' =>
        if (c =? 0x2E) && digit_ahead digit after'
        then c :: take_while digit after' else []
      | [] => []
      end in
    (sign ++ ds ++ frac, existsb (fun r => r =? 0x2E) (sign ++ ds ++ frac))).
  { intros sign d rs' Hd Hs. rewrite (number_run_digits digit false Hdot).
    cbv zeta.
    set (ds := take_while digit (d :: rs')).
    assert (Hds : existsb (fun r => r =? 0x2E) ds = false)
      by (apply take_while_no; exact Hdot).
    unfold rune in *.
    destruct (skipn (length ds) (d :: rs')) as [|c after'].
    - rewrite app_nil_r, existsb_app, Hs, Hds. reflexivity.
    - destruct ((c =? 0x2E) && digit_ahead digit after') eqn:E.
      + rewrite !existsb_app, Hs, Hds. cbn [existsb orb].
        apply andb_prop in E. destruct E as [E _].
        rewrite E. reflexivity.
      + rewrite app_nil_r, existsb_app, Hs, Hds. reflexivity. }
  destruct rs as [|ch rs]; [reflexivity|].
  unfold number_prefix.
  destruct (ch =? 0x2D) eqn:Em.
  - apply Z.eqb_eq in Em. subst ch.
    cbn [number_run negb andb]. change (0x2D =? 0x2E) with false.
    change (0x2D =? 0x2D) with true. change (peekable 0x2D) with true.
    cbn [andb].
    destruct (digit_ahead digit rs) eqn:Ha.
    + destruct rs as [|d rs']; [discriminate|].
      cbn [digit_ahead] in Ha. apply andb_prop in Ha. destruct Ha as [_ Hd].
      cbn [tl].
      pose proof (number_run_started digit d rs' Hdot Hmin Hd) as Hst.
      pose proof (Hbody [0x2D] d rs' Hd eq_refl) as Hb. cbv zeta in Hb.
      unfold rune in *. rewrite Hst.
      cbn [app] in Hb |- *.
      destruct (number_run digit true false false (d :: rs')) as [l f].
      cbn [take_while] in Hb |- *. rewrite Hd in Hb |- *.
      cbn [length skipn app] in Hb |- *. exact Hb.
    + cbn [take_while]. rewrite Hmin. reflexivity.
  - cbn [andb]. destruct (digit ch) eqn:Hd.
    + pose proof (number_run_started digit ch rs Hdot Hmin Hd) as Hst.
      pose proof (Hbody [] ch rs Hd eq_refl) as Hb. cbv zeta in Hb.
      unfold rune in *. rewrite Hst.
      cbn [app] in Hb.
      destruct (number_run digit true false false (ch :: rs)) as [l f].
      cbn [take_while] in Hb |- *. rewrite Hd in Hb |- *.
      cbn [length skipn app] in Hb |- *. exact Hb.
    + cbn [number_run negb andb]. rewrite Em.
      rewrite andb_false_r. cbn [andb]. rewrite Hd.
      cbn [take_while]. rewrite Hd. reflexivity.
Qed.

Lemma number_run_split digit :
  forall rs fd fdec isf,
  let L := fst (number_run digit fd fdec isf rs) in
  rs = L ++ skipn (length L) rs.
Proof.
  induction rs as [|ch rs IH]; intros fd fdec isf; [reflexivity|].
  cbv zeta. cbn [number_run].
  destruct ((ch =? 0x2E) && fd && negb fdec).
  { destruct (peekable ch && digit_ahead digit rs); [|reflexivity].
    specialize (IH fd true true). cbv zeta in IH.
    destruct (number_run digit fd true true rs) as [l f].
    cbn [fst length skipn app] in IH |- *. rewrite <- IH. reflexivity. }
  destruct ((ch =? 0x2D) && negb fd).
  { destruct (peekable ch && digit_ahead digit rs); [|reflexivity].
    specialize (IH fd fdec isf). cbv zeta in IH.
    destruct (number_run digit fd fdec isf rs) as [l f].
    cbn [fst length skipn app] in IH |- *. rewrite <- IH. reflexivity. }
  destruct (digit ch); [|reflexivity].
  specialize (IH true fdec isf). cbv zeta in IH.
  destruct (number_run digit true fdec isf rs) as [l f].
  cbn [fst length skipn app] in IH |- *. rewrite <- IH. reflexivity.
Qed.

(** [get_number] by the automaton, for any digit predicate. *)
Lemma get_number_run ts :
  let D := decode_all (unread ts) in
  let N := number_run (IsDigitRune (cfg ts)) false false false D in
  let r := get_number ts in
  (D = [] -> fst r = (None, Some EOF)) /\
  (D <> [] -> fst N = [] -> fst r = (None, None)) /\
  (fst N <> [] ->
   exists t, fst r = (Some t, None) /\ Text t = fst N /\
     Type_ t = (if snd N then TokenTypeFloat else TokenTypeInt) /\
     decode_all (unread (snd r)) = skipn (length (fst N)) D /\
     NumBytes t <= string_len (fst N) /\
     (~ In utf8.RuneError (fst N) -> NumBytes t = string_len (fst N))).
Proof.
  cbv zeta. unfold get_number.
  pose proof (get_number_loop_run (S (remaining ts)) ts [] 0 false false false
                ltac:(lia)) as H.
  unfold number_exit in H.
  destruct (get_number_loop _ ts [] 0 false false false)
    as [[[[ex runes] total] isf] ts1].
  cbv zeta in H. destruct H as (H1 & H2).
  set (N := number_run (IsDigitRune (cfg ts)) false false false
              (decode_all (unread ts))) in *.
  destruct (decode_all (unread ts)) as [|d D'] eqn:ED.
  - rewrite (H1 eq_refl eq_refl). cbn.
    split; [reflexivity|]. split; [congruence|].
    intros HN. exfalso. apply HN. reflexivity.
  - destruct H2 as (E & Hr & Hf & Hd & Ht1 & Ht2); [left; discriminate|].
    subst ex. cbn [app] in Hr. subst runes.
    split; [discriminate|].
    destruct (fst N) as [|c L'] eqn:EL.
    + cbn. split; [reflexivity|]. intros HL. congruence.
    + cbn [length Nat.eqb]. split; [intros _ HL; discriminate|]. intros _.
      eexists. split; [reflexivity|]. cbn [Text Type_ NumBytes snd].
      unfold runes_to_string. cbn [concat]. rewrite app_nil_r.
      split; [reflexivity|]. split; [rewrite Hf; reflexivity|].
      split; [exact Hd|]. split; [lia|]. intros Hno. specialize (Ht2 Hno). lia.
Qed.

(** X23 — the number at the head of the input.  With a digit predicate that
    refuses the period and the minus sign, [get_number] answers by the
    runes the reader holds: [io.EOF] when there is none; "not applicable",
    nothing consumed, when they do not begin with a digit or a minus sign
    and a digit; otherwise a token whose text is the number in front: the
    minus sign if any, the longest run of digits, and, when a digit follows
    it, a period with the longest run of digits after it.  The token is a
    Float exactly when its text has the period, an Int otherwise; the reader
    is left right after the text, and [NumBytes] is the byte length of the
    text when it has no U+FFFD.  A period or minus sign that no digit
    follows stays in the input; U+FFFD counts as no digit there. *)
Theorem get_number_takes_the_number ts :
  IsDigitRune (cfg ts) 0x2E = false -> IsDigitRune (cfg ts) 0x2D = false ->
  let D := decode_all (unread ts) in
  let N := number_prefix (IsDigitRune (cfg ts)) D in
  let '(tok, err, ts') := get_number ts in
  match D, N with
  | [], _ => tok = None /\ err = Some EOF
  | _ :: _, [] => tok = None /\ err = None /\ rdpos ts' = rdpos ts
  | _ :: _, _ :: _ =>
    exists t, tok = Some t /\ err = None /\ Text t = N /\
              Type_ t = (if existsb (fun r => r =? 0x2E) N
                         then TokenTypeFloat else TokenTypeInt) /\
              D = N ++ decode_all (unread ts') /\
              NumBytes t <= string_len N /\
              (~ In utf8.RuneError N -> NumBytes t = string_len N)
  end.
Proof.
  intros Hdot Hmin. cbv zeta.
  pose proof (get_number_run ts) as H. cbv zeta in H.
  pose proof (proj1 (get_number_spec ts)) as P.
  pose proof (number_run_split (IsDigitRune (cfg ts)) (decode_all (unread ts))
                false false false) as Hsp. cbv zeta in Hsp.
  rewrite (number_run_closed _ (decode_all (unread ts)) Hdot Hmin) in H, Hsp.
  cbn [fst snd] in H, Hsp.
  destruct (get_number ts) as [[tok err] ts'].
  cbn [fst snd] in H. destruct H as (H1 & H2 & H3).
  destruct (decode_all (unread ts)) as [|d D'] eqn:ED.
  - specialize (H1 eq_refl). inversion H1. auto.
  - destruct (number_prefix _ (d :: D')) as [|c L'] eqn:EL.
    + specialize (H2 ltac:(discriminate) eq_refl). inversion H2; subst.
      repeat split. unfold classifier_post in P. tauto.
    + destruct (H3 ltac:(discriminate)) as (t & E & Ht & Hty & Hd & Hb1 & Hb2).
      inversion E; subst. exists t.
      split; [reflexivity|]. split; [reflexivity|]. split; [exact Ht|].
      split; [exact Hty|]. split; [rewrite Hd; exact Hsp|].
      split; [exact Hb1 | exact Hb2].
Qed.

(** X23, at a concrete input. *)
Lemma get_number_takes_the_number_witness :
  let ts := NewScannerString unicode.latin1_only "-12.5.7x" in
  let D := decode_all (unread ts) in
  let N := number_prefix (IsDigitRune (cfg ts)) D in
  let '(tok, err, ts') := get_number ts in
  match D, N with
  | [], _ => tok = None /\ err = Some EOF
  | _ :: _, [] => tok = None /\ err = None /\ rdpos ts' = rdpos ts
  | _ :: _, _ :: _ =>
    exists t, tok = Some t /\ err = None /\ Text t = N /\
              Type_ t = (if existsb (fun r => r =? 0x2E) N
                         then TokenTypeFloat else TokenTypeInt) /\
              D = N ++ decode_all (unread ts') /\
              NumBytes t <= string_len N /\
              (~ In utf8.RuneError N -> NumBytes t = string_len N)
  end.
Proof.
  intros ts. apply (get_number_takes_the_number ts); vm_compute; reflexivity.
Defined.

(* ------------------------------------------------------------------ *)
(** ** Tokens and the input they consume *)

Lemma longest_run_split check exc :
  forall rs pre,
  let L := longest_run check exc pre rs in
  rs = L ++ skipn (length L) rs.
Proof.
  induction rs as [|c rs IH]; intros pre; [reflexivity|].
  cbv zeta. cbn [longest_run].
  destruct (negb _ && _); [|reflexivity].
  cbn [length skipn app]. rewrite <- IH. reflexivity.
Qed.

Lemma block_body_split :
  forall rs a b after, block_body a rs = Some (b, after) -> rs = b ++ after.
Proof.
  induction rs as [|r rs IH]; intros a b after H; [discriminate|].
  cbn [block_body] in H. destruct a.
  - destruct (r =? 0x2F).
    + inversion H; subst. reflexivity.
    + destruct (block_body false rs) as [[b' rest']|] eqn:E; [|discriminate].
      inversion H; subst. cbn [app]. rewrite <- (IH _ _ _ E). reflexivity.
  - destruct (block_body (r =? 0x2A) rs) as [[b' rest']|] eqn:E;
      [|discriminate].
    inversion H; subst. cbn [app]. rewrite <- (IH _ _ _ E). reflexivity.
Qed.

Lemma untouched_unread ts ts' : untouched ts ts' -> unread ts' = unread ts.
Proof.
  intros (_ & _ & Hi & Hr & _).
  rewrite !unread_skipn. congruence.
Qed.

Lemma get_general_spells tt check exc ts :
  spells_token ts (get_general tt check exc ts).
Proof.
  intros t Ht. pose proof (get_general_run tt check exc ts) as H.
  cbv zeta in H. destruct H as (H1 & H2 & H3).
  destruct (longest_run check exc [] (decode_all (unread ts))) as [|c L] eqn:EL.
  - destruct (decode_all (unread ts)) as [|d D] eqn:ED.
    + rewrite (H1 eq_refl) in Ht. discriminate.
    + rewrite (H2 ltac:(discriminate) eq_refl) in Ht. discriminate.
  - destruct (H3 ltac:(discriminate)) as (t' & E & Htx & _ & Hd & _).
    rewrite E in Ht. inversion Ht; subst t'. rewrite Htx, Hd, <- EL.
    apply longest_run_split.
Qed.

Lemma get_ident_spells ts : spells_token ts (get_ident ts).
Proof.
  intros t Ht. pose proof (get_ident_run ts) as H.
  cbv zeta in H. destruct H as (H1 & H2 & H3).
  destruct (longest_run _ [] [] (decode_all (unread ts))) as [|c L] eqn:EL.
  - destruct (decode_all (unread ts)) as [|d D] eqn:ED.
    + rewrite (H1 eq_refl) in Ht. discriminate.
    + rewrite (H2 ltac:(discriminate) eq_refl) in Ht. discriminate.
  - destruct (H3 ltac:(discriminate)) as (t' & E & Htx & _ & Hd & _).
    rewrite E in Ht. inversion Ht; subst t'. rewrite Htx, Hd, <- EL.
    apply longest_run_split.
Qed.

Lemma get_number_spells ts : spells_token ts (get_number ts).
Proof.
  intros t Ht. pose proof (get_number_run ts) as H.
  cbv zeta in H. destruct H as (H1 & H2 & H3).
  pose proof (number_run_split (IsDigitRune (cfg ts)) (decode_all (unread ts))
                false false false) as Hsp. cbv zeta in Hsp.
  destruct (fst (number_run (IsDigitRune (cfg ts)) false false false
                   (decode_all (unread ts)))) as [|c L] eqn:EL.
  - destruct (decode_all (unread ts)) as [|d D] eqn:ED.
    + rewrite (H1 eq_refl) in Ht. discriminate.
    + rewrite (H2 ltac:(discriminate) eq_refl) in Ht. discriminate.
  - destruct (H3 ltac:(discriminate)) as (t' & E & Htx & _ & Hd & _).
    rewrite E in Ht. inversion Ht; subst t'. rewrite Htx, Hd. exact Hsp.
Qed.

Lemma get_comment_spells ts : spells_token ts (get_comment ts).
Proof.
  intros t Ht.
  destruct (decode_all (unread ts)) as [|c1 D'] eqn:ED.
  { apply decode_all_nil_inv in ED. unfold get_comment in Ht.
    destruct (get_one_rune_spec ts) as [ch n Hne HDr Hn Hle | Heof];
      [contradiction | discriminate]. }
  destruct (Z.eq_dec c1 0x2F) as [->|Hc].
  2:{ destruct (get_one_rune_spec ts) as [ch n Hne' HDr Hn Hle | Heof].
      - rewrite (decode_all_at_rd ts ch n None Hne' HDr) in ED.
        injection ED as E1 E2. subst c1.
        rewrite (get_comment_reject ts ch n Hne' HDr Hc) in Ht. discriminate.
      - rewrite Heof, decode_all_nil in ED. discriminate. }
  rewrite (get_comment_slash ts _ ED) in Ht |- *. cbv zeta in Ht |- *.
  destruct D' as [|c2 rest]; [discriminate|].
  destruct (get_n_runes_2 ts _ _ _ ED)
    as (total & ts1 & E & K1 & Hd1 & _).
  rewrite E in Ht |- *.
  assert (C1 : cfg ts1 = cfg ts) by apply K1.
  destruct (c2 =? 0x2F) eqn:E2.
  { apply Z.eqb_eq in E2. subst c2.
    pose proof (read_until_through (eol (cfg ts1)) ts1) as R. cbv zeta in R.
    destruct (read_until (eol (cfg ts1)) ts1) as [[chars2 err2] ts2].
    cbn [fst snd] in R.
    destruct err2 as [e2|]; [destruct R as (_ & _ & _ & _ & R); congruence|].
    destruct R as (Hc2 & Hd2 & _). rewrite Hd1 in Hc2, Hd2.
    unfold comment_token in Ht |- *. cbn [app length Nat.ltb Nat.leb] in Ht |- *.
    cbn [fst snd] in Ht |- *. inversion Ht; subst t.
    cbn [Text]. unfold runes_to_string. cbn [concat]. rewrite app_nil_r.
    change (unread (with_LastToken ts2 _)) with (unread ts2).
    rewrite Hd2, Hc2. cbn [app]. rewrite <- through_app. reflexivity. }
  destruct (c2 =? 0x2A) eqn:E3; [|discriminate].
  apply Z.eqb_eq in E3. subst c2.
  match type of Ht with
  | context [get_comment_block_loop ?f ?t ?c] =>
    pose proof (get_comment_block_loop_body f t c ltac:(lia)) as H;
    cbv zeta in H; rewrite Hd1 in H;
    destruct (get_comment_block_loop f t c) as [[ex all'] ts2]
  end.
  destruct H as (K2 & H).
  destruct (block_body false rest) as [[b after]|] eqn:EB.
  - destruct H as (Ex & Ha & Hd2 & _). subst ex all'.
    unfold comment_token in Ht |- *. cbn [app length Nat.ltb Nat.leb] in Ht |- *.
    cbn [fst snd] in Ht |- *. inversion Ht; subst t.
    cbn [Text]. unfold runes_to_string. cbn [concat]. rewrite app_nil_r.
    change (unread (with_LastToken ts2 _)) with (unread ts2).
    rewrite Hd2. cbn [app]. rewrite <- (block_body_split _ _ _ _ EB).
    reflexivity.
  - destruct H as (Ex & _). subst ex. discriminate.
Qed.

Lemma get_quoted_string ts t :
  fst (fst (get_quoted ts)) = Some t -> Type_ t = TokenTypeString.
Proof.
  pose proof (get_quoted_spec ts) as H.
  destruct (get_quoted ts) as [[tok err] ts']. destruct H as (_ & T & _).
  cbn [fst]. intros E. apply (T t E).
Qed.

(** What a pass through the classifiers of [Scan_rest] has consumed. *)
Lemma Scan_rest_spells ts :
  match Scan_rest ts with
  | inl (true, _, ts') =>
    exists t, LastToken ts' = Some t /\
      (Type_ t <> TokenTypeString ->
       decode_all (unread ts) = Text t ++ decode_all (unread ts'))
  | inl (false, _, _) => True
  | inr ts' =>
    exists t, LastToken ts' = Some t /\
      decode_all (unread ts) = Text t ++ decode_all (unread ts')
  end.
Proof.
  unfold Scan_rest.
  pose proof (proj1 (get_comment_spec ts)) as H.
  pose proof (get_comment_spells ts) as Sp.
  destruct (get_comment ts) as [[tok e] ts1].
  destruct (classifier_post_cases _ _ _ _ H)
    as [(t & -> & -> & P & L) | [(-> & -> & U1) | (e' & -> & -> & F)]]; clear H.
  { specialize (Sp t eq_refl). cbn [snd] in Sp.
    destruct (SkipComments (cfg ts1)); exists t; auto. }
  2:{ exact I. }
  clear Sp. rewrite <- (untouched_unread _ _ U1).
  pose proof (get_quoted_post ts1) as H.
  pose proof (get_quoted_string ts1) as T.
  destruct (get_quoted ts1) as [[tok e] ts2].
  destruct (classifier_post_cases _ _ _ _ H)
    as [(t & -> & -> & P & L) | [(-> & -> & U2) | (e' & -> & -> & F)]]; clear H.
  { exists t. split; [exact L|]. intros N. exfalso. apply N. apply T.
    reflexivity. }
  2:{ exact I. }
  clear T. rewrite <- (untouched_unread _ _ U2).
  pose proof (proj1 (get_ident_spec ts2)) as H.
  pose proof (get_ident_spells ts2) as Sp.
  destruct (get_ident ts2) as [[tok e] ts3].
  destruct (classifier_post_cases _ _ _ _ H)
    as [(t & -> & -> & P & L) | [(-> & -> & U3) | (e' & -> & -> & F)]]; clear H.
  { specialize (Sp t eq_refl). exists t. auto. }
  2:{ exact I. }
  clear Sp. rewrite <- (untouched_unread _ _ U3).
  pose proof (proj1 (get_number_spec ts3)) as H.
  pose proof (get_number_spells ts3) as Sp.
  destruct (get_number ts3) as [[tok e] ts4].
  destruct (classifier_post_cases _ _ _ _ H)
    as [(t & -> & -> & P & L) | [(-> & -> & U4) | (e' & -> & -> & F)]]; clear H.
  { specialize (Sp t eq_refl). exists t. auto. }
  2:{ exact I. }
  clear Sp. rewrite <- (untouched_unread _ _ U4).
  unfold get_symbol.
  match goal with |- context [get_general ?tt ?c ?x ts4] =>
    pose proof (proj1 (get_general_spec tt c x ts4)) as H;
    pose proof (get_general_spells tt c x ts4) as Sp;
    destruct (get_general tt c x ts4) as [[tok e] ts5] end.
  destruct (classifier_post_cases _ _ _ _ H)
    as [(t & -> & -> & P & L) | [(-> & -> & U5) | (e' & -> & -> & F)]]; clear H.
  { specialize (Sp t eq_refl). exists t. auto. }
  - exact I.
  - exact I.
Qed.

Lemma Scan_loop_log_spells fuel :
  forall ts,
  let '(l, (found, _, ts')) := Scan_loop_log fuel ts in
  found = true ->
  exists t, LastToken ts' = Some t /\
    (Type_ t <> TokenTypeString ->
     decode_all (unread ts)
       = spelled l ++ Text t ++ decode_all (unread ts')).
Proof.
  induction fuel as [|fuel IH]; intros ts; [cbn; discriminate|].
  cbn [Scan_loop_log].
  change (unread ts) with (unread (update_pos ts)).
  set (ts0 := update_pos ts).
  unfold get_whitespace.
  match goal with |- context [get_general ?tt ?c ?x ts0] =>
    pose proof (proj1 (get_general_spec tt c x ts0)) as H;
    pose proof (get_general_spells tt c x ts0) as Sp;
    destruct (get_general tt c x ts0) as [[tok e] ts1] end.
  destruct (classifier_post_cases _ _ _ _ H)
    as [(t & -> & -> & P & L) | [(-> & -> & U) | (e' & -> & -> & F)]]; clear H.
  - specialize (Sp t eq_refl). cbn [snd] in Sp.
    destruct (SkipWhitespace (cfg ts1)).
    + specialize (IH ts1).
      destruct (Scan_loop_log fuel ts1) as [l [[found er] ts']].
      intros Hf. destruct (IH Hf) as (t' & A & B). exists t'.
      split; [exact A|]. intros N. rewrite Sp, (B N).
      unfold spelled. cbn [map concat]. rewrite <- app_assoc. reflexivity.
    + intros _. exists t. split; [exact L|]. intros _. exact Sp.
  - clear Sp. rewrite <- (untouched_unread _ _ U).
    pose proof (Scan_rest_spells ts1) as R.
    destruct (Scan_rest ts1) as [[[found er] ts2]|ts2].
    + intros Hf. subst found. exact R.
    + destruct R as (tc & Lc & Hc). rewrite Lc.
      specialize (IH ts2).
      destruct (Scan_loop_log fuel ts2) as [l [[found er] ts']].
      intros Hf. destruct (IH Hf) as (t' & A & B). exists t'.
      split; [exact A|]. intros N. rewrite Hc, (B N).
      unfold spelled. cbn [map concat]. rewrite <- app_assoc. reflexivity.
  - discriminate.
Qed.

Lemma skipped_nil ts :
  SkipWhitespace (cfg ts) = false -> SkipComments (cfg ts) = false ->
  skipped ts = [].
Proof.
  intros Hw Hc. unfold skipped. cbn [Scan_loop_log].
  assert (C0 : cfg (update_pos ts) = cfg ts) by reflexivity.
  set (ts0 := update_pos ts) in *.
  unfold get_whitespace.
  match goal with |- context [get_general ?tt ?c ?x ts0] =>
    pose proof (proj1 (get_general_spec tt c x ts0)) as H;
    destruct (get_general tt c x ts0) as [[tok e] ts1] end.
  destruct (classifier_post_cases _ _ _ _ H)
    as [(t & -> & -> & P & L) | [(-> & -> & U) | (e' & -> & -> & F)]]; clear H.
  - assert (C1 : cfg ts1 = cfg ts) by (destruct P as (P1 & _); congruence).
    rewrite C1, Hw. reflexivity.
  - assert (C1 : cfg ts1 = cfg ts) by (destruct U as (U1 & _); congruence).
    unfold Scan_rest.
    pose proof (proj1 (get_comment_spec ts1)) as H.
    destruct (get_comment ts1) as [[tok e] ts2].
    destruct (classifier_post_cases _ _ _ _ H)
      as [(t & -> & -> & P & L) | [(-> & -> & U1) | (e' & -> & -> & F)]];
      clear H.
    + assert (C2 : cfg ts2 = cfg ts) by (destruct P as (P1 & _); congruence).
      rewrite C2, Hc. reflexivity.
    + destruct (get_quoted ts2) as [[[t|] [e|]] ts3]; try reflexivity.
      destruct (get_ident ts3) as [[[t|] [e|]] ts4]; try reflexivity.
      destruct (get_number ts4) as [[[t|] [e|]] ts5]; try reflexivity.
      destruct (get_symbol ts5) as [[[t|] [e|]] ts6]; reflexivity.
    + reflexivity.
  - reflexivity.
Qed.

Lemma Scan_cfg ts : cfg (snd (Scan ts)) = cfg ts.
Proof.
  destruct (Scan ts) as [found ts'] eqn:E.
  pose proof (Scan_spec ts found ts' E) as H.
  unfold Scan_loop_post in H. cbn [snd]. destruct found; apply H.
Qed.

Lemma last_default {A} (l : list A) :
  forall a d d', last (a :: l) d = last (a :: l) d'.
Proof.
  induction l as [|b l IH]; intros a d d'; [reflexivity|].
  change (last (b :: l) d = last (b :: l) d'). apply IH.
Qed.

Lemma last_cons {A} (a : A) l d : last (a :: l) d = last l a.
Proof.
  destruct l as [|b l]; [reflexivity|].
  change (last (b :: l) d = last (b :: l) a). apply last_default.
Qed.

(** X24 — one step spells the input it consumes.  After a successful
    [Scan] whose token is no quoted string, the runes the reader held are
    the texts of the tokens the call discarded (whitespace and comments,
    by the skip flags), then the text of the token returned, then the runes
    the reader still holds: no rune is dropped, added or changed.  With both
    skip flags cleared nothing is discarded.  (The text of a quoted string
    leaves out the closing quote and the escape runes.) *)
Theorem Scan_spells_the_input ts ts' :
  Scan ts = (true, ts') ->
  exists t, Token_ ts' = Some t /\
    (Type_ t <> TokenTypeString ->
     decode_all (unread ts)
       = spelled (skipped ts) ++ Text t ++ decode_all (unread ts')) /\
    (SkipWhitespace (cfg ts) = false -> SkipComments (cfg ts) = false ->
     skipped ts = []).
Proof.
  intros H. pose proof (skipped_nil ts) as K. revert H K.
  unfold Scan, skipped. intros H K.
  pose proof (Scan_loop_log_spells (S (remaining ts)) ts) as G.
  pose proof (Scan_loop_log_snd (S (remaining ts)) ts) as E.
  destruct (Scan_loop_log (S (remaining ts)) ts) as [l [[found er] ts1]].
  cbn [snd] in E. rewrite <- E in H. inversion H; subst; clear H.
  destruct (G eq_refl) as (t & A & B). exists t.
  split; [exact A|]. split; [exact B | exact K].
Qed.

(** X24, at a concrete input. *)
Lemma Scan_spells_the_input_witness :
  let ts := NewScannerString unicode.latin1_only ("  /* c */ -1.5;") in
  exists t, Token_ (snd (Scan ts)) = Some t /\
    (Type_ t <> TokenTypeString ->
     decode_all (unread ts)
       = spelled (skipped ts) ++ Text t ++ decode_all (unread (snd (Scan ts)))) /\
    (SkipWhitespace (cfg ts) = false -> SkipComments (cfg ts) = false ->
     skipped ts = []).
Proof.
  intros ts. apply (Scan_spells_the_input ts (snd (Scan ts))).
  vm_compute. reflexivity.
Defined.

(** X25 — the tokens spell the input.  With both skip flags cleared, as long
    as no quoted string is met, the texts of the tokens of successive calls
    of [Scan], put one after the other, are the input read so far: the
    runes the reader held at the start are those texts followed by the
    runes it still holds after the last token. *)
Theorem tokens_spell_the_input n :
  forall ts,
  SkipWhitespace (cfg ts) = false -> SkipComments (cfg ts) = false ->
  let l := fst (scan_states n ts) in
  ~ In (Some TokenTypeString) (kinds l) ->
  decode_all (unread ts)
    = concat (texts l) ++ decode_all (unread (last l ts)).
Proof.
  induction n as [|n IH]; intros ts Hw Hc; cbv zeta; [reflexivity|].
  cbn [scan_states].
  pose proof (Scan_cfg ts) as C.
  pose proof (skipped_nil ts Hw Hc) as K.
  pose proof (Scan_loop_log_spells (S (remaining ts)) ts) as G.
  pose proof (Scan_loop_log_snd (S (remaining ts)) ts) as E.
  revert C K. unfold Scan, skipped.
  destruct (Scan_loop_log (S (remaining ts)) ts) as [l0 [[found er] ts1]].
  cbn [snd fst] in E |- *. rewrite <- E. intros C K. subst l0.
  destruct found; [|reflexivity].
  destruct (G eq_refl) as (t & A & B).
  set (ts1' := with_last_err ts1 er) in *. cbn [snd] in C.
  specialize (IH ts1' ltac:(congruence) ltac:(congruence)). cbv zeta in IH.
  destruct (scan_states n ts1') as [l r]. cbn [fst] in IH |- *.
  unfold kinds, texts in *. cbn [map concat In]. intros N.
  assert (Lt : LastToken ts1' = Some t) by exact A.
  rewrite last_cons. unfold TokenText at 1. rewrite Lt.
  rewrite <- app_assoc, <- IH by tauto.
  unfold spelled in B. cbn [map concat app] in B.
  change (unread ts1') with (unread ts1). apply B.
  intros Ety. apply N. left. rewrite Lt, <- Ety. reflexivity.
Qed.

(** X25, at a concrete input. *)
Lemma tokens_spell_the_input_witness :
  let ts := with_skip (NewScannerString unicode.latin1_only
                         ("x = -1.5 // c" ++ nl ++ "y")) false false in
  let l := fst (scan_states 10 ts) in
  decode_all (unread ts)
    = concat (texts l) ++ decode_all (unread (last l ts)).
Proof.
  intros ts l. apply (tokens_spell_the_input 10 ts).
  - reflexivity.
  - reflexivity.
  - vm_compute. intros H.
    repeat (destruct H as [H|H]; [discriminate|]). exact H.
Defined.
